(** * Display-atom highlighting filters of Kakoune ([src/filters.cc])

    A shallow embedding of the four highlight filters ([colorize_regex],
    [expand_tabulations], [show_line_numbers] and the
    [SelectionsHighlighter]) over a list-backed display buffer, with the
    properties the specification states about them. *)

From Stdlib Require Import Ascii String Sorted.
From stdpp Require Import base numbers option list relations.

Local Open Scope nat_scope.

(** ** Failures

    [filters.cc] and the display buffer it drives abort on a broken
    precondition.  Every way a run can stop short is kept apart, so that a
    theorem can say which one did or did not happen. *)

Inductive failure : Type :=
  | SplitNotInterior   (* split: the position is not strictly inside the atom *)
  | SplitNotSplitable  (* split: the atom is not splitable *)
  | PastTheEnd         (* an iterator equal to end() is dereferenced *)
  | OutOfBuffer        (* a character is read outside the buffer *)
  | NewlineInLine      (* expand_tabulations: a newline met while replaying a line *)
  | NoCase             (* SelectionsHighlighter: assert(false) *)
  | OutOfFuel.         (* the model ran out of loop iterations *)

Inductive result (A : Type) : Type :=
  | Ok (a : A)
  | Fail (f : failure).
Arguments Ok {A} a.
Arguments Fail {A} f.

#[global] Instance result_ret : MRet result := λ A a, Ok a.
#[global] Instance result_bind : MBind result := λ A B k m,
  match m with
  | Ok a => k a
  | Fail f => Fail f
  end.

#[global] Instance failure_eq_dec : EqDecision failure.
Proof. solve_decision. Defined.

(** ** Data model *)

(** A [BufferIterator] is an offset into the buffer's characters. *)
Abbreviation BufferIterator := nat (only parsing).

(** Modelled from the spec: the color values (section 6), a closed
    enumeration declared outside [filters.cc]; the names are those the
    filters use, with the default for an atom that has none. *)
Inductive Color : Type :=
  | Default | Black | Red | Green | Yellow | Blue | Magenta | Cyan | White.

#[global] Instance Color_eq_dec : EqDecision Color.
Proof. solve_decision. Defined.

(** Modelled from the spec: the attribute bit set ([Attributes] is declared
    in [display_buffer.hh], which is not among the sources).  Only the
    underline bit is used by the filters; it is taken to be bit 0. *)
Abbreviation Attribute := N (only parsing).
Definition Normal : Attribute := 0%N.
Definition Underline : Attribute := 1%N.

(** Modelled from the spec: [DisplayAtom] (section 3), declared in
    [display_buffer.hh], which is not among the sources.  The display
    coordinate that the C++ atom also carries ([coord()]) is layout data
    outside the spec's data model and outside every filter's decisions; it
    is left out. *)
Record DisplayAtom : Type := mkDisplayAtom {
  a_begin : BufferIterator;
  a_end : BufferIterator;
  fg_color : Color;
  bg_color : Color;
  attribute : Attribute;
  content_override : option string;
  splitable : bool
}.

(** Modelled from the spec: the constructor call
    [DisplayAtom(coord, begin, end, fg, bg)] (the constructor is declared
    in [display_buffer.hh]): no attribute, no replacement text; a
    zero-width atom is synthetic and so not splitable (section 3). *)
Definition new_atom (b e : BufferIterator) (fg bg : Color) : DisplayAtom :=
  {| a_begin := b; a_end := e; fg_color := fg; bg_color := bg;
     attribute := Normal; content_override := None;
     splitable := negb (b =? e) |}.

Definition set_range (a : DisplayAtom) (b e : BufferIterator) : DisplayAtom :=
  {| a_begin := b; a_end := e; fg_color := fg_color a; bg_color := bg_color a;
     attribute := attribute a; content_override := content_override a;
     splitable := splitable a |}.

(** [atom.fg_color() = color] *)
Definition set_fg (color : Color) (a : DisplayAtom) : DisplayAtom :=
  {| a_begin := a_begin a; a_end := a_end a; fg_color := color;
     bg_color := bg_color a; attribute := attribute a;
     content_override := content_override a; splitable := splitable a |}.

(** [atom.attribute() |= Attributes::Underline] *)
Definition add_underline (a : DisplayAtom) : DisplayAtom :=
  {| a_begin := a_begin a; a_end := a_end a; fg_color := fg_color a;
     bg_color := bg_color a; attribute := N.lor (attribute a) Underline;
     content_override := content_override a; splitable := splitable a |}.

Definition set_content (text : string) (a : DisplayAtom) : DisplayAtom :=
  {| a_begin := a_begin a; a_end := a_end a; fg_color := fg_color a;
     bg_color := bg_color a; attribute := attribute a;
     content_override := Some text; splitable := splitable a |}.

Definition underlined (a : DisplayAtom) : bool := N.testbit (attribute a) 0.

(** A real atom spans at least one buffer position; a synthetic one is
    zero-width. *)
Definition is_real (a : DisplayAtom) : bool := a_begin a <? a_end a.

(** Does the atom's half-open range contain [pos]? *)
Definition contains (pos : BufferIterator) (a : DisplayAtom) : bool :=
  (a_begin a <=? pos) && (pos <? a_end a).

(** The display buffer is the vector of atoms; an iterator into it is an
    index, [end()] being the length. *)
Abbreviation DisplayBuffer := (list DisplayAtom) (only parsing).
Abbreviation iterator := nat (only parsing).

(** Modelled from the spec: [Selection] (section 3), declared outside
    [filters.cc]: a half-open range of buffer positions. *)
Record Selection : Type := mkSelection {
  sel_begin : BufferIterator;
  sel_end : BufferIterator
}.

(** ** Display buffer primitives *)

(** [*it] and [it->...] on a display buffer iterator. *)
Definition deref (db : DisplayBuffer) (it : iterator) : result DisplayAtom :=
  match db !! it with
  | Some a => Ok a
  | None => Fail PastTheEnd
  end.

(** Modelled from the spec: [DisplayBuffer::split] (section 4.1), defined in
    [display_buffer.cc], which is not among the sources.  The atom is
    replaced by [[begin,pos)] and [[pos,end)], both with the original's
    style, content override and splitable flag; a position that is not
    strictly inside, or an atom that is not splitable, is a precondition
    violation (section 7: fail fast).  The iterator handed back is the
    FIRST of the two atoms: every call site of [filters.cc] reads it so
    (the right part is reached by [++split(...)], and the atom underlined
    in the case drawn as [[###------]] is the one [split] returns). *)
Definition split (db : DisplayBuffer) (atom : iterator) (pos : BufferIterator)
  : result (DisplayBuffer * iterator) :=
  match db !! atom with
  | None => Fail PastTheEnd
  | Some a =>
    if negb ((a_begin a <? pos) && (pos <? a_end a)) then Fail SplitNotInterior
    else if negb (splitable a) then Fail SplitNotSplitable
    else Ok (take atom db
               ++ set_range a (a_begin a) pos
               :: set_range a pos (a_end a)
               :: drop (S atom) db,
             atom)
  end.

(** Modelled from the spec: section 4.1 read to the letter, [split]
    returning the SECOND (right) atom.  Only used to compare with [split]. *)
Definition split_returning_right (db : DisplayBuffer) (atom : iterator)
    (pos : BufferIterator) : result (DisplayBuffer * iterator) :=
  '(db', it) ← split db atom pos; Ok (db', S it).

(** Modelled from the spec: [DisplayBuffer::insert] (section 4.1): the new
    atom goes immediately before [before]; the iterator handed back is the
    new atom (the call site sets its content through it). *)
Definition insert (db : DisplayBuffer) (before : iterator) (a : DisplayAtom)
  : DisplayBuffer * iterator :=
  (take before db ++ a :: drop before db, before).

(** Modelled from the spec: [DisplayBuffer::replace_atom_content]
    (section 4.1): sets the content override of the atom. *)
Definition replace_atom_content (db : DisplayBuffer) (atom : iterator)
    (text : string) : DisplayBuffer :=
  alter (set_content text) atom db.

(** Modelled from the spec: [DisplayBuffer::atom_containing] (section 4.1):
    the first atom at or after [start] whose range contains [where_];
    [end()] when there is none. *)
Definition atom_containing (db : DisplayBuffer) (where_ : BufferIterator)
    (start : iterator) : iterator :=
  match list_find (λ a, contains where_ a = true) (drop start db) with
  | Some (k, _) => start + k
  | None => length db
  end.

(** [display_buffer.begin()->begin()] and [display_buffer.back().end()] *)
Definition display_begin (db : DisplayBuffer) : result BufferIterator :=
  a ← deref db 0; Ok (a_begin a).
Definition display_end (db : DisplayBuffer) : result BufferIterator :=
  match last db with
  | Some a => Ok (a_end a)
  | None => Fail PastTheEnd
  end.

(** ** The buffer *)

(** Modelled from the spec: the text buffer and its coordinates
    ([Buffer], [BufferCoord], [line_and_column_at], [iterator_at]) are an
    external collaborator of [filters.cc] (section 2): positions are
    ordered, can be read and incremented, and translate to and from
    (line, column).  The buffer is its characters, a position an offset. *)
Abbreviation Buffer := (list ascii) (only parsing).

Definition tab_char : ascii := "009"%char.
Definition newline_char : ascii := "010"%char.
Definition is_tab (c : ascii) : bool := Ascii.eqb c tab_char.
Definition is_newline (c : ascii) : bool := Ascii.eqb c newline_char.

(** Modelled from the spec: [*it] on a buffer iterator; reading outside
    the buffer is a failure. *)
Definition read (b : Buffer) (it : BufferIterator) : result ascii :=
  match b !! it with
  | Some c => Ok c
  | None => Fail OutOfBuffer
  end.

(** Modelled from the spec: [BufferCoord], a (line, column) pair, both
    counted from 0. *)
Record BufferCoord : Type := mkCoord { line : nat; column : nat }.

(** Modelled from the spec: the line of [it], the number of newlines
    before it. *)
Fixpoint line_of (b : Buffer) (it : BufferIterator) : nat :=
  match it, b with
  | S i, c :: b' => (if is_newline c then 1 else 0) + line_of b' i
  | _, _ => 0
  end.

(** Modelled from the spec: the offset of the first character of line
    [l]. *)
Fixpoint line_offset (b : Buffer) (l : nat) : BufferIterator :=
  match l, b with
  | S l', c :: b' => S (line_offset b' (if is_newline c then l' else l))
  | _, _ => 0
  end.

(** Modelled from the spec: [Buffer::line_and_column_at], the translation
    of a position to (line, column). *)
Definition line_and_column_at (b : Buffer) (it : BufferIterator) : BufferCoord :=
  {| line := line_of b it; column := it - line_offset b (line_of b it) |}.

(** Modelled from the spec: [Buffer::iterator_at], the translation of
    (line, column) to a position. *)
Definition iterator_at (b : Buffer) (c : BufferCoord) : BufferIterator :=
  line_offset b (line c) + column c.

(** ** [colorize_regex]

    The regular-expression engine is a black box: a [regex] gives, for the
    range it is run over, its matches in order, each as (first, second). *)
Abbreviation regex :=
  (BufferIterator → BufferIterator → list (BufferIterator * BufferIterator))
  (only parsing).

(** The body of the loop over the matches, lines 23 to 36. *)
Definition colorize_match (color : Color) (db : DisplayBuffer)
    (atom_it : iterator) (m : BufferIterator * BufferIterator)
  : result (DisplayBuffer * iterator) :=
  let begin_ := m.1 in
  let end_ := m.2 in
  let begin_atom_it := atom_containing db begin_ atom_it in
  let end_atom_it := atom_containing db end_ atom_it in
  if begin_atom_it =? end_atom_it then
    a ← deref db begin_atom_it;
    '(db1, it1) ← (if negb (a_begin a =? begin_)
                   then '(d, i) ← split db begin_atom_it begin_; Ok (d, S i)
                   else Ok (db, begin_atom_it));
    a1 ← deref db1 it1;
    '(db2, it2) ← (if negb (a_end a1 =? end_)
                   then split db1 it1 end_
                   else Ok (db1, it1));
    _ ← deref db2 it2;
    Ok (alter (set_fg color) it2 db2, it2)
  else Ok (db, begin_atom_it).

Fixpoint colorize_matches (color : Color) (db : DisplayBuffer)
    (atom_it : iterator) (ms : list (BufferIterator * BufferIterator))
  : result DisplayBuffer :=
  match ms with
  | [] => Ok db
  | m :: ms' =>
    '(db', atom_it') ← colorize_match color db atom_it m;
    colorize_matches color db' atom_it' ms'
  end.

Definition colorize_regex (db : DisplayBuffer) (ex : regex) (color : Color)
  : result DisplayBuffer :=
  display_begin ← display_begin db;
  display_end ← display_end db;
  colorize_matches color db 0 (ex display_begin display_end).

(** The seven patterns of [colorize_cplusplus]; what each matches is the
    regex engine's business. *)
Inductive cpp_pattern : Type :=
  | preprocessor | comments | strings | values | builtin_types
  | control_keywords | types_keywords.

Definition colorize_cplusplus (boost : cpp_pattern → regex) (db : DisplayBuffer)
  : result DisplayBuffer :=
  db ← colorize_regex db (boost preprocessor) Magenta;
  db ← colorize_regex db (boost comments) Cyan;
  db ← colorize_regex db (boost strings) Magenta;
  db ← colorize_regex db (boost values) Red;
  db ← colorize_regex db (boost builtin_types) Yellow;
  db ← colorize_regex db (boost control_keywords) Blue;
  colorize_regex db (boost types_keywords) Green.

(** ** [expand_tabulations] *)

Definition tabstop : nat := 8.

(** [std::string(count, ' ')] *)
Fixpoint spaces (count : nat) : string :=
  match count with
  | 0 => EmptyString
  | S n => String " "%char (spaces n)
  end.

(** The column loop, lines 85 to 94: [n] characters are replayed from
    [line_it] on.  [int column] is taken unbounded: it stays below eight
    times the length of the line. *)
Fixpoint replay_column (b : Buffer) (n : nat) (line_it : BufferIterator)
    (column : nat) : result nat :=
  match n with
  | 0 => Ok column
  | S n' =>
    c ← read b line_it;
    if is_newline c then Fail NewlineInLine
    else replay_column b n' (S line_it)
           (if is_tab c then column + (tabstop - column mod tabstop)
            else S column)
  end.

(** The loop runs from the start of the line until it meets [it]; it has
    [it - start] rounds when the start is not after [it], and never meets
    [it] otherwise. *)
Definition column_at (b : Buffer) (it : BufferIterator) : result nat :=
  let pos := line_and_column_at b it in
  let start := iterator_at b {| line := line pos; column := 0 |} in
  if start <=? it then replay_column b (it - start) start 0
  else Fail OutOfFuel.

(** What is done on a tab, lines 77 to 98. *)
Definition expand_tab (b : Buffer) (db : DisplayBuffer) (atom_it : iterator)
    (it : BufferIterator) : result (DisplayBuffer * iterator) :=
  a ← deref db atom_it;
  '(db1, atom_it1) ← (if negb (it =? a_begin a)
                      then '(d, i) ← split db atom_it it; Ok (d, S i)
                      else Ok (db, atom_it));
  a1 ← deref db1 atom_it1;
  '(db2, atom_it2) ← (if negb (it + 1 =? a_end a1)
                      then split db1 atom_it1 (it + 1)
                      else Ok (db1, atom_it1));
  column ← column_at b it;
  let count := tabstop - column mod tabstop in
  _ ← deref db2 atom_it2;
  Ok (replace_atom_content db2 atom_it2 (spaces count), atom_it2).

(** The loop over the positions of the current atom, line 73.  The atom
    under [atom_it] changes when a tab is met; the test against its end is
    made afresh each round. *)
Fixpoint scan_atom (fuel : nat) (b : Buffer) (db : DisplayBuffer)
    (atom_it : iterator) (it : BufferIterator)
  : result (DisplayBuffer * iterator) :=
  match db !! atom_it with
  | None => Fail PastTheEnd
  | Some a =>
    if it =? a_end a then Ok (db, atom_it)
    else
      match fuel with
      | 0 => Fail OutOfFuel
      | S fuel' =>
        match read b it with
        | Fail f => Fail f
        | Ok c =>
          if is_tab c then
            match expand_tab b db atom_it it with
            | Fail f => Fail f
            | Ok (db', atom_it') => scan_atom fuel' b db' atom_it' (S it)
            end
          else scan_atom fuel' b db atom_it (S it)
        end
      end
  end.

(** The loop over the atoms, line 70.  The loop over the positions of an
    atom is given as many rounds as the atom has positions: it needs no
    more, since the end of the atom under the iterator never moves up. *)
Fixpoint expand_from (fuel : nat) (b : Buffer) (db : DisplayBuffer)
    (atom_it : iterator) : result DisplayBuffer :=
  match db !! atom_it with
  | None => Ok db
  | Some a =>
    match fuel with
    | 0 => Fail OutOfFuel
    | S fuel' =>
      match scan_atom (a_end a - a_begin a) b db atom_it (a_begin a) with
      | Fail f => Fail f
      | Ok (db', atom_it') => expand_from fuel' b db' (S atom_it')
      end
    end
  end.

(** The positions spanned by the atoms, summed. *)
Definition width (db : DisplayBuffer) : nat :=
  sum_list (map (λ a, a_end a - a_begin a) db).

(** Each round of the loop over the atoms moves past one atom, and a tab
    adds at most two atoms to those there were: the rounds given here are
    enough ([expand_from_zip] below). *)
Definition expand_tabulations (b : Buffer) (db : DisplayBuffer)
  : result DisplayBuffer :=
  expand_from (length db + 2 * width db) b db 0.

(** ** [show_line_numbers] *)

(** The decimal digits of [n], most significant first.  An [int] has at
    most ten of them. *)
Definition digit_char (d : nat) : ascii := ascii_of_nat (48 + d).
Fixpoint decimal_digits (fuel n : nat) : string :=
  match fuel with
  | 0 => EmptyString
  | S fuel' =>
    if n <? 10 then String (digit_char n) EmptyString
    else String.append (decimal_digits fuel' (n / 10))
           (String (digit_char (n mod 10)) EmptyString)
  end.
Definition decimal (n : nat) : string := decimal_digits 10 n.

(** [snprintf(buffer, size, "%3d ", n)]: the number right-aligned in three
    columns, a space, the whole cut to [size - 1] characters. *)
Definition format_3d (n : nat) : string :=
  String.append (spaces (3 - String.length (decimal n)))
    (String.append (decimal n) (String " "%char EmptyString)).
Definition snprintf_3d (size : nat) (n : nat) : string :=
  substring 0 (size - 1) (format_3d n).

(** Lines 124 to 132: the gutter atom is put before the atom under
    [atom_it] and given the formatted line number. *)
Definition insert_line_number (db : DisplayBuffer) (atom_it : iterator)
    (coord : BufferCoord) : result DisplayBuffer :=
  a ← deref db atom_it;
  let '(db', atom_it') :=
    insert db atom_it (new_atom (a_begin a) (a_begin a) Black White) in
  Ok (replace_atom_content db' atom_it' (snprintf_3d 6 (line coord + 1))).

(** The body of the loop over the lines, lines 113 to 133; [Ok db] on the
    second line of the inner test is the [continue]. *)
Definition number_line (b : Buffer) (db : DisplayBuffer) (coord : BufferCoord)
  : result DisplayBuffer :=
  let line_start := iterator_at b coord in
  let atom_it := atom_containing db line_start 0 in
  match db !! atom_it with
  | None => Ok db
  | Some a =>
    if negb (a_begin a =? line_start) then
      if negb (splitable a) then Ok db
      else
        '(db1, atom_it1) ← split db atom_it line_start;
        insert_line_number db1 (S atom_it1) coord
    else insert_line_number db atom_it coord
  end.

Fixpoint number_lines (n : nat) (b : Buffer) (db : DisplayBuffer)
    (coord : BufferCoord) : result DisplayBuffer :=
  match n with
  | 0 => Ok db
  | S n' =>
    db' ← number_line b db coord;
    number_lines n' b db' {| line := line coord + 1; column := column coord |}
  end.

(** The loop runs while [coord.line <= last_line], that is
    [last_line + 1 - coord.line] times. *)
Definition show_line_numbers (b : Buffer) (db : DisplayBuffer)
  : result DisplayBuffer :=
  first ← display_begin db;
  last ← display_end db;
  let coord := line_and_column_at b first in
  let last_line := line (line_and_column_at b (last - 1)) in
  number_lines (S last_line - line coord) b db coord.

(** ** [SelectionsHighlighter] *)

(** The comparison given to [std::sort], line 165. *)
Definition begin_less (lhs rhs : Selection) : bool :=
  sel_begin lhs <? sel_begin rhs.

(** The order that a sort by this comparison leaves: no selection comes
    after one that begins later, that is, begins never decrease. *)
Definition begins_before (lhs rhs : Selection) : Prop :=
  sel_begin lhs ≤ sel_begin rhs.

#[global] Instance begins_before_dec : RelDecision begins_before.
Proof. intros l r. unfold begins_before. apply _. Defined.

(** The six tests of the sweep, in the order the source makes them, each
    under the picture the source draws for it. *)

(** [[###------]] *)
Definition case_head (atom : DisplayAtom) (sel : Selection) : bool :=
  (sel_begin sel <=? a_begin atom) && (a_begin atom <? sel_end sel)
  && (sel_end sel <? a_end atom).
(** [[---###---]] *)
Definition case_middle (atom : DisplayAtom) (sel : Selection) : bool :=
  (a_begin atom <? sel_begin sel) && (sel_end sel <? a_end atom).
(** [[------###]] *)
Definition case_tail (atom : DisplayAtom) (sel : Selection) : bool :=
  (a_begin atom <? sel_begin sel) && (sel_begin sel <? a_end atom).
(** [[#########]] *)
Definition case_whole (atom : DisplayAtom) (sel : Selection) : bool :=
  (sel_begin sel <=? a_begin atom) && (a_end atom <=? sel_end sel).
(** [[---------]], the selection ends before the atom *)
Definition case_selection_behind (atom : DisplayAtom) (sel : Selection) : bool :=
  sel_end sel <=? a_begin atom.
(** [[---------]], the atom ends before the selection *)
Definition case_atom_behind (atom : DisplayAtom) (sel : Selection) : bool :=
  a_end atom <=? sel_begin sel.

#[global] Arguments case_head : simpl never.
#[global] Arguments case_middle : simpl never.
#[global] Arguments case_tail : simpl never.
#[global] Arguments case_whole : simpl never.
#[global] Arguments case_selection_behind : simpl never.
#[global] Arguments case_atom_behind : simpl never.

Section Sweep.
(** The sweep is written over the [split] it calls, so that the two
    readings of what [split] returns can be compared on it. *)
Variable split_fn :
  DisplayBuffer → iterator → BufferIterator → result (DisplayBuffer * iterator).

(** The while loop, lines 170 to 214; [sels] is what is left of the sorted
    selections from [sel_it] on. *)
Fixpoint sweep_with (fuel : nat) (db : DisplayBuffer) (atom_it : iterator)
    (sels : list Selection) : result DisplayBuffer :=
  match db !! atom_it, sels with
  | Some atom, sel :: sels' =>
    match fuel with
    | 0 => Fail OutOfFuel
    | S fuel' =>
      if case_head atom sel then
        match split_fn db atom_it (sel_end sel) with
        | Fail f => Fail f
        | Ok (db1, it1) =>
          match db1 !! it1 with
          | None => Fail PastTheEnd
          | Some _ => sweep_with fuel' (alter add_underline it1 db1) (S it1) sels'
          end
        end
      else if case_middle atom sel then
        match split_fn db atom_it (sel_begin sel) with
        | Fail f => Fail f
        | Ok (db1, it1) =>
          match split_fn db1 (S it1) (sel_end sel) with
          | Fail f => Fail f
          | Ok (db2, it2) =>
            match db2 !! it2 with
            | None => Fail PastTheEnd
            | Some _ => sweep_with fuel' (alter add_underline it2 db2) (S it2) sels'
            end
          end
        end
      else if case_tail atom sel then
        match split_fn db atom_it (sel_begin sel) with
        | Fail f => Fail f
        | Ok (db1, it1) =>
          match db1 !! (S it1) with
          | None => Fail PastTheEnd
          | Some _ =>
            sweep_with fuel' (alter add_underline (S it1) db1) (S (S it1)) sels
          end
        end
      else if case_whole atom sel then
        sweep_with fuel' (alter add_underline atom_it db) (S atom_it) sels
      else if case_selection_behind atom sel then
        sweep_with fuel' db atom_it sels'
      else if case_atom_behind atom sel then
        sweep_with fuel' db (S atom_it) sels
      else Fail NoCase
    end
  | _, _ => Ok db
  end.
End Sweep.

Definition sweep := sweep_with split.

(** Each round moves past an atom or a selection and the atoms ahead never
    grow in number, so this many rounds are enough. *)
Definition highlight_sorted (db : DisplayBuffer) (sorted_selections : list Selection)
  : result DisplayBuffer :=
  sweep (length db + length sorted_selections) db 0 sorted_selections.

(** [std::sort(first, last, comp)].  The standard fixes its outcome up to
    the order of the elements of which neither compares less than the
    other.  The order taken here is that of an insertion sort, which is
    what the library runs on a short range: each element in turn is moved
    towards the front past the elements it compares less than, so that
    elements that compare equal stay in the order they came. *)
Fixpoint linear_insert {A : Type} (comp : A → A → bool) (val : A)
    (sorted : list A) : list A :=
  match sorted with
  | [] => [val]
  | x :: rest =>
    if comp val x then val :: x :: rest else x :: linear_insert comp val rest
  end.

Definition std_sort {A : Type} (comp : A → A → bool) (l : list A) : list A :=
  foldl (λ sorted val, linear_insert comp val sorted) [] l.

(** Lines 162 to 214: the selections are sorted by [begin] and swept.
    Selections with equal [begin] may come out of [std::sort] in any
    order; what is shown of the highlighter is shown of [highlight_sorted]
    over every order that [std::sort] may leave ([sorted_by_begin]). *)
Definition SelectionsHighlighter (selections : list Selection) (db : DisplayBuffer)
  : result DisplayBuffer :=
  highlight_sorted db (std_sort begin_less selections).

(** ** The partition invariants

    [covers db lo hi]: the atoms of [db], in order, tile [[lo,hi)]: each one
    begins where the one before ends (I1, coverage without gaps), none ends
    before it begins, so begins never decrease (I2) and two real atoms
    share no position (I3); a zero-width atom begins where the atom after
    it begins. *)
Fixpoint covers (db : DisplayBuffer) (lo hi : BufferIterator) : Prop :=
  match db with
  | [] => lo = hi
  | a :: rest => a_begin a = lo ∧ lo ≤ a_end a ∧ covers rest (a_end a) hi
  end.

Definition partition_inv (db : DisplayBuffer) : Prop :=
  ∃ lo hi, covers db lo hi.

Definition real_atoms (db : DisplayBuffer) : list DisplayAtom :=
  filter (λ a, is_real a = true) db.

(** [p] lies in some atom. *)
Definition covered (db : DisplayBuffer) (p : BufferIterator) : Prop :=
  ∃ a, a ∈ db ∧ contains p a = true.

Definition disjoint (a b : DisplayAtom) : Prop :=
  ∀ p, ¬ (contains p a = true ∧ contains p b = true).

(** The real atoms come in strictly increasing order of [begin]. *)
Definition ordered_by_begin (db : DisplayBuffer) : Prop :=
  StronglySorted (λ a b, a_begin a < a_begin b) (real_atoms db).

(** No two real atoms share a position. *)
Definition non_overlapping (db : DisplayBuffer) : Prop :=
  StronglySorted disjoint (real_atoms db).

(** Every real atom may be split (the data model has [splitable] false for
    the synthetic, zero-width atoms). *)
Definition real_splitable (db : DisplayBuffer) : Prop :=
  ∀ a, a ∈ db → is_real a = true → splitable a = true.

(** One use of a display buffer primitive that changes the atom sequence:
    a split, a zero-width atom put before an atom at that atom's begin, or
    an atom changed in place with its range kept. *)
Inductive edit : DisplayBuffer → DisplayBuffer → Prop :=
  | edit_split db i pos db' it :
      split db i pos = Ok (db', it) → edit db db'
  | edit_insert db i a g :
      db !! i = Some a → a_begin g = a_begin a → a_end g = a_begin a →
      edit db (insert db i g).1
  | edit_alter db i (f : DisplayAtom → DisplayAtom) :
      (∀ a, a_begin (f a) = a_begin a ∧ a_end (f a) = a_end a) →
      edit db (alter f i db).

Definition edits : DisplayBuffer → DisplayBuffer → Prop := rtc edit.

(** A selection that spans at least one position. *)
Definition non_empty (sel : Selection) : Prop := sel_begin sel < sel_end sel.

(** What [std::sort] may hand to the sweep: the selections, rearranged so
    that begins never decrease. *)
Definition sorted_by_begin (selections sorted : list Selection) : Prop :=
  sorted ≡ₚ selections ∧ StronglySorted begins_before sorted.

(** [p] lies in the selection. *)
Definition selected (p : BufferIterator) (sel : Selection) : Prop :=
  sel_begin sel ≤ p < sel_end sel.

(** [p] is the begin or the end of one of the selections. *)
Definition selection_boundary (selections : list Selection) (p : BufferIterator)
  : Prop :=
  ∃ sel, sel ∈ selections ∧ (p = sel_begin sel ∨ p = sel_end sel).

(** [a'] is what the highlighter may make of (a part of) [a]: a stretch of
    [a] cut at the ends of [a] or at selection boundaries, with the colors,
    content and splitable flag of [a], and with the underline either as [a]
    had it or added because the stretch lies inside a selection. *)
Definition piece_of (selections : list Selection) (a' a : DisplayAtom) : Prop :=
  a_begin a ≤ a_begin a' ∧ a_end a' ≤ a_end a
  ∧ (a_begin a' = a_begin a ∨ selection_boundary selections (a_begin a'))
  ∧ (a_end a' = a_end a ∨ selection_boundary selections (a_end a'))
  ∧ fg_color a' = fg_color a ∧ bg_color a' = bg_color a
  ∧ content_override a' = content_override a ∧ splitable a' = splitable a
  ∧ (attribute a' = attribute a
     ∨ (attribute a' = N.lor (attribute a) Underline
        ∧ ∃ sel, sel ∈ selections
                 ∧ sel_begin sel ≤ a_begin a' ∧ a_end a' ≤ sel_end sel)).

(** What the sweep has made of the atoms [todo] that tile [[lo,hi)], with
    [cur] the selections still to come and [all] every selection: the
    outcome [todo'] tiles the same range, a position of the range that lies
    in a selection to come lies in an underlined atom, and every atom of the
    outcome is a piece of an atom of [todo]. *)
Definition sweep_post (all : list Selection) (todo : DisplayBuffer)
    (cur : list Selection) (lo hi : BufferIterator) (todo' : DisplayBuffer)
  : Prop :=
  covers todo' lo hi
  ∧ (∀ p sel, sel ∈ cur → selected p sel → lo ≤ p < hi →
       ∃ a', a' ∈ todo' ∧ contains p a' = true ∧ underlined a' = true)
  ∧ (∀ a', a' ∈ todo' → ∃ a, a ∈ todo ∧ piece_of all a' a).

(** The style of an atom: all of it but the range. *)
Definition style (a : DisplayAtom)
  : Color * Color * N * option string * bool :=
  (fg_color a, bg_color a, attribute a, content_override a, splitable a).

(** One completed run of one of the filters of [filters.cc], taking the
    display buffer [db] to [db']: the regex colorizer (alone, or as chained
    by [colorize_cplusplus]), the tab expander, the line-number gutter, the
    selection highlighter (over any order of the selections). *)
Inductive filter_run (db db' : DisplayBuffer) : Prop :=
  | run_colorize_regex (ex : regex) (color : Color) :
      colorize_regex db ex color = Ok db' → filter_run db db'
  | run_colorize_cplusplus (boost : cpp_pattern → regex) :
      colorize_cplusplus boost db = Ok db' → filter_run db db'
  | run_expand_tabulations (b : Buffer) :
      expand_tabulations b db = Ok db' → filter_run db db'
  | run_show_line_numbers (b : Buffer) :
      show_line_numbers b db = Ok db' → filter_run db db'
  | run_highlight_sorted (sorted : list Selection) :
      highlight_sorted db sorted = Ok db' → filter_run db db'
  | run_SelectionsHighlighter (selections : list Selection) :
      SelectionsHighlighter selections db = Ok db' → filter_run db db'.

(** The gutter atom that [show_line_numbers] makes at [pos] for the line
    numbered [n] (counting from 1): lines 124 to 132. *)
Definition gutter_atom (pos : BufferIterator) (n : nat) : DisplayAtom :=
  set_content (snprintf_3d 6 n) (new_atom pos pos Black White).

(** The specification's account of the visual column (section 4.3): the
    raw characters from the start of the line of [p] up to [p] are
    replayed, a plain character advancing the column by one, a tab taking
    it to the next multiple of the tab stop. *)
Definition next_tab_stop (col : nat) : nat := (col / 8 + 1) * 8.

Fixpoint visual_column_of (chars : list ascii) (col : nat) : nat :=
  match chars with
  | [] => col
  | c :: chars' =>
    visual_column_of chars' (if is_tab c then next_tab_stop col else col + 1)
  end.

(** What follows the last newline of [chars]. *)
Fixpoint after_last_newline (chars : list ascii) : list ascii :=
  match chars with
  | [] => []
  | c :: chars' =>
    if existsb is_newline chars' then after_last_newline chars'
    else if is_newline c then chars' else chars
  end.

Definition visual_column (b : Buffer) (p : BufferIterator) : nat :=
  visual_column_of (after_last_newline (take p b)) 0.

(** The atom made for the tab at [p] out of the atom [a]. *)
Definition tab_atom (b : Buffer) (a : DisplayAtom) (p : BufferIterator)
  : DisplayAtom :=
  set_content (spaces (8 - visual_column b p mod 8)) (set_range a p (p + 1)).

(** What is left of the atom [a] before and after the tab at [p]: nothing
    where the tab is at that end of the atom. *)
Definition before_tab (a : DisplayAtom) (p : BufferIterator) : list DisplayAtom :=
  if p =? a_begin a then [] else [set_range a (a_begin a) p].
Definition after_tab (a : DisplayAtom) (p : BufferIterator) : list DisplayAtom :=
  if p + 1 =? a_end a then [] else [set_range a (p + 1) (a_end a)].

(** No tab at the positions from [from] up to [to]. *)
Definition no_tab (b : Buffer) (from to : BufferIterator) : Prop :=
  ∀ p, from ≤ p < to → b !! p ≠ Some tab_char.

(** What the regex engine is relied on for, over the range [[lo,hi)]: every
    match lies in the range and is not empty, and the matches come in
    order and do not overlap. *)
Definition matches_in_order (lo hi : BufferIterator)
    (ms : list (BufferIterator * BufferIterator)) : Prop :=
  Forall (λ m, lo ≤ m.1 ∧ m.1 < m.2 ∧ m.2 ≤ hi) ms
  ∧ StronglySorted (λ m m', m.2 ≤ m'.1) ms.

(** The atoms before the iterator [hint] all end at or before [bound]: the
    hint is not past the atom of any position from [bound] on. *)
Definition hint_behind (db : DisplayBuffer) (hint : iterator)
    (bound : BufferIterator) : Prop :=
  ∀ i a, db !! i = Some a → i < hint → a_end a ≤ bound.

(** [a'] is what the colorizer, run with [color] over the matches [ms], may
    make of (a part of) [a]: a stretch of [a] with the background,
    attributes, content and splitable flag of [a], its foreground either
    that of [a] or [color], the latter only for a stretch inside a match. *)
Definition recolored (color : Color)
    (ms : list (BufferIterator * BufferIterator)) (a' a : DisplayAtom) : Prop :=
  a_begin a ≤ a_begin a' ∧ a_end a' ≤ a_end a
  ∧ bg_color a' = bg_color a ∧ attribute a' = attribute a
  ∧ content_override a' = content_override a ∧ splitable a' = splitable a
  ∧ (fg_color a' = fg_color a
     ∨ (fg_color a' = color
        ∧ ∃ m, m ∈ ms ∧ m.1 ≤ a_begin a' ∧ a_end a' ≤ m.2)).

(** The match [m] is settled in [db]: no atom that holds the begin of the
    match goes beyond its end, so that the test of line 27 fails for it. *)
Definition settled (db : DisplayBuffer) (m : BufferIterator * BufferIterator)
  : Prop :=
  ∀ a, a ∈ db → contains m.1 a = true → a_end a ≤ m.2.

(** The colors that [colorize_cplusplus] hands to [colorize_regex]. *)
Definition cpp_colors : list Color := [Magenta; Cyan; Red; Yellow; Blue; Green].

(** [a'] is a stretch of [a] that differs from it in the foreground at
    most, and then has one of [colors]. *)
Definition refined (colors : list Color) (a' a : DisplayAtom) : Prop :=
  a_begin a ≤ a_begin a' ∧ a_end a' ≤ a_end a
  ∧ bg_color a' = bg_color a ∧ attribute a' = attribute a
  ∧ content_override a' = content_override a ∧ splitable a' = splitable a
  ∧ (fg_color a' = fg_color a ∨ fg_color a' ∈ colors).

(** [a'] is what the tab expander may make of (a part of) [a]: the atom of
    a tab of [a], or a stretch of [a] without a tab, left as it was. *)
Definition expanded_from (b : Buffer) (a' a : DisplayAtom) : Prop :=
  (∃ p, contains p a = true ∧ b !! p = Some tab_char ∧ a' = tab_atom b a p)
  ∨ (∃ from to, a_begin a ≤ from ∧ to ≤ a_end a
                ∧ a' = set_range a from to ∧ no_tab b from to).

(** The atom [a] needs nothing more of the tab expander: it holds no tab,
    or it is the atom of one tab and shows the spaces of that tab. *)
Definition tab_done (b : Buffer) (a : DisplayAtom) : Prop :=
  no_tab b (a_begin a) (a_end a)
  ∨ (a_end a = a_begin a + 1 ∧ b !! a_begin a = Some tab_char
     ∧ content_override a
       = Some (spaces (8 - visual_column b (a_begin a) mod 8))).

(** [a'] is the atom [a], or a stretch of at least one position cut out of
    it, with its style. *)
Definition cut_of (a' a : DisplayAtom) : Prop :=
  a' = a
  ∨ ∃ from to, a_begin a ≤ from ∧ from < to ∧ to ≤ a_end a
               ∧ a' = set_range a from to.

(** The position that the gutter loop looks for on line [l], lines 111 to
    113: only the line of [coord] is advanced, its column stays what it
    was for the begin of the display buffer. *)
Definition gutter_position (b : Buffer) (first : BufferIterator) (l : nat)
  : BufferIterator :=
  iterator_at b {| line := l; column := column (line_and_column_at b first) |}.

(** The selection [sel], its begin not after its end, lies outside the
    range [[lo,hi)]: it ends at or before [lo], or begins at or after
    [hi]. *)
Definition misses (lo hi : BufferIterator) (sel : Selection) : Prop :=
  sel_begin sel ≤ sel_end sel ∧ (sel_end sel ≤ lo ∨ hi ≤ sel_begin sel).

(** What the first selection to come still allows of new atoms, out of
    its two: one less when the atoms ahead begin at or after its begin. *)
Definition begun (cur : list Selection) (lo : BufferIterator) : nat :=
  match cur with
  | sel :: _ => if sel_begin sel <=? lo then 1 else 0
  | [] => 0
  end.

(** ** Factories and registration *)

(** Modelled from the spec: the window that a factory is called with; the
    filters of [filters.cc] use its selections only
    ([m_window.selections()]). *)
Record Window : Type := mkWindow { selections : list Selection }.

(** Modelled from the spec: the parameters a factory is called with, which
    no factory of [filters.cc] reads. *)
Abbreviation FilterParameters := (list string) (only parsing).

(** Modelled from the spec: a filter function takes the display buffer and
    changes it in place (section 6); here it hands back the changed display
    buffer, or the failure it stopped on.  [FilterAndId] is the pair of an
    id and a filter function, a factory makes one for a window. *)
Abbreviation FilterFunc := (DisplayBuffer → result DisplayBuffer) (only parsing).
Abbreviation FilterAndId := (string * FilterFunc)%type (only parsing).
Abbreviation FilterFactory :=
  (Window → FilterParameters → FilterAndId) (only parsing).

(** [SimpleFilterFactory<filter_func>(id)], lines 137 to 150: the factory
    hands back its id and the function, whatever the window and the
    parameters. *)
Definition SimpleFilterFactory (filter_func : FilterFunc) (m_id : string)
  : FilterFactory :=
  λ window params, (m_id, filter_func).

(** [SelectionsHighlighter::create], lines 217 to 222.  The highlighter
    keeps a reference to the window and reads the selections when it is
    run: [window] stands for the window as it is then. *)
Definition SelectionsHighlighter_create : FilterFactory :=
  λ window params,
    ("highlight_selections"%string, SelectionsHighlighter (selections window)).

(** Modelled from the spec: the registry is a table from names to
    factories (section 6), [register_factory] adds an entry to it. *)
Definition register_factory (registry : list (string * FilterFactory))
    (name : string) (factory : FilterFactory)
  : list (string * FilterFactory) :=
  registry ++ [(name, factory)].

Section Registration.
(** What the filter functions reach without being handed it: the buffer
    that the iterators of the display buffer point into, and the compiled
    patterns of [colorize_cplusplus]. *)
Variable b : Buffer.
Variable boost : cpp_pattern → regex.

(** [register_filters], lines 228 to 236. *)
Definition register_filters (registry : list (string * FilterFactory))
  : list (string * FilterFactory) :=
  let registry :=
    register_factory registry "highlight_selections" SelectionsHighlighter_create in
  let registry :=
    register_factory registry "expand_tabs"
      (SimpleFilterFactory (expand_tabulations b) "expand_tabs") in
  let registry :=
    register_factory registry "number_lines"
      (SimpleFilterFactory (show_line_numbers b) "number_lines") in
  register_factory registry "hlcpp"
    (SimpleFilterFactory (colorize_cplusplus boost) "hlcpp").
End Registration.

(** One run of the filter that [factory] makes for [window].  The filter
    function is applied to the display buffer.  The highlighter sorts the
    selections of the window when it is run, and [std::sort] may leave
    those with equal begin in any order: a run of it is a run of the sweep
    over any of the orders that [std::sort] may leave. *)
Definition filter_runs (factory : FilterFactory) (window : Window)
    (params : FilterParameters) (db db' : DisplayBuffer) : Prop :=
  (factory window params).2 db = Ok db'
  ∨ (factory = SelectionsHighlighter_create
     ∧ ∃ sorted, sorted_by_begin (selections window) sorted
                 ∧ highlight_sorted db sorted = Ok db').

(** Modelled from the spec: the pipeline (sections 2 and 6), filters made
    by factories of the registry run in sequence on the display buffer,
    each on what the one before has left. *)
Inductive pipeline_run (registry : list (string * FilterFactory))
  : DisplayBuffer → DisplayBuffer → Prop :=
  | pipeline_done db : pipeline_run registry db db
  | pipeline_step name factory window params db db1 db' :
      (name, factory) ∈ registry →
      filter_runs factory window params db db1 →
      pipeline_run registry db1 db' →
      pipeline_run registry db db'.

(** ** The iterator that [split] hands back

    Section 4.1 has [split] hand back the iterator of the right part, the
    call sites of [filters.cc] go on as if it were that of the left part.
    To tell the two apart the call sites are read over any [split_fn] that
    does to the atoms what [split] does and stops where [split] stops, and
    that hands back the iterator of the left or of the right part. *)
Definition splits_like
    (split_fn : DisplayBuffer → iterator → BufferIterator
                → result (DisplayBuffer * iterator)) : Prop :=
  ∀ db atom pos,
    match split db atom pos with
    | Ok (db', it) =>
      ∃ it', split_fn db atom pos = Ok (db', it') ∧ (it' = it ∨ it' = S it)
    | Fail f => split_fn db atom pos = Fail f
    end.

(** The call hands back the iterator it was given, which then designates
    the left part. *)
Definition returns_left
    (split_fn : DisplayBuffer → iterator → BufferIterator
                → result (DisplayBuffer * iterator))
    (db : DisplayBuffer) (atom : iterator) (pos : BufferIterator) : Prop :=
  ∃ db', split_fn db atom pos = Ok (db', atom).

Section Colorize.
(** The body of the loop over the matches, lines 23 to 36, written over
    the [split] it calls, as the sweep is; [colorize_match] is this over
    [split]. *)
Variable split_fn :
  DisplayBuffer → iterator → BufferIterator → result (DisplayBuffer * iterator).

Definition colorize_match_with (color : Color) (db : DisplayBuffer)
    (atom_it : iterator) (m : BufferIterator * BufferIterator)
  : result (DisplayBuffer * iterator) :=
  let begin_ := m.1 in
  let end_ := m.2 in
  let begin_atom_it := atom_containing db begin_ atom_it in
  let end_atom_it := atom_containing db end_ atom_it in
  if begin_atom_it =? end_atom_it then
    a ← deref db begin_atom_it;
    '(db1, it1) ← (if negb (a_begin a =? begin_)
                   then '(d, i) ← split_fn db begin_atom_it begin_; Ok (d, S i)
                   else Ok (db, begin_atom_it));
    a1 ← deref db1 it1;
    '(db2, it2) ← (if negb (a_end a1 =? end_)
                   then split_fn db1 it1 end_
                   else Ok (db1, it1));
    _ ← deref db2 it2;
    Ok (alter (set_fg color) it2 db2, it2)
  else Ok (db, begin_atom_it).
End Colorize.

(** * Lemmas *)

Section primitives.
Implicit Types (db done rest : DisplayBuffer) (a : DisplayAtom).

Lemma contains_spec pos a :
  contains pos a = true ↔ a_begin a ≤ pos < a_end a.
Proof.
  unfold contains. rewrite andb_true_iff, Nat.leb_le, Nat.ltb_lt. tauto.
Qed.

Lemma is_real_spec a : is_real a = true ↔ a_begin a < a_end a.
Proof. unfold is_real. apply Nat.ltb_lt. Qed.

Lemma lookup_zip done a rest : (done ++ a :: rest) !! length done = Some a.
Proof. by apply list_lookup_middle. Qed.

Lemma take_zip done rest : take (length done) (done ++ rest) = done.
Proof. by rewrite take_app_length. Qed.

Lemma drop_zip done a rest : drop (S (length done)) (done ++ a :: rest) = rest.
Proof.
  rewrite (cons_middle a done rest), app_assoc.
  replace (S (length done)) with (length (done ++ [a])).
  - by rewrite drop_app_length.
  - rewrite length_app. simpl. lia.
Qed.

Lemma alter_zip (f : DisplayAtom → DisplayAtom) done a rest :
  alter f (length done) (done ++ a :: rest) = done ++ f a :: rest.
Proof.
  induction done as [|x done IH]; simpl; [done|]. by rewrite <- IH.
Qed.

Lemma length_snoc done a : length (done ++ [a]) = S (length done).
Proof. rewrite length_app. simpl. lia. Qed.

Lemma deref_zip done a rest : deref (done ++ a :: rest) (length done) = Ok a.
Proof. unfold deref. by rewrite lookup_zip. Qed.

Lemma deref_Ok db i a : deref db i = Ok a ↔ db !! i = Some a.
Proof. unfold deref. destruct (db !! i); naive_solver. Qed.

(** [split] on an atom it may split. *)
Lemma split_ok db i a pos :
  db !! i = Some a → a_begin a < pos < a_end a → splitable a = true →
  split db i pos
  = Ok (take i db ++ set_range a (a_begin a) pos
          :: set_range a pos (a_end a) :: drop (S i) db, i).
Proof.
  intros Hi [Hb He] Hs. unfold split. rewrite Hi, Hs.
  apply Nat.ltb_lt in Hb, He. by rewrite Hb, He.
Qed.

Lemma split_zip done a rest pos :
  a_begin a < pos < a_end a → splitable a = true →
  split (done ++ a :: rest) (length done) pos
  = Ok (done ++ set_range a (a_begin a) pos
          :: set_range a pos (a_end a) :: rest, length done).
Proof.
  intros Hp Hs. rewrite (split_ok _ _ a) by (done || apply lookup_zip).
  by rewrite take_zip, drop_zip.
Qed.

(** What a successful [split] has done. *)
Lemma split_inv db i pos db' it :
  split db i pos = Ok (db', it) →
  ∃ a, db !! i = Some a ∧ a_begin a < pos < a_end a ∧ splitable a = true
       ∧ it = i
       ∧ db' = take i db ++ set_range a (a_begin a) pos
                 :: set_range a pos (a_end a) :: drop (S i) db.
Proof.
  unfold split. destruct (db !! i) as [a|] eqn:Hi; [|done].
  destruct (a_begin a <? pos) eqn:Hb; [|done].
  destruct (pos <? a_end a) eqn:He; [|done].
  destruct (splitable a) eqn:Hs; [|done]. simpl.
  intros [= <- <-]. exists a. apply Nat.ltb_lt in Hb, He. naive_solver.
Qed.

Lemma covers_app db1 db2 lo hi :
  covers (db1 ++ db2) lo hi ↔ ∃ mid, covers db1 lo mid ∧ covers db2 mid hi.
Proof.
  revert lo. induction db1 as [|a db1 IH]; intros lo; simpl.
  - split; [intros H; by exists lo|by intros (mid & -> & H)].
  - rewrite IH. split.
    + intros (Hb & Hle & mid & H1 & H2). by exists mid.
    + intros (mid & (Hb & Hle & H1) & H2). repeat split; [done..|by exists mid].
Qed.

Lemma covers_le db lo hi : covers db lo hi → lo ≤ hi.
Proof.
  revert lo. induction db as [|a db IH]; simpl; intros lo.
  - lia.
  - intros (? & ? & H). apply IH in H. lia.
Qed.

Lemma covers_within db lo hi a :
  covers db lo hi → a ∈ db → lo ≤ a_begin a ∧ a_end a ≤ hi.
Proof.
  revert lo. induction db as [|x db IH]; simpl; intros lo Hc Hin.
  - by apply elem_of_nil in Hin.
  - destruct Hc as (Hb & Hle & Hc). apply elem_of_cons in Hin as [->|Hin].
    + apply covers_le in Hc. lia.
    + destruct (IH _ Hc Hin). lia.
Qed.

(** Under the invariant the covered positions are those of [[lo,hi)]. *)
Lemma covers_covered db lo hi p :
  covers db lo hi → (covered db p ↔ lo ≤ p < hi).
Proof.
  revert lo. induction db as [|x db IH]; simpl; intros lo Hc.
  - split; [|lia]. intros (a & Hin & _). by apply elem_of_nil in Hin.
  - destruct Hc as (Hb & Hle & Hc). specialize (IH _ Hc).
    pose proof (covers_le _ _ _ Hc). split.
    + intros (a & Hin & Hp). apply elem_of_cons in Hin as [->|Hin].
      * apply contains_spec in Hp. lia.
      * assert (covered db p) as Hcov by (exists a; done).
        apply IH in Hcov. lia.
    + intros Hp. destruct (decide (p < a_end x)).
      * exists x. split; [left|]. apply contains_spec. lia.
      * destruct IH as [_ IH]. destruct IH as (a & Hin & Ha); [lia|].
        exists a. split; [by right|done].
Qed.

Lemma covers_ordered db lo hi : covers db lo hi → ordered_by_begin db.
Proof.
  unfold ordered_by_begin, real_atoms.
  revert lo. induction db as [|x db IH]; intros lo Hc.
  - constructor.
  - destruct Hc as (Hb & Hle & Hc). rewrite filter_cons.
    destruct (decide (is_real x = true)) as [Hr|]; [|by eapply IH].
    constructor; [by eapply IH|].
    apply Forall_forall. intros b Hin. apply list_elem_of_filter in Hin as [_ Hin].
    apply is_real_spec in Hr. destruct (covers_within _ _ _ _ Hc Hin). lia.
Qed.

Lemma covers_non_overlapping db lo hi : covers db lo hi → non_overlapping db.
Proof.
  unfold non_overlapping, real_atoms.
  revert lo. induction db as [|x db IH]; intros lo Hc.
  - constructor.
  - destruct Hc as (Hb & Hle & Hc). rewrite filter_cons.
    destruct (decide (is_real x = true)) as [Hr|]; [|by eapply IH].
    constructor; [by eapply IH|].
    apply Forall_forall. intros b Hin. apply list_elem_of_filter in Hin as [_ Hin].
    destruct (covers_within _ _ _ _ Hc Hin). intros p [H1 H2].
    apply contains_spec in H1, H2. lia.
Qed.
End primitives.

Lemma bind_Ok {A B : Type} (m : result A) (k : A → result B) (r : B) :
  m ≫= k = Ok r ↔ ∃ a, m = Ok a ∧ k a = Ok r.
Proof.
  destruct m as [a|f]; simpl; split.
  - intros H. by exists a.
  - by intros (a' & [= <-] & H).
  - done.
  - by intros (a' & [=] & _).
Qed.

(** Takes apart the hypotheses that say a sequence of steps went through. *)
Ltac ok_inv :=
  repeat match goal with
  | H : _ ≫= _ = Ok _ |- _ =>
      apply bind_Ok in H; destruct H as (? & ? & H)
  | H : (let '(_, _) := ?p in _) = Ok _ |- _ => destruct p; simpl in H
  | H : Ok _ = Ok _ |- _ => injection H as H; subst
  | H : Fail _ = Ok _ |- _ => discriminate H
  | H : (_, _) = (_, _) |- _ => injection H as H; subst
  end.

Section edits.
Implicit Types (db : DisplayBuffer) (a : DisplayAtom).

Lemma covers_alter (f : DisplayAtom → DisplayAtom) db i lo hi :
  (∀ a, a_begin (f a) = a_begin a ∧ a_end (f a) = a_end a) →
  covers db lo hi → covers (alter f i db) lo hi.
Proof.
  intros Hf. revert i lo. induction db as [|x db IH]; intros i lo; [done|].
  destruct (Hf x) as [Hb He].
  destruct i as [|i]; simpl; rewrite ?Hb, ?He; [done|].
  intros (? & ? & ?). eauto.
Qed.

Lemma covers_edit db db' lo hi : edit db db' → covers db lo hi → covers db' lo hi.
Proof.
  intros [d i pos d' it Hs|d i a g Hi Hb He|d i f Hf] Hc.
  - apply split_inv in Hs as (a & Hi & Hp & _ & _ & ->).
    rewrite <- (take_drop_middle _ _ _ Hi) in Hc.
    apply covers_app in Hc as (mid & H1 & Hb & Hle & H2).
    apply covers_app. exists mid. split; [done|]. simpl. repeat split; (done || lia).
  - simpl. rewrite <- (take_drop i d) in Hc at 1.
    apply covers_app in Hc as (mid & H1 & H2).
    apply covers_app. exists mid. split; [done|].
    rewrite (drop_S _ _ _ Hi) in *. destruct H2 as (? & ? & ?).
    simpl. repeat split; (done || lia).
  - by apply covers_alter.
Qed.

Lemma covers_edits db db' lo hi : edits db db' → covers db lo hi → covers db' lo hi.
Proof. induction 1; eauto using covers_edit. Qed.

Lemma edits_split db i pos db' it : split db i pos = Ok (db', it) → edits db db'.
Proof. intros H. apply rtc_once. by eapply edit_split. Qed.

Lemma edits_alter (f : DisplayAtom → DisplayAtom) db i :
  (∀ a, a_begin (f a) = a_begin a ∧ a_end (f a) = a_end a) →
  edits db (alter f i db).
Proof. intros H. apply rtc_once. by apply edit_alter. Qed.

Lemma edits_fg color db i : edits db (alter (set_fg color) i db).
Proof. by apply edits_alter. Qed.

Lemma edits_underline db i : edits db (alter add_underline i db).
Proof. by apply edits_alter. Qed.

Lemma edits_content text db i : edits db (replace_atom_content db i text).
Proof. by apply edits_alter. Qed.

Lemma edits_refl db : edits db db.
Proof. apply rtc_refl. Qed.

Lemma edits_trans db1 db2 db3 : edits db1 db2 → edits db2 db3 → edits db1 db3.
Proof. apply rtc_trans. Qed.

Ltac edits_steps :=
  first
    [ apply edits_refl
    | by (eapply edits_split; eassumption)
    | eapply edits_trans; [|apply edits_underline]; edits_steps
    | eapply edits_trans; [eapply edits_split; eassumption|]; edits_steps ].

(** *** Each filter acts through the primitives only *)

Lemma maybe_split_edits (c : bool) db i j pos db' it :
  (if c then split db i pos else Ok (db, j)) = Ok (db', it) → edits db db'.
Proof.
  destruct c; [apply edits_split|]. intros [= <- <-]. apply edits_refl.
Qed.

Lemma maybe_split_next_edits (c : bool) db i j pos db' it :
  (if c then '(d, k) ← split db i pos; Ok (d, S k) else Ok (db, j))
  = Ok (db', it) → edits db db'.
Proof.
  destruct c; intros Hrun; ok_inv; [by eapply edits_split|apply edits_refl].
Qed.

Lemma colorize_match_edits color db atom_it m db' it' :
  colorize_match color db atom_it m = Ok (db', it') → edits db db'.
Proof.
  unfold colorize_match. case_match; [|intros [= <- <-]; apply edits_refl].
  intros Hrun. ok_inv.
  eapply edits_trans; [eapply maybe_split_next_edits; eassumption|].
  eapply edits_trans; [eapply maybe_split_edits; eassumption|].
  apply edits_fg.
Qed.

Lemma colorize_matches_edits color ms db atom_it db' :
  colorize_matches color db atom_it ms = Ok db' → edits db db'.
Proof.
  revert db atom_it. induction ms as [|m ms IH]; simpl; intros db atom_it Hrun.
  - ok_inv. apply edits_refl.
  - ok_inv. eauto using edits_trans, colorize_match_edits.
Qed.

Lemma colorize_regex_edits db ex color db' :
  colorize_regex db ex color = Ok db' → edits db db'.
Proof. unfold colorize_regex. intros Hrun. ok_inv. by eapply colorize_matches_edits. Qed.

Lemma colorize_cplusplus_edits boost db db' :
  colorize_cplusplus boost db = Ok db' → edits db db'.
Proof.
  unfold colorize_cplusplus. intros Hrun. ok_inv.
  do 6 (eapply edits_trans; [by eapply colorize_regex_edits|]).
  by eapply colorize_regex_edits.
Qed.

Lemma expand_tab_edits b db atom_it it db' it' :
  expand_tab b db atom_it it = Ok (db', it') → edits db db'.
Proof.
  unfold expand_tab. intros Hrun. ok_inv.
  eapply edits_trans; [eapply maybe_split_next_edits; eassumption|].
  eapply edits_trans; [eapply maybe_split_edits; eassumption|].
  apply edits_content.
Qed.

Lemma scan_atom_edits b fuel db atom_it it db' it' :
  scan_atom fuel b db atom_it it = Ok (db', it') → edits db db'.
Proof.
  revert db atom_it it.
  induction fuel as [|fuel IH]; intros db atom_it it; simpl;
    repeat case_match; try done; intros Hrun; ok_inv;
    eauto using edits_refl, edits_trans, expand_tab_edits.
Qed.

Lemma expand_from_edits b fuel db atom_it db' :
  expand_from fuel b db atom_it = Ok db' → edits db db'.
Proof.
  revert db atom_it.
  induction fuel as [|fuel IH]; intros db atom_it; simpl;
    repeat case_match; try done; intros Hrun; ok_inv;
    eauto using edits_refl, edits_trans, scan_atom_edits.
Qed.

Lemma expand_tabulations_edits b db db' :
  expand_tabulations b db = Ok db' → edits db db'.
Proof. apply expand_from_edits. Qed.

Lemma insert_line_number_edits db atom_it coord db' :
  insert_line_number db atom_it coord = Ok db' → edits db db'.
Proof.
  unfold insert_line_number, insert. intros Hrun.
  apply bind_Ok in Hrun as (a & Ha & [= <-]). apply deref_Ok in Ha.
  eapply edits_trans; [|apply edits_content].
  apply rtc_once.
  by apply (edit_insert db atom_it a (new_atom (a_begin a) (a_begin a) Black White)).
Qed.

Lemma number_line_edits b db coord db' :
  number_line b db coord = Ok db' → edits db db'.
Proof.
  unfold number_line. repeat case_match; intros Hrun; ok_inv;
    eauto using edits_refl, edits_trans, edits_split, insert_line_number_edits.
Qed.

Lemma number_lines_edits b n db coord db' :
  number_lines n b db coord = Ok db' → edits db db'.
Proof.
  revert db coord. induction n as [|n IH]; simpl; intros db coord Hrun; ok_inv;
    eauto using edits_refl, edits_trans, number_line_edits.
Qed.

Lemma show_line_numbers_edits b db db' :
  show_line_numbers b db = Ok db' → edits db db'.
Proof. unfold show_line_numbers. intros Hrun. ok_inv. by eapply number_lines_edits. Qed.

Lemma sweep_edits fuel db atom_it sels db' :
  sweep fuel db atom_it sels = Ok db' → edits db db'.
Proof.
  unfold sweep. revert db atom_it sels.
  induction fuel as [|fuel IH]; intros db atom_it sels; simpl;
    repeat case_match; try done; intros Hrun; ok_inv; subst;
    try apply edits_refl;
    apply IH in Hrun; (eapply edits_trans; [|exact Hrun]); edits_steps.
Qed.

Lemma SelectionsHighlighter_edits sels db db' :
  SelectionsHighlighter sels db = Ok db' → edits db db'.
Proof. apply sweep_edits. Qed.
End edits.

(** ** The sweep of the selection highlighter *)

Implicit Types (db done rest todo : DisplayBuffer) (a atom : DisplayAtom)
  (s sel : Selection) (cur sels : list Selection).

Lemma case_head_reflect atom sel :
  reflect (sel_begin sel ≤ a_begin atom ∧ a_begin atom < sel_end sel
           ∧ sel_end sel < a_end atom) (case_head atom sel).
Proof.
  apply iff_reflect. unfold case_head.
  rewrite ?andb_true_iff, ?Nat.leb_le, ?Nat.ltb_lt. tauto.
Qed.

Lemma case_middle_reflect atom sel :
  reflect (a_begin atom < sel_begin sel ∧ sel_end sel < a_end atom)
    (case_middle atom sel).
Proof.
  apply iff_reflect. unfold case_middle.
  rewrite ?andb_true_iff, ?Nat.leb_le, ?Nat.ltb_lt. tauto.
Qed.

Lemma case_tail_reflect atom sel :
  reflect (a_begin atom < sel_begin sel ∧ sel_begin sel < a_end atom)
    (case_tail atom sel).
Proof.
  apply iff_reflect. unfold case_tail.
  rewrite ?andb_true_iff, ?Nat.leb_le, ?Nat.ltb_lt. tauto.
Qed.

Lemma case_whole_reflect atom sel :
  reflect (sel_begin sel ≤ a_begin atom ∧ a_end atom ≤ sel_end sel)
    (case_whole atom sel).
Proof.
  apply iff_reflect. unfold case_whole.
  rewrite ?andb_true_iff, ?Nat.leb_le, ?Nat.ltb_lt. tauto.
Qed.

Lemma case_selection_behind_reflect atom sel :
  reflect (sel_end sel ≤ a_begin atom) (case_selection_behind atom sel).
Proof.
  apply iff_reflect. unfold case_selection_behind.
  rewrite ?andb_true_iff, ?Nat.leb_le, ?Nat.ltb_lt. tauto.
Qed.

Lemma case_atom_behind_reflect atom sel :
  reflect (a_end atom ≤ sel_begin sel) (case_atom_behind atom sel).
Proof.
  apply iff_reflect. unfold case_atom_behind.
  rewrite ?andb_true_iff, ?Nat.leb_le, ?Nat.ltb_lt. tauto.
Qed.

(** The tests of the sweep, one after the other, as the source makes them. *)
Ltac sweep_cases atom sel :=
  destruct (case_head_reflect atom sel);
  [|destruct (case_middle_reflect atom sel);
    [|destruct (case_tail_reflect atom sel);
      [|destruct (case_whole_reflect atom sel);
        [|destruct (case_selection_behind_reflect atom sel);
          [|destruct (case_atom_behind_reflect atom sel)]]]]].

(** [split] on the atom under the iterator, all outcomes. *)
Lemma split_zip_cases done a rest pos :
  split (done ++ a :: rest) (length done) pos
  = if negb ((a_begin a <? pos) && (pos <? a_end a)) then Fail SplitNotInterior
    else if negb (splitable a) then Fail SplitNotSplitable
    else Ok (done ++ set_range a (a_begin a) pos
               :: set_range a pos (a_end a) :: rest, length done).
Proof. unfold split. by rewrite lookup_zip, take_zip, drop_zip. Qed.

Lemma split_zip_interior done a rest pos :
  a_begin a < pos < a_end a →
  split (done ++ a :: rest) (length done) pos
  = if splitable a
    then Ok (done ++ set_range a (a_begin a) pos
               :: set_range a pos (a_end a) :: rest, length done)
    else Fail SplitNotSplitable.
Proof.
  intros [Hb He]. rewrite split_zip_cases.
  apply Nat.ltb_lt in Hb, He. rewrite Hb, He. by destruct (splitable a).
Qed.

Lemma zip_next done a rest : done ++ a :: rest = (done ++ [a]) ++ rest.
Proof. by rewrite <- app_assoc. Qed.

(** One round of the sweep on the atom [a] under the iterator, with the
    atoms before it in [done] and those after it in [rest]. *)
Lemma sweep_round fuel done a rest s cur :
  sweep (S fuel) (done ++ a :: rest) (length done) (s :: cur)
  = if case_head a s then
      if splitable a then
        sweep fuel
          ((done ++ [add_underline (set_range a (a_begin a) (sel_end s))])
             ++ set_range a (sel_end s) (a_end a) :: rest)
          (length (done ++ [add_underline (set_range a (a_begin a) (sel_end s))]))
          cur
      else Fail SplitNotSplitable
    else if case_middle a s then
      if negb (sel_begin s <? a_end a) then Fail SplitNotInterior
      else if splitable a then
        if sel_begin s <? sel_end s then
          sweep fuel
            ((done ++ [set_range a (a_begin a) (sel_begin s);
                       add_underline (set_range a (sel_begin s) (sel_end s))])
               ++ set_range a (sel_end s) (a_end a) :: rest)
            (length (done ++ [set_range a (a_begin a) (sel_begin s);
                       add_underline (set_range a (sel_begin s) (sel_end s))]))
            cur
        else Fail SplitNotInterior
      else Fail SplitNotSplitable
    else if case_tail a s then
      if splitable a then
        sweep fuel
          ((done ++ [set_range a (a_begin a) (sel_begin s);
                     add_underline (set_range a (sel_begin s) (a_end a))])
             ++ rest)
          (length (done ++ [set_range a (a_begin a) (sel_begin s);
                     add_underline (set_range a (sel_begin s) (a_end a))]))
          (s :: cur)
      else Fail SplitNotSplitable
    else if case_whole a s then
      sweep fuel ((done ++ [add_underline a]) ++ rest)
        (length (done ++ [add_underline a])) (s :: cur)
    else if case_selection_behind a s then
      sweep fuel (done ++ a :: rest) (length done) cur
    else
      sweep fuel ((done ++ [a]) ++ rest) (length (done ++ [a])) (s :: cur).
Proof.
  unfold sweep. cbn [sweep_with]. rewrite lookup_zip.
  sweep_cases a s.
  - rewrite split_zip_interior by lia. destruct (splitable a); [|done].
    rewrite lookup_zip, alter_zip, length_snoc. by rewrite <- app_assoc.
  - destruct (Nat.ltb_spec (sel_begin s) (a_end a)) as [Hin|Hout]; cbn [negb].
    2:{ rewrite split_zip_cases.
        assert ((sel_begin s <? a_end a) = false) as -> by (apply Nat.ltb_ge; lia).
        by rewrite andb_false_r. }
    rewrite split_zip_interior by lia. destruct (splitable a) eqn:Hs; [|done].
    rewrite (zip_next done), <- (length_snoc done (set_range a (a_begin a) (sel_begin s))).
    rewrite split_zip_cases. cbn [set_range a_begin a_end splitable]. rewrite Hs.
    destruct (Nat.ltb_spec (sel_begin s) (sel_end s)) as [Hlt|Hge].
    + assert ((sel_end s <? a_end a) = true) as -> by (apply Nat.ltb_lt; lia).
      cbn [negb andb]. rewrite lookup_zip, alter_zip.
      rewrite !length_app. cbn [length]. rewrite <- !app_assoc.
      replace (length done + 2) with (S (length done + 1)) by lia. done.
    + done.
  - rewrite split_zip_interior by lia. destruct (splitable a); [|done].
    rewrite (zip_next done), <- (length_snoc done (set_range a (a_begin a) (sel_begin s))).
    rewrite lookup_zip, alter_zip. rewrite !length_app. cbn [length].
    rewrite <- !app_assoc.
    replace (length done + 2) with (S (length done + 1)) by lia. done.
  - rewrite alter_zip, length_snoc. by rewrite <- app_assoc.
  - done.
  - rewrite length_snoc. by rewrite <- app_assoc.
  - lia.
Qed.

(** The six tests leave no atom and selection out, whatever their ends. *)
Lemma cases_exhaustive atom sel :
  case_head atom sel || case_middle atom sel || case_tail atom sel
  || case_whole atom sel || case_selection_behind atom sel
  || case_atom_behind atom sel = true.
Proof. sweep_cases atom sel; (done || lia). Qed.

Lemma sweep_end fuel db atom_it sels :
  db !! atom_it = None → sweep fuel db atom_it sels = Ok db.
Proof. intros H. unfold sweep. destruct fuel; simpl; by rewrite H. Qed.

Lemma sweep_no_selection fuel db atom_it :
  sweep fuel db atom_it [] = Ok db.
Proof. unfold sweep. destruct fuel; simpl; by destruct (db !! atom_it). Qed.

Lemma sweep_no_fuel done a rest s cur :
  sweep 0 (done ++ a :: rest) (length done) (s :: cur) = Fail OutOfFuel.
Proof. unfold sweep. simpl. by rewrite lookup_zip. Qed.

(** A property of the outcome of the sweep from any iterator follows from
    the property with the atoms behind the iterator set apart. *)
Lemma sweep_from_any (P : result DisplayBuffer → Prop) fuel db atom_it cur :
  P (Ok db) →
  (∀ done todo, db = done ++ todo →
     P (sweep fuel (done ++ todo) (length done) cur)) →
  P (sweep fuel db atom_it cur).
Proof.
  intros Hend Hzip. destruct (db !! atom_it) as [a|] eqn:Hi.
  - apply list_elem_of_split_length in Hi as (done & rest & -> & ->).
    by apply Hzip.
  - by rewrite sweep_end.
Qed.

Lemma sweep_zip_not_NoCase fuel done todo cur :
  sweep fuel (done ++ todo) (length done) cur ≠ Fail NoCase.
Proof.
  revert done todo cur. induction fuel as [|fuel IH]; intros pre todo cur;
    (destruct todo as [|a rest];
     [by rewrite sweep_end by (apply lookup_ge_None; rewrite app_nil_r; lia)|]);
    (destruct cur as [|s cur]; [by rewrite sweep_no_selection|]).
  - by rewrite sweep_no_fuel.
  - rewrite sweep_round. repeat case_match; try done; apply IH.
Qed.

Lemma sweep_zip_interior fuel done todo cur :
  Forall non_empty cur →
  sweep fuel (done ++ todo) (length done) cur ≠ Fail SplitNotInterior.
Proof.
  revert done todo cur. induction fuel as [|fuel IH]; intros pre todo cur Hne;
    (destruct todo as [|a rest];
     [by rewrite sweep_end by (apply lookup_ge_None; rewrite app_nil_r; lia)|]);
    (destruct cur as [|s cur]; [by rewrite sweep_no_selection|]).
  - by rewrite sweep_no_fuel.
  - pose proof (Forall_inv Hne) as Hs. pose proof (Forall_inv_tail Hne) as Hcur.
    unfold non_empty in Hs. rewrite sweep_round.
    sweep_cases a s; try lia.
    + destruct (splitable a); [by apply IH|done].
    + assert ((sel_begin s <? a_end a) = true) as -> by (apply Nat.ltb_lt; lia).
      assert ((sel_begin s <? sel_end s) = true) as -> by (apply Nat.ltb_lt; lia).
      cbn [negb]. destruct (splitable a); [by apply IH|done].
    + destruct (splitable a); [by apply IH|done].
    + by apply IH.
    + by apply IH.
    + by apply IH.
Qed.

(** A zero-width selection strictly inside the atom under the iterator:
    the first split of the middle case goes through, the second is asked
    for the begin of the atom it is given. *)
Lemma sweep_zero_width_inside fuel done a rest s cur :
  sel_begin s = sel_end s → a_begin a < sel_begin s < a_end a →
  splitable a = true →
  sweep (S fuel) (done ++ a :: rest) (length done) (s :: cur)
  = Fail SplitNotInterior.
Proof.
  intros Hz Hin Hs. rewrite sweep_round.
  sweep_cases a s; try lia.
  assert ((sel_begin s <? a_end a) = true) as -> by (apply Nat.ltb_lt; lia).
  assert ((sel_begin s <? sel_end s) = false) as -> by (apply Nat.ltb_ge; lia).
  by rewrite Hs.
Qed.

(** [std_sort] rearranges, and leaves begins in order. *)
Lemma linear_insert_Permutation {A : Type} (comp : A → A → bool) val
    (sorted : list A) :
  linear_insert comp val sorted ≡ₚ val :: sorted.
Proof.
  induction sorted as [|x rest IH]; cbn [linear_insert]; [done|].
  destruct (comp val x); [done|]. rewrite IH. apply Permutation_swap.
Qed.

Lemma std_sort_Permutation {A : Type} (comp : A → A → bool) (l : list A) :
  std_sort comp l ≡ₚ l.
Proof.
  unfold std_sort.
  assert (∀ acc, foldl (λ sorted val, linear_insert comp val sorted) acc l
                 ≡ₚ l ++ acc) as H.
  { induction l as [|x l IH]; intros acc; cbn [foldl]; [done|].
    rewrite IH, linear_insert_Permutation. cbn [app].
    by rewrite Permutation_middle. }
  by rewrite H, app_nil_r.
Qed.

Lemma linear_insert_sorted val sels :
  StronglySorted begins_before sels →
  StronglySorted begins_before (linear_insert begin_less val sels).
Proof.
  induction 1 as [|x rest Hrest IH Hx]; cbn [linear_insert].
  - repeat constructor.
  - unfold begin_less at 1. destruct (Nat.ltb_spec (sel_begin val) (sel_begin x)).
    + constructor; [by constructor|]. constructor; [unfold begins_before; lia|].
      eapply Forall_impl; [exact Hx|]. unfold begins_before. intros y. lia.
    + constructor; [done|]. rewrite linear_insert_Permutation.
      by constructor.
Qed.

Lemma std_sort_sorted sels : StronglySorted begins_before (std_sort begin_less sels).
Proof.
  unfold std_sort.
  assert (∀ acc, StronglySorted begins_before acc →
                 StronglySorted begins_before
                   (foldl (λ sorted val, linear_insert begin_less val sorted)
                      acc sels)) as H.
  { induction sels as [|x l IH]; intros acc Hacc; cbn [foldl]; [done|].
    by apply IH, linear_insert_sorted. }
  apply H. constructor.
Qed.

(** Selections that come with begins in order are left in the order they
    came, those with equal begin too. *)
Lemma linear_insert_last val sels :
  Forall (λ x, begins_before x val) sels →
  linear_insert begin_less val sels = sels ++ [val].
Proof.
  induction 1 as [|x rest Hx _ IH]; cbn [linear_insert]; [done|].
  unfold begin_less at 1. unfold begins_before in Hx.
  destruct (Nat.ltb_spec (sel_begin val) (sel_begin x)); [lia|].
  by rewrite IH.
Qed.

Lemma sorted_suffix sels1 sels2 :
  StronglySorted begins_before (sels1 ++ sels2) →
  StronglySorted begins_before sels2.
Proof.
  induction sels1 as [|x l IH]; [done|]. cbn [app].
  intros [Hs _]%StronglySorted_inv. by apply IH.
Qed.

Lemma std_sort_in_order sels :
  StronglySorted begins_before sels → std_sort begin_less sels = sels.
Proof.
  unfold std_sort. intros Hsorted.
  assert (∀ acc, StronglySorted begins_before (acc ++ sels) →
                 foldl (λ sorted val, linear_insert begin_less val sorted)
                   acc sels = acc ++ sels) as H.
  { clear Hsorted. induction sels as [|x l IH]; intros acc Hs; cbn [foldl].
    - by rewrite app_nil_r.
    - rewrite linear_insert_last.
      + rewrite IH; rewrite <- app_assoc; done.
      + apply Forall_forall. intros y Hy.
        apply list_elem_of_split in Hy as (l1 & l2 & ->).
        rewrite <- app_assoc in Hs. cbn [app] in Hs.
        apply sorted_suffix, StronglySorted_inv in Hs as [_ Hall].
        apply (proj1 (Forall_forall _ _) Hall).
        rewrite elem_of_app, elem_of_cons. tauto. }
  by apply (H []).
Qed.

Lemma std_sort_Forall (P : Selection → Prop) sels :
  Forall P sels → Forall P (std_sort begin_less sels).
Proof. intros H. by rewrite std_sort_Permutation. Qed.

(** ** What the sweep underlines, and where it cuts *)

Lemma underlined_add_underline a : underlined (add_underline a) = true.
Proof.
  unfold underlined, add_underline, Underline. cbn [attribute].
  rewrite N.lor_spec. apply orb_true_r.
Qed.

Lemma piece_of_refl all a : piece_of all a a.
Proof. unfold piece_of. repeat split; (done || by left). Qed.

Lemma piece_of_trans all a'' a' a :
  piece_of all a'' a' → piece_of all a' a → piece_of all a'' a.
Proof.
  intros (Hb1 & He1 & Hcb1 & Hce1 & Hf1 & Hg1 & Hc1 & Hs1 & Hu1)
         (Hb2 & He2 & Hcb2 & Hce2 & Hf2 & Hg2 & Hc2 & Hs2 & Hu2).
  unfold piece_of. repeat split; try congruence; try lia.
  - destruct Hcb1 as [->|?]; [done|by right].
  - destruct Hce1 as [->|?]; [done|by right].
  - destruct Hu1 as [->|(-> & sel & Hin & ? & ?)].
    + destruct Hu2 as [->|(-> & sel & Hin & ? & ?)]; [by left|].
      right. split; [done|]. exists sel. repeat split; (done || lia).
    + right. split; [|exists sel; repeat split; (done || lia)].
      destruct Hu2 as [->|(-> & _)]; [done|].
      by rewrite <- N.lor_assoc, N.lor_diag.
Qed.

Lemma piece_set_range all a b e :
  a_begin a ≤ b → e ≤ a_end a →
  b = a_begin a ∨ selection_boundary all b →
  e = a_end a ∨ selection_boundary all e →
  piece_of all (set_range a b e) a.
Proof. intros. unfold piece_of. cbn. repeat split; (done || by left). Qed.

Lemma piece_add_underline all x a sel :
  piece_of all x a → sel ∈ all →
  sel_begin sel ≤ a_begin x → a_end x ≤ sel_end sel →
  piece_of all (add_underline x) a.
Proof.
  intros Hp Hin Hb He. apply (piece_of_trans _ _ x); [|done].
  unfold piece_of. cbn. repeat split; try done; [by left..|].
  right. split; [done|]. by exists sel.
Qed.

Lemma boundary_begin all sel : sel ∈ all → selection_boundary all (sel_begin sel).
Proof. intros H. exists sel. auto. Qed.

Lemma boundary_end all sel : sel ∈ all → selection_boundary all (sel_end sel).
Proof. intros H. exists sel. auto. Qed.

Lemma sweep_post_done all todo lo hi :
  covers todo lo hi → sweep_post all todo [] lo hi todo.
Proof.
  intros Hc. repeat split; [done| |].
  - intros p sel Hin. by apply elem_of_nil in Hin.
  - intros a' Hin. exists a'. split; [done|apply piece_of_refl].
Qed.

(** One round: the atoms [pre] are finished and tile [[lo,lo1)], the sweep
    goes on with [todo1] and [cur1]. *)
Lemma sweep_post_step all pre todo todo1 cur cur1 lo lo1 hi todo'' :
  covers pre lo lo1 →
  sweep_post all todo1 cur1 lo1 hi todo'' →
  (∀ x, x ∈ pre → ∃ a0, a0 ∈ todo ∧ piece_of all x a0) →
  (∀ x, x ∈ todo1 → ∃ a0, a0 ∈ todo ∧ piece_of all x a0) →
  (∀ p s0, s0 ∈ cur → selected p s0 → lo ≤ p < hi →
     (∃ x, x ∈ pre ∧ contains p x = true ∧ underlined x = true)
     ∨ (lo1 ≤ p ∧ s0 ∈ cur1)) →
  sweep_post all todo cur lo hi (pre ++ todo'').
Proof.
  intros Hpre (Hc & Hu & Hp) Hpre_p Htodo1_p Hobl. repeat split.
  - apply covers_app. by exists lo1.
  - intros p s0 Hin Hsel Hr.
    destruct (Hobl p s0 Hin Hsel Hr) as [(x & Hx & ? & ?)|[Hge Hin1]].
    + exists x. split; [|done]. apply elem_of_app. by left.
    + destruct (Hu p s0 Hin1 Hsel) as (x & Hx & ? & ?); [lia|].
      exists x. split; [|done]. apply elem_of_app. by right.
  - intros a' [Hin|Hin]%elem_of_app; [by apply Hpre_p|].
    destruct (Hp a' Hin) as (a1 & Hin1 & Hp1).
    destruct (Htodo1_p a1 Hin1) as (a0 & Hin0 & Hp0).
    exists a0. split; [done|]. by apply (piece_of_trans _ _ a1).
Qed.

Lemma sweep_post_nil all cur lo hi : covers [] lo hi → sweep_post all [] cur lo hi [].
Proof.
  intros Hc. repeat split; [done| |].
  - intros p sel _ _ Hp. simpl in Hc. lia.
  - intros a' Hin. by apply elem_of_nil in Hin.
Qed.

Lemma pieces_of_head all a rest pre :
  Forall (λ x, piece_of all x a) pre →
  ∀ x, x ∈ pre → ∃ a0, a0 ∈ a :: rest ∧ piece_of all x a0.
Proof.
  intros H x Hin. exists a. split; [by left|].
  by apply (proj1 (Forall_forall _ _) H).
Qed.

Lemma pieces_of_rest all a rest r :
  piece_of all r a →
  ∀ x, x ∈ r :: rest → ∃ a0, a0 ∈ a :: rest ∧ piece_of all x a0.
Proof.
  intros H x [->|Hin]%elem_of_cons.
  - exists a. split; [by left|done].
  - exists x. split; [by right|apply piece_of_refl].
Qed.

Lemma pieces_of_tail all a rest :
  ∀ x, x ∈ rest → ∃ a0, a0 ∈ a :: rest ∧ piece_of all x a0.
Proof. intros x Hin. exists x. split; [by right|apply piece_of_refl]. Qed.

Lemma pieces_of_same all todo :
  ∀ x, x ∈ todo → ∃ a0, a0 ∈ todo ∧ piece_of all x a0.
Proof. intros x Hin. exists x. split; [done|apply piece_of_refl]. Qed.

(** The sweep from the iterator on, over atoms that tile [[lo,hi)] and
    selections in the order [std::sort] leaves them. *)
Lemma sweep_zip_post all fuel done todo cur lo hi db' :
  covers todo lo hi → StronglySorted begins_before cur →
  (∀ sel, sel ∈ cur → sel ∈ all) →
  sweep fuel (done ++ todo) (length done) cur = Ok db' →
  ∃ todo', db' = done ++ todo' ∧ sweep_post all todo cur lo hi todo'.
Proof.
  revert done todo cur lo db'.
  induction fuel as [|fuel IH]; intros pre todo cur lo db' Hc Hsort Hsub Hrun;
    (destruct todo as [|a rest];
     [rewrite sweep_end in Hrun
        by (apply lookup_ge_None; rewrite app_nil_r; lia);
      injection Hrun as <-; exists []; split; [done|by apply sweep_post_nil]|]);
    (destruct cur as [|s cur];
     [rewrite sweep_no_selection in Hrun; injection Hrun as <-;
      exists (a :: rest); split; [done|by apply sweep_post_done]|]).
  { by rewrite sweep_no_fuel in Hrun. }
  destruct Hc as (Hlo & Hle & Hc).
  apply StronglySorted_inv in Hsort as [Hsort Hfirst].
  assert (∀ s0, s0 ∈ cur → sel_begin s ≤ sel_begin s0) as Hord
    by (intros s0 Hin; by apply (proj1 (Forall_forall _ _) Hfirst)).
  assert (s ∈ all) as Hs by (apply Hsub; by left).
  assert (∀ sel, sel ∈ cur → sel ∈ all) as Hsub' by (intros; apply Hsub; by right).
  rewrite sweep_round in Hrun. unfold selected.
  sweep_cases a s; try lia.
  - (* [###------] *)
    destruct (splitable a); [|done].
    apply (IH _ _ _ (sel_end s)) in Hrun as (todo'' & -> & Hpost);
      [|by cbn; repeat split; (done || lia)|done|done].
    exists ([add_underline (set_range a (a_begin a) (sel_end s))] ++ todo'').
    split; [by rewrite <- app_assoc|].
    eapply sweep_post_step with (cur1 := cur) (lo1 := (sel_end s));
      [|exact Hpost|..].
    + cbn. lia.
    + apply pieces_of_head. constructor; [|constructor].
      apply (piece_add_underline _ _ _ s); cbn; [|done|lia..].
      apply piece_set_range; [lia..|by left|right; by apply boundary_end].
    + apply pieces_of_rest.
      apply piece_set_range; [lia..|right; by apply boundary_end|by left].
    + intros p s0 Hin Hsel Hp. unfold selected in Hsel.
      destruct (decide (p < sel_end s)).
      * left. eexists. split; [by left|]. split; [|apply underlined_add_underline].
        apply contains_spec. cbn. lia.
      * right. split; [lia|]. apply elem_of_cons in Hin as [->|Hin]; [lia|done].
  - (* [---###---] *)
    destruct (negb (sel_begin s <? a_end a)); [done|].
    destruct (splitable a); [|done].
    destruct (Nat.ltb_spec (sel_begin s) (sel_end s)); [|done].
    apply (IH _ _ _ (sel_end s)) in Hrun as (todo'' & -> & Hpost);
      [|by cbn; repeat split; (done || lia)|done|done].
    exists ([set_range a (a_begin a) (sel_begin s);
             add_underline (set_range a (sel_begin s) (sel_end s))] ++ todo'').
    split; [by rewrite <- app_assoc|].
    eapply sweep_post_step with (cur1 := cur) (lo1 := (sel_end s));
      [|exact Hpost|..].
    + cbn. lia.
    + apply pieces_of_head. constructor; [|constructor; [|constructor]].
      * apply piece_set_range; [lia..|by left|right; by apply boundary_begin].
      * apply (piece_add_underline _ _ _ s); cbn; [|done|lia..].
        apply piece_set_range;
          [lia..|right; by apply boundary_begin|right; by apply boundary_end].
    + apply pieces_of_rest.
      apply piece_set_range; [lia..|right; by apply boundary_end|by left].
    + intros p s0 Hin Hsel Hp. unfold selected in Hsel.
      assert (sel_begin s ≤ p).
      { apply elem_of_cons in Hin as [->|Hin]; [lia|]. specialize (Hord _ Hin). lia. }
      destruct (decide (p < sel_end s)).
      * left. eexists. split; [right; by left|].
        split; [|apply underlined_add_underline]. apply contains_spec. cbn. lia.
      * right. split; [lia|]. apply elem_of_cons in Hin as [->|Hin]; [lia|done].
  - (* [------###] *)
    destruct (splitable a); [|done].
    apply (IH _ _ _ (a_end a)) in Hrun as (todo'' & -> & Hpost);
      [|done|by constructor|done].
    exists ([set_range a (a_begin a) (sel_begin s);
             add_underline (set_range a (sel_begin s) (a_end a))] ++ todo'').
    split; [by rewrite <- app_assoc|].
    eapply sweep_post_step with (cur1 := (s :: cur)) (lo1 := (a_end a));
      [|exact Hpost|..].
    + cbn. lia.
    + apply pieces_of_head. constructor; [|constructor; [|constructor]].
      * apply piece_set_range; [lia..|by left|right; by apply boundary_begin].
      * apply (piece_add_underline _ _ _ s); cbn; [|done|lia..].
        apply piece_set_range; [lia..|right; by apply boundary_begin|by left].
    + apply pieces_of_tail.
    + intros p s0 Hin Hsel Hp. unfold selected in Hsel.
      assert (sel_begin s ≤ p).
      { apply elem_of_cons in Hin as [->|Hin]; [lia|]. specialize (Hord _ Hin). lia. }
      destruct (decide (p < a_end a)).
      * left. eexists. split; [right; by left|].
        split; [|apply underlined_add_underline]. apply contains_spec. cbn. lia.
      * right. split; [lia|done].
  - (* [#########] *)
    apply (IH _ _ _ (a_end a)) in Hrun as (todo'' & -> & Hpost);
      [|done|by constructor|done].
    exists ([add_underline a] ++ todo'').
    split; [by rewrite <- app_assoc|].
    eapply sweep_post_step with (cur1 := (s :: cur)) (lo1 := (a_end a));
      [|exact Hpost|..].
    + cbn. lia.
    + apply pieces_of_head. constructor; [|constructor].
      apply (piece_add_underline _ _ _ s); [apply piece_of_refl|done|lia..].
    + apply pieces_of_tail.
    + intros p s0 Hin Hsel Hp.
      destruct (decide (p < a_end a)).
      * left. eexists. split; [by left|].
        split; [|apply underlined_add_underline]. apply contains_spec. cbn. lia.
      * right. split; [lia|done].
  - (* the selection ends before the atom *)
    apply (IH _ _ _ lo) in Hrun as (todo'' & -> & Hpost); [|done..].
    exists ([] ++ todo''). split; [done|].
    eapply sweep_post_step with (cur1 := cur) (lo1 := lo);
      [|exact Hpost|..].
    + done.
    + intros x Hin. by apply elem_of_nil in Hin.
    + apply pieces_of_same.
    + intros p s0 Hin Hsel Hp. unfold selected in Hsel. right. split; [lia|].
      apply elem_of_cons in Hin as [->|Hin]; [lia|done].
  - (* the atom ends before the selection *)
    apply (IH _ _ _ (a_end a)) in Hrun as (todo'' & -> & Hpost);
      [|done|by constructor|done].
    exists ([a] ++ todo''). split; [by rewrite <- app_assoc|].
    eapply sweep_post_step with (cur1 := (s :: cur)) (lo1 := (a_end a));
      [|exact Hpost|..].
    + cbn. lia.
    + apply pieces_of_head. constructor; [apply piece_of_refl|constructor].
    + apply pieces_of_tail.
    + intros p s0 Hin Hsel Hp. unfold selected in Hsel. right. split; [|done].
      apply elem_of_cons in Hin as [->|Hin]; [lia|]. specialize (Hord _ Hin). lia.
Qed.

Lemma real_splitable_cons a todo :
  real_splitable (a :: todo) ↔
  (is_real a = true → splitable a = true) ∧ real_splitable todo.
Proof.
  unfold real_splitable. split.
  - intros H. split; [apply H; by left|]. intros x Hin. apply H. by right.
  - intros [Ha H] x [->|Hin]%elem_of_cons; [done|by apply H].
Qed.

(** With selections that are not empty and real atoms that may be split,
    the sweep runs to its end within the rounds it is given. *)
Lemma sweep_zip_total fuel done todo cur :
  length todo + length cur ≤ fuel → real_splitable todo →
  Forall non_empty cur →
  ∃ db', sweep fuel (done ++ todo) (length done) cur = Ok db'.
Proof.
  revert done todo cur.
  induction fuel as [|fuel IH]; intros pre todo cur Hfuel Hsp Hne;
    (destruct todo as [|a rest];
     [rewrite sweep_end by (apply lookup_ge_None; rewrite app_nil_r; lia);
      by eexists|]);
    (destruct cur as [|s cur]; [rewrite sweep_no_selection; by eexists|]).
  { simpl in Hfuel. lia. }
  simpl in Hfuel.
  apply real_splitable_cons in Hsp as [Ha Hsp].
  pose proof (Forall_inv Hne) as Hs. pose proof (Forall_inv_tail Hne) as Hcur.
  unfold non_empty in Hs. rewrite is_real_spec in Ha.
  rewrite sweep_round. sweep_cases a s; try lia.
  - rewrite Ha by lia. apply IH; [simpl; lia| |done].
    apply real_splitable_cons. split; [|done]. intros _. cbn. apply Ha. lia.
  - assert ((sel_begin s <? a_end a) = true) as -> by (apply Nat.ltb_lt; lia).
    assert ((sel_begin s <? sel_end s) = true) as -> by (apply Nat.ltb_lt; lia).
    cbn [negb]. rewrite Ha by lia. apply IH; [simpl; lia| |done].
    apply real_splitable_cons. split; [|done]. intros _. cbn. apply Ha. lia.
  - rewrite Ha by lia. apply IH; [simpl; lia|done..].
  - apply IH; [simpl; lia|done..].
  - apply IH; [simpl; lia| |done]. apply real_splitable_cons.
    by rewrite is_real_spec.
  - apply IH; [simpl; lia|done..].
Qed.

(** The highlighter is the sweep over one of the orders that [std::sort]
    may leave. *)
Lemma SelectionsHighlighter_sorted sels db :
  ∃ sorted, sorted_by_begin sels sorted
            ∧ SelectionsHighlighter sels db = highlight_sorted db sorted.
Proof.
  exists (std_sort begin_less sels). split; [split|done].
  - apply std_sort_Permutation.
  - apply std_sort_sorted.
Qed.

(** ** [colorize_regex] *)

Lemma atom_containing_found db pos start i a :
  atom_containing db pos start = i → db !! i = Some a →
  contains pos a = true ∧ start ≤ i.
Proof.
  unfold atom_containing.
  destruct (list_find _ _) as [[k x]|] eqn:Hf.
  - intros <- Hi. apply list_find_Some in Hf as (Hk & Hx & _).
    rewrite lookup_drop in Hk. rewrite Hi in Hk. injection Hk as ->.
    split; [done|lia].
  - intros <- Hi. apply lookup_lt_Some in Hi. lia.
Qed.

(** ** The partition invariants through the filters *)

Lemma filter_run_edits db db' : filter_run db db' → edits db db'.
Proof.
  intros [ex color H|boost H|b H|b H|sorted H|selections H].
  - by eapply colorize_regex_edits.
  - by eapply colorize_cplusplus_edits.
  - by eapply expand_tabulations_edits.
  - by eapply show_line_numbers_edits.
  - by eapply sweep_edits.
  - by eapply SelectionsHighlighter_edits.
Qed.

(** ** [show_line_numbers] *)

Lemma set_range_same a : set_range a (a_begin a) (a_end a) = a.
Proof. by destruct a. Qed.

Lemma insert_line_number_zip pre a rest coord :
  insert_line_number (pre ++ a :: rest) (length pre) coord
  = Ok (pre ++ gutter_atom (a_begin a) (line coord + 1) :: a :: rest).
Proof.
  unfold insert_line_number, insert, replace_atom_content, mbind, result_bind.
  rewrite deref_zip. cbn beta iota.
  rewrite take_zip, drop_app_length. by rewrite alter_zip.
Qed.

(** The body of the loop on the line of [coord], when the position looked
    for is found in the atom [a]. *)
Lemma number_line_zip b pre a rest coord :
  atom_containing (pre ++ a :: rest) (iterator_at b coord) 0 = length pre →
  number_line b (pre ++ a :: rest) coord
  = if negb (a_begin a =? iterator_at b coord) then
      if negb (splitable a) then Ok (pre ++ a :: rest)
      else Ok (pre ++ set_range a (a_begin a) (iterator_at b coord)
                 :: gutter_atom (iterator_at b coord) (line coord + 1)
                 :: set_range a (iterator_at b coord) (a_end a) :: rest)
    else Ok (pre ++ gutter_atom (iterator_at b coord) (line coord + 1)
               :: a :: rest).
Proof.
  intros Hi.
  destruct (atom_containing_found _ _ _ _ a Hi (lookup_zip _ _ _)) as [Hc _].
  apply contains_spec in Hc.
  unfold number_line. rewrite Hi, lookup_zip.
  destruct (Nat.eqb_spec (a_begin a) (iterator_at b coord)) as [Heq|Hne];
    cbn [negb].
  - by rewrite insert_line_number_zip, Heq.
  - destruct (splitable a) eqn:Hs; cbn [negb]; [|done].
    rewrite split_zip by (done || lia). unfold mbind, result_bind. cbn beta iota.
    rewrite (zip_next pre),
      <- (length_snoc pre (set_range a (a_begin a) (iterator_at b coord))).
    rewrite insert_line_number_zip. by rewrite <- app_assoc.
Qed.

(** Up to 9999 the formatted number and its space fit the five characters
    that [snprintf] is allowed. *)
Lemma substring_all (str : string) m :
  String.length str ≤ m → substring 0 m str = str.
Proof.
  revert m. induction str as [|c str IH]; intros m Hm.
  - by destruct m.
  - destruct m as [|m]; simpl in *; [lia|]. rewrite IH; [done|lia].
Qed.

Lemma string_length_append (s1 s2 : string) :
  String.length (String.append s1 s2) = String.length s1 + String.length s2.
Proof. induction s1 as [|c s1 IH]; simpl; [done|by rewrite IH]. Qed.

Lemma decimal_digits_length fuel n :
  String.length (decimal_digits fuel n) ≤ fuel.
Proof.
  revert n. induction fuel as [|fuel IH]; intros n; cbn [decimal_digits];
    [done|].
  destruct (n <? 10); [cbn [String.length]; lia|].
  rewrite string_length_append. cbn [String.length].
  specialize (IH (n / 10)). lia.
Qed.

(** A number below ten to the [k] is written with [k] of the ten rounds. *)
Lemma decimal_digits_fuel k fuel n :
  n < 10 ^ k → 0 < k → k ≤ fuel →
  decimal_digits fuel n = decimal_digits k n.
Proof.
  revert fuel n. induction k as [|k IH]; intros fuel n Hn Hk Hle; [lia|].
  destruct fuel as [|fuel]; [lia|]. cbn [decimal_digits].
  destruct (Nat.ltb_spec n 10) as [|Hge]; [done|].
  destruct k as [|k]; [simpl in Hn; lia|].
  rewrite (IH fuel); [done| |lia..].
  apply Nat.Div0.div_lt_upper_bound. rewrite Nat.pow_succ_r' in Hn. lia.
Qed.

(** Up to 9999 the formatted number and its space fit the five characters
    that [snprintf] is allowed. *)
Lemma snprintf_3d_fits n : n < 10 * 1000 → snprintf_3d 6 n = format_3d n.
Proof.
  intros Hn. unfold snprintf_3d. apply substring_all.
  unfold format_3d. rewrite !string_length_append.
  assert (String.length (decimal n) ≤ 4) as Hlen.
  { unfold decimal. rewrite (decimal_digits_fuel 4); [|simpl; lia|lia..].
    apply decimal_digits_length. }
  assert (String.length (spaces (3 - String.length (decimal n)))
          = 3 - String.length (decimal n)) as ->.
  { generalize (3 - String.length (decimal n)). intros k.
    induction k as [|k IH]; simpl; [done|by rewrite IH]. }
  simpl. lia.
Qed.

(** ** [expand_tabulations] *)

Lemma after_last_newline_none (chars : list ascii) :
  existsb is_newline chars = false → after_last_newline chars = chars.
Proof.
  destruct chars as [|c chars]; [done|]. simpl.
  intros [Hc Hr]%orb_false_iff. by rewrite Hr, Hc.
Qed.

Lemma line_of_zero (b : Buffer) p :
  line_of b p = 0 ↔ existsb is_newline (take p b) = false.
Proof.
  revert p. induction b as [|c b IH]; intros p.
  - by destruct p.
  - destruct p as [|p]; [done|]. simpl. rewrite orb_false_iff, <- IH.
    destruct (is_newline c); split; (lia || naive_solver).
Qed.

(** The start of the line of [p], as the buffer gives it, is where the
    characters after the last newline before [p] begin. *)
Lemma line_start_spec (b : Buffer) p :
  line_offset b (line_of b p) ≤ p
  ∧ take (p - line_offset b (line_of b p)) (drop (line_offset b (line_of b p)) b)
    = after_last_newline (take p b).
Proof.
  revert p. induction b as [|c b IH]; intros p.
  - destruct p; simpl; split; (lia || done).
  - destruct p as [|p]; [simpl; split; (lia || done)|].
    destruct (IH p) as [Hle Heq].
    cbn [line_of take after_last_newline].
    destruct (is_newline c) eqn:Hc.
    + cbn [Nat.add line_offset]. rewrite Hc. cbn [drop Nat.sub].
      split; [lia|]. rewrite Heq.
      destruct (existsb is_newline (take p b)) eqn:Hex; [done|].
      by apply after_last_newline_none.
    + cbn [Nat.add]. destruct (line_of b p) as [|l] eqn:Hl.
      * cbn [line_offset]. split; [lia|]. cbn [Nat.sub drop take].
        apply line_of_zero in Hl. rewrite Hl. done.
      * cbn [line_offset]. rewrite Hc. cbn [drop Nat.sub].
        split; [lia|]. rewrite Heq.
        destruct (existsb is_newline (take p b)) eqn:Hex; [done|].
        apply line_of_zero in Hex. lia.
Qed.

Lemma after_last_newline_clean (chars : list ascii) :
  existsb is_newline (after_last_newline chars) = false.
Proof.
  induction chars as [|c chars IH]; [done|]. simpl.
  destruct (existsb is_newline chars) eqn:Hex; [done|].
  destruct (is_newline c) eqn:Hc; [done|]. simpl. by rewrite Hc, Hex.
Qed.

Lemma tab_stop_step col : col + (tabstop - col mod tabstop) = next_tab_stop col.
Proof.
  unfold tabstop, next_tab_stop.
  pose proof (Nat.div_mod_eq col 8). pose proof (Nat.mod_upper_bound col 8). lia.
Qed.

(** The column loop over [n] characters without a newline. *)
Lemma replay_column_spec (b : Buffer) n start col :
  start + n ≤ length b →
  existsb is_newline (take n (drop start b)) = false →
  replay_column b n start col
  = Ok (visual_column_of (take n (drop start b)) col).
Proof.
  revert start col. induction n as [|n IH]; intros start col Hlen Hnl; [done|].
  destruct (b !! start) as [c|] eqn:Hc;
    [|apply lookup_ge_None in Hc; lia].
  rewrite (drop_S _ _ _ Hc) in *. cbn [take existsb visual_column_of] in *.
  apply orb_false_iff in Hnl as [Hcn Hnl].
  cbn [replay_column]. unfold read, mbind, result_bind. rewrite Hc, Hcn.
  rewrite IH by (done || lia). by rewrite tab_stop_step, Nat.add_1_r.
Qed.

(** The column that the source computes is the visual column of the
    specification. *)
Lemma column_at_spec (b : Buffer) p :
  p ≤ length b → column_at b p = Ok (visual_column b p).
Proof.
  intros Hp. unfold column_at, line_and_column_at, iterator_at, visual_column.
  cbn [line column]. rewrite Nat.add_0_r.
  destruct (line_start_spec b p) as [Hle Heq].
  apply Nat.leb_le in Hle as Hle'. rewrite Hle'.
  rewrite replay_column_spec; [by rewrite Heq|lia|].
  rewrite Heq. apply after_last_newline_clean.
Qed.

Lemma is_tab_spec c : is_tab c = true ↔ c = tab_char.
Proof. unfold is_tab. apply Ascii.eqb_eq. Qed.

(** What is done on the tab at [p] in the atom [a] under the iterator. *)
Lemma expand_tab_zip (b : Buffer) pre a rest p :
  a_begin a ≤ p < a_end a → p < length b →
  (a_begin a + 1 < a_end a → splitable a = true) →
  expand_tab b (pre ++ a :: rest) (length pre) p
  = Ok (pre ++ before_tab a p ++ tab_atom b a p :: after_tab a p ++ rest,
        length (pre ++ before_tab a p)).
Proof.
  intros Hp Hb Hs. unfold expand_tab, mbind, result_bind, before_tab, after_tab.
  rewrite deref_zip. cbn beta iota.
  rewrite column_at_spec by lia.
  destruct (Nat.eqb_spec p (a_begin a)) as [Heq|Hne]; cbn [negb].
  - rewrite deref_zip. cbn beta iota. rewrite app_nil_r.
    destruct (Nat.eqb_spec (p + 1) (a_end a)) as [Heq'|Hne']; cbn [negb].
    + rewrite deref_zip. unfold replace_atom_content. rewrite alter_zip.
      unfold tab_atom. rewrite Heq', Heq. by rewrite set_range_same.
    + rewrite split_zip by (lia || apply Hs; lia).
      rewrite deref_zip. unfold replace_atom_content. rewrite alter_zip.
      unfold tab_atom. by rewrite Heq.
  - rewrite split_zip by (lia || apply Hs; lia).
    rewrite (zip_next pre), <- (length_snoc pre (set_range a (a_begin a) p)).
    rewrite deref_zip. cbn [set_range a_end].
    destruct (Nat.eqb_spec (p + 1) (a_end a)) as [Heq'|Hne']; cbn [negb].
    + rewrite deref_zip. unfold replace_atom_content. rewrite alter_zip.
      unfold tab_atom. rewrite <- Heq'. by rewrite <- app_assoc.
    + rewrite split_zip by (cbn; (lia || apply Hs; lia)).
      rewrite deref_zip. unfold replace_atom_content. rewrite alter_zip.
      by rewrite <- app_assoc.
Qed.

(** The loop over the positions of the atom [a] from [it] on: either no tab
    is met and nothing changes, or the first tab met is given its atom and
    the loop ends on that atom. *)
Lemma scan_atom_zip (b : Buffer) n pre a rest it :
  a_begin a ≤ it → it + n = a_end a → a_end a ≤ length b →
  (a_begin a + 1 < a_end a → splitable a = true) →
  (no_tab b it (a_end a)
   ∧ scan_atom n b (pre ++ a :: rest) (length pre) it
     = Ok (pre ++ a :: rest, length pre))
  ∨ (∃ p, it ≤ p < a_end a ∧ b !! p = Some tab_char ∧ no_tab b it p
          ∧ scan_atom n b (pre ++ a :: rest) (length pre) it
            = Ok (pre ++ before_tab a p ++ tab_atom b a p :: after_tab a p ++ rest,
                  length (pre ++ before_tab a p))).
Proof.
  revert it. induction n as [|n IH]; intros it Hit Hn Hb Hs.
  - left. split; [intros p; lia|].
    cbn [scan_atom]. rewrite lookup_zip.
    by assert ((it =? a_end a) = true) as -> by (apply Nat.eqb_eq; lia).
  - cbn [scan_atom]. rewrite lookup_zip.
    assert ((it =? a_end a) = false) as -> by (apply Nat.eqb_neq; lia).
    destruct (b !! it) as [c|] eqn:Hc; [|apply lookup_ge_None in Hc; lia].
    unfold read. rewrite Hc.
    destruct (is_tab c) eqn:Htab.
    + right. exists it. apply is_tab_spec in Htab as ->.
      split; [lia|]. split; [done|]. split; [intros p; lia|].
      rewrite expand_tab_zip by (done || lia).
      destruct n as [|n']; cbn [scan_atom];
        rewrite (app_assoc pre), lookup_zip; cbn [tab_atom set_content set_range a_end];
        rewrite Nat.add_1_r, Nat.eqb_refl; by rewrite <- app_assoc.
    + destruct (IH (S it)) as [[Hno Hrun]|(p & Hp & Hbp & Hno & Hrun)];
        [lia..|done| |].
      * left. split; [|done]. intros p Hp.
        destruct (decide (p = it)) as [->|]; [|apply Hno; lia].
        rewrite Hc. intros [= ->]. done.
      * right. exists p. split; [lia|]. split; [done|]. split; [|done].
        intros q Hq. destruct (decide (q = it)) as [->|]; [|apply Hno; lia].
        rewrite Hc. intros [= ->]. done.
Qed.

Lemma covers_width db lo hi : covers db lo hi → width db = hi - lo.
Proof.
  unfold width. revert lo. induction db as [|a db IH]; intros lo; simpl.
  - lia.
  - intros (Hb & Hle & Hc). rewrite (IH _ Hc). apply covers_le in Hc. lia.
Qed.

Lemma real_splitable_wide a todo :
  real_splitable (a :: todo) → a_begin a + 1 < a_end a → splitable a = true.
Proof.
  intros [Ha _]%real_splitable_cons Hw. apply Ha, is_real_spec. lia.
Qed.

(** The loop over the atoms from the iterator on, the atoms ahead tiling
    [[lo,hi)]: it runs to its end within the rounds it is given, the
    outcome tiles the same range, and every tab of the range has its atom,
    cut out of the atom that held it. *)
Lemma expand_from_zip (b : Buffer) fuel pre todo lo hi :
  covers todo lo hi → hi ≤ length b → real_splitable todo →
  length todo + 2 * (hi - lo) ≤ fuel →
  ∃ todo',
    expand_from fuel b (pre ++ todo) (length pre) = Ok (pre ++ todo')
    ∧ covers todo' lo hi
    ∧ ∀ p, lo ≤ p < hi → b !! p = Some tab_char →
           ∃ a, a ∈ todo ∧ contains p a = true ∧ tab_atom b a p ∈ todo'.
Proof.
  revert pre todo lo.
  induction fuel as [|fuel IH]; intros pre todo lo Hc Hb Hsp Hfuel;
    (destruct todo as [|a rest];
     [exists []; split;
      [cbn [expand_from];
       by rewrite (proj2 (lookup_ge_None _ _))
         by (rewrite app_nil_r; lia)|];
      split; [done|]; intros p Hp; simpl in Hc; lia|]).
  { simpl in Hfuel. lia. }
  simpl in Hfuel. destruct Hc as (Hlo & Hle & Hc).
  pose proof (covers_le _ _ _ Hc) as Hhi.
  pose proof (real_splitable_wide _ _ Hsp) as Hwide.
  apply real_splitable_cons in Hsp as [Ha Hsp].
  cbn [expand_from]. rewrite lookup_zip.
  destruct (scan_atom_zip b (a_end a - a_begin a) pre a rest (a_begin a))
    as [[Hno Hrun]|(p0 & Hp0 & Hbp0 & Hno & Hrun)]; [lia..|done| |];
    rewrite Hrun.
  - rewrite (zip_next pre), <- (length_snoc pre a).
    destruct (IH (pre ++ [a]) rest (a_end a)) as (todo'' & -> & Hc'' & Htabs);
      [done..|lia|].
    exists (a :: todo''). split; [by rewrite <- app_assoc|].
    split; [by cbn|]. intros p Hp Hbp.
    destruct (decide (p < a_end a)) as [Hin|Hout]; [by destruct (Hno p); [lia|]|].
    destruct (Htabs p) as (x & Hx & Hcx & Hxt); [lia|done|].
    exists x. split; [by right|]. split; [done|by right].
  - assert (pre ++ before_tab a p0 ++ tab_atom b a p0 :: after_tab a p0 ++ rest
            = (pre ++ before_tab a p0 ++ [tab_atom b a p0])
                ++ (after_tab a p0 ++ rest)) as ->
      by (by rewrite <- !app_assoc).
    assert (S (length (pre ++ before_tab a p0))
            = length (pre ++ before_tab a p0 ++ [tab_atom b a p0])) as ->
      by (rewrite !length_app; simpl; lia).
    destruct (IH (pre ++ before_tab a p0 ++ [tab_atom b a p0])
                (after_tab a p0 ++ rest) (p0 + 1))
      as (todo'' & -> & Hc'' & Htabs).
    + unfold after_tab.
      destruct (Nat.eqb_spec (p0 + 1) (a_end a)) as [->|Hne]; [done|].
      cbn. repeat split; (done || lia).
    + done.
    + unfold after_tab.
      destruct (Nat.eqb_spec (p0 + 1) (a_end a)) as [Heq|Hne]; [done|].
      apply real_splitable_cons. split; [|done]. intros _. cbn. apply Hwide. lia.
    + unfold after_tab. destruct (p0 + 1 =? a_end a); simpl; lia.
    + exists (before_tab a p0 ++ tab_atom b a p0 :: todo'').
      split; [by rewrite <- !app_assoc|]. split.
      * apply covers_app. exists p0. split.
        -- unfold before_tab.
           destruct (Nat.eqb_spec p0 (a_begin a)) as [->|Hne]; [done|].
           cbn. repeat split; (done || lia).
        -- cbn. repeat split; (done || lia).
      * intros p Hp Hbp.
        destruct (decide (p < p0)) as [Hlt|Hge]; [by destruct (Hno p); [lia|]|].
        destruct (decide (p = p0)) as [->|Hne].
        -- exists a. split; [by left|]. split; [apply contains_spec; lia|].
           apply elem_of_app. right. by left.
        -- destruct (Htabs p) as (x & Hx & Hcx & Hxt); [lia|done|].
           assert (∃ y, y ∈ a :: rest ∧ contains p y = true
                        ∧ tab_atom b y p = tab_atom b x p) as (y & Hy & Hcy & Heqt).
           { unfold after_tab in Hx.
             destruct (p0 + 1 =? a_end a); [exists x; by repeat split; [right|..]|].
             apply elem_of_cons in Hx as [->|Hx];
               [|exists x; by repeat split; [right|..]].
             exists a. split; [by left|]. split; [|done].
             apply contains_spec in Hcx. cbn in Hcx. apply contains_spec. lia. }
           exists y. split; [done|]. split; [done|]. rewrite Heqt.
           apply elem_of_app. right. by right.
Qed.

(** ** Finding the atom of a position *)

Lemma covers_lookup_lt db lo hi i j a a' :
  covers db lo hi → db !! i = Some a → db !! j = Some a' → i < j →
  a_end a ≤ a_begin a'.
Proof.
  revert lo i j. induction db as [|x db IH]; intros lo i j Hc Hi Hj Hlt;
    [done|].
  destruct Hc as (Hb & Hle & Hc). destruct j as [|j]; [lia|].
  destruct i as [|i]; simpl in Hi, Hj.
  - injection Hi as ->. apply list_elem_of_lookup_2 in Hj.
    by destruct (covers_within _ _ _ _ Hc Hj).
  - apply (IH (a_end x) i j); (done || lia).
Qed.

(** Under the partition invariants the search from a hint that is not past
    the atom of the position finds that atom. *)
Lemma atom_containing_unique db lo hi pos start i a :
  covers db lo hi → start ≤ i → db !! i = Some a → contains pos a = true →
  atom_containing db pos start = i.
Proof.
  intros Hc Hle Hi Hp. unfold atom_containing.
  assert (drop start db !! (i - start) = Some a) as Hd
    by (rewrite lookup_drop; by replace (start + (i - start)) with i by lia).
  destruct (list_find _ _) as [[k x]|] eqn:Hf.
  - apply list_find_Some in Hf as (Hk & Hx & Hmin).
    rewrite lookup_drop in Hk. apply contains_spec in Hp, Hx.
    destruct (Nat.lt_total (start + k) i) as [Hlt|[Heq|Hgt]]; [|done|].
    + pose proof (covers_lookup_lt _ _ _ _ _ _ _ Hc Hk Hi Hlt). lia.
    + destruct (Hmin (i - start) a); [done|lia|by apply contains_spec].
  - apply list_find_None in Hf.
    apply list_elem_of_lookup_2 in Hd.
    by destruct (proj1 (Forall_forall _ _) Hf a Hd).
Qed.

(** Positions that lie in different atoms fail the test of line 27. *)
Lemma different_atoms_differ db lo hi start i j a a' pos pos' :
  covers db lo hi → start ≤ i → start ≤ j →
  db !! i = Some a → contains pos a = true →
  db !! j = Some a' → contains pos' a' = true → i ≠ j →
  atom_containing db pos start ≠ atom_containing db pos' start.
Proof.
  intros Hc Hi Hj Ha Hp Ha' Hp' Hne.
  rewrite (atom_containing_unique _ _ _ _ _ i a Hc Hi Ha Hp).
  by rewrite (atom_containing_unique _ _ _ _ _ j a' Hc Hj Ha' Hp').
Qed.

(** ** [show_line_numbers] never fails on a display buffer with atoms *)

Lemma number_line_total (b : Buffer) db coord :
  ∃ db', number_line b db coord = Ok db'.
Proof.
  destruct (db !! atom_containing db (iterator_at b coord) 0) as [a|] eqn:Hi.
  - apply list_elem_of_split_length in Hi as (pre & rest & -> & Hi).
    rewrite (number_line_zip _ _ _ _ _ Hi). repeat case_match; by eexists.
  - unfold number_line. rewrite Hi. by eexists.
Qed.

Lemma number_lines_total (b : Buffer) n db coord :
  ∃ db', number_lines n b db coord = Ok db'.
Proof.
  revert db coord. induction n as [|n IH]; intros db coord; [by eexists|].
  cbn [number_lines]. destruct (number_line_total b db coord) as [db1 ->].
  apply IH.
Qed.

Lemma show_line_numbers_total (b : Buffer) db :
  db ≠ [] → ∃ db', show_line_numbers b db = Ok db'.
Proof.
  intros Hne. unfold show_line_numbers, display_begin, display_end, deref.
  destruct db as [|a db]; [done|]. cbn [lookup list_lookup mbind result_bind].
  destruct (last (a :: db)) as [z|] eqn:Hlast.
  - apply number_lines_total.
  - by apply last_None in Hlast.
Qed.

(** A zero-width atom that is in the display buffer stays in it. *)
Lemma number_line_keeps_synthetic (b : Buffer) db coord db' g :
  number_line b db coord = Ok db' → g ∈ db → is_real g = false → g ∈ db'.
Proof.
  intros Hrun Hg Hz.
  destruct (db !! atom_containing db (iterator_at b coord) 0) as [a|] eqn:Hi.
  - apply list_elem_of_split_length in Hi as (pre & rest & -> & Hi).
    rewrite (number_line_zip _ _ _ _ _ Hi) in Hrun.
    destruct (atom_containing_found _ _ _ _ a Hi (lookup_zip _ _ _)) as [Hc _].
    apply contains_spec in Hc.
    assert (g ≠ a) as Hne.
    { intros ->. unfold is_real in Hz. apply Nat.ltb_ge in Hz. lia. }
    apply elem_of_app in Hg as [Hg|Hg]; [|apply elem_of_cons in Hg as [->|Hg]];
      [|done|];
      repeat case_match; injection Hrun as <-; rewrite ?elem_of_app, ?elem_of_cons;
      tauto.
  - unfold number_line in Hrun. rewrite Hi in Hrun. by injection Hrun as <-.
Qed.

Lemma number_lines_keeps_synthetic (b : Buffer) n db coord db' g :
  number_lines n b db coord = Ok db' → g ∈ db → is_real g = false → g ∈ db'.
Proof.
  revert db coord. induction n as [|n IH]; intros db coord Hrun Hg Hz.
  - by injection Hrun as <-.
  - cbn [number_lines] in Hrun. apply bind_Ok in Hrun as (db1 & H1 & Hrun).
    eapply IH; [done| |done]. by eapply number_line_keeps_synthetic.
Qed.

(** ** The regex colorizer *)

(** A non-empty match whose begin and end are found in the atom [a] under
    the iterator. *)
Lemma colorize_match_zip color pre a rest hint mbegin mend :
  atom_containing (pre ++ a :: rest) mbegin hint = length pre →
  atom_containing (pre ++ a :: rest) mend hint = length pre →
  mbegin < mend → splitable a = true →
  colorize_match color (pre ++ a :: rest) hint (mbegin, mend)
  = Ok ((pre ++ (if a_begin a =? mbegin then []
                 else [set_range a (a_begin a) mbegin]))
          ++ set_fg color (set_range a mbegin mend)
          :: set_range a mend (a_end a) :: rest,
        length (pre ++ (if a_begin a =? mbegin then []
                        else [set_range a (a_begin a) mbegin]))).
Proof.
  intros Hb He Hlt Hs.
  destruct (atom_containing_found _ _ _ _ a Hb (lookup_zip _ _ _)) as [Hcb _].
  destruct (atom_containing_found _ _ _ _ a He (lookup_zip _ _ _)) as [Hce _].
  apply contains_spec in Hcb, Hce.
  unfold colorize_match, mbind, result_bind. cbn [fst snd].
  rewrite Hb, He, Nat.eqb_refl.
  rewrite deref_zip. cbn beta iota.
  destruct (Nat.eqb_spec (a_begin a) mbegin) as [Heq|Hneq]; cbn [negb].
  - rewrite deref_zip. cbn beta iota.
    assert ((a_end a =? mend) = false) as -> by (apply Nat.eqb_neq; lia).
    cbn [negb]. rewrite split_zip_interior by lia. rewrite Hs.
    cbn beta iota. rewrite deref_zip. cbn beta iota.
    rewrite alter_zip, app_nil_r. by rewrite Heq.
  - rewrite split_zip_interior by lia. rewrite Hs. cbn beta iota.
    rewrite (zip_next pre), <- (length_snoc pre (set_range a (a_begin a) mbegin)).
    rewrite deref_zip. cbn beta iota; cbn [set_range a_end].
    assert ((a_end a =? mend) = false) as -> by (apply Nat.eqb_neq; lia).
    cbn [negb]. rewrite split_zip_interior by (cbn; lia).
    cbn [set_range splitable]. rewrite Hs.
    cbn beta iota. rewrite deref_zip. cbn beta iota.
    by rewrite alter_zip.
Qed.

Lemma real_splitable_app db1 db2 :
  real_splitable (db1 ++ db2) ↔ real_splitable db1 ∧ real_splitable db2.
Proof.
  unfold real_splitable. split.
  - intros H. split; intros x Hin; apply H; apply elem_of_app; tauto.
  - intros [H1 H2] x [Hin|Hin]%elem_of_app; auto.
Qed.

(** One match of a run of matches in order: the body of the loop goes
    through, and leaves the display buffer and the hint fit for the next
    match. *)
Lemma colorize_match_total color db lo hi hint mbegin mend :
  covers db lo hi → real_splitable db → hint_behind db hint mbegin →
  lo ≤ mbegin → mbegin < mend → mend ≤ hi →
  ∃ db' hint',
    colorize_match color db hint (mbegin, mend) = Ok (db', hint')
    ∧ covers db' lo hi ∧ real_splitable db' ∧ hint_behind db' hint' mbegin.
Proof.
  intros Hc Hsp Hh Hlo Hlt Hhi.
  destruct (proj2 (covers_covered db lo hi mbegin Hc)) as (a & Hin & Hca);
    [lia|].
  apply list_elem_of_lookup_1 in Hin as [i Hi].
  assert (hint ≤ i) as Hle.
  { destruct (decide (hint ≤ i)) as [|Hgt]; [done|].
    apply contains_spec in Hca. specialize (Hh i a Hi). lia. }
  pose proof (atom_containing_unique _ _ _ _ _ _ _ Hc Hle Hi Hca) as Hb.
  assert (hint_behind db i mbegin) as Hbehind.
  { intros j x Hj Hlt'. apply contains_spec in Hca.
    pose proof (covers_lookup_lt _ _ _ _ _ _ _ Hc Hj Hi Hlt'). lia. }
  destruct (decide (mend < a_end a)) as [Hinside|Houtside].
  - assert (contains mend a = true) as Hce
      by (apply contains_spec in Hca; apply contains_spec; lia).
    pose proof (atom_containing_unique _ _ _ _ _ _ _ Hc Hle Hi Hce) as He.
    assert (splitable a = true) as Hs.
    { apply Hsp; [by eapply list_elem_of_lookup_2|].
      apply is_real_spec. apply contains_spec in Hca. lia. }
    apply list_elem_of_split_length in Hi as (pre & rest & -> & ->).
    eexists _, _. split; [by apply colorize_match_zip|].
    apply contains_spec in Hca.
    apply covers_app in Hc as (mid & Hc1 & Hmid & Ha & Hc2).
    apply real_splitable_app in Hsp as [Hsp1 Hsp2].
    apply real_splitable_cons in Hsp2 as [_ Hsp2].
    split; [|split].
    + rewrite <- app_assoc. apply covers_app. exists mid. split; [done|].
      destruct (Nat.eqb_spec (a_begin a) mbegin); cbn; repeat split;
        (done || lia).
    + rewrite <- app_assoc. apply real_splitable_app. split; [done|].
      destruct (a_begin a =? mbegin); cbn [app];
        repeat (apply real_splitable_cons; split; [done|]); done.
    + intros j x Hj Hlt'.
      rewrite lookup_app_l in Hj by done.
      apply lookup_app_Some in Hj as [Hj|[Hge Hj]].
      * apply (Hbehind j x); [by apply lookup_app_l_Some|].
        by apply lookup_lt_Some in Hj.
      * destruct (a_begin a =? mbegin); [by destruct (j - length pre)|].
        destruct (j - length pre) as [|[|?]]; [|done..].
        injection Hj as <-. by cbn.
  - assert (atom_containing db mend hint ≠ i) as Hne.
    { intros He. destruct (atom_containing_found _ _ _ _ a He Hi) as [Hce _].
      apply contains_spec in Hce. lia. }
    exists db, i. split; [|done].
    unfold colorize_match. cbn [fst snd]. rewrite Hb.
    by assert ((i =? atom_containing db mend hint) = false) as ->
      by (apply Nat.eqb_neq; congruence).
Qed.

(** The loop over matches in order goes through. *)
Lemma colorize_matches_total color ms db lo hi hint :
  covers db lo hi → real_splitable db → matches_in_order lo hi ms →
  (∀ m, m ∈ ms → hint_behind db hint m.1) →
  ∃ db', colorize_matches color db hint ms = Ok db'.
Proof.
  revert db hint. induction ms as [|[mbegin mend] ms IH];
    intros db hint Hc Hsp [Hin Hord] Hh; [by eexists|].
  apply Forall_cons in Hin as [(Hlo & Hlt & Hhi) Hin]. cbn [fst snd] in *.
  apply StronglySorted_inv in Hord as [Hord Hnext].
  destruct (colorize_match_total color db lo hi hint mbegin mend)
    as (db1 & hint1 & Hrun & Hc1 & Hsp1 & Hh1);
    [done|done|by apply (Hh (mbegin, mend)); left|done|done|done|].
  cbn [colorize_matches]. rewrite Hrun. cbn [mbind result_bind].
  apply (IH db1 hint1); [done..|by split|].
  intros m Hm i a Hi Hlt'. specialize (Hh1 i a Hi Hlt').
  pose proof (proj1 (Forall_forall _ _) Hnext m Hm) as Hm'. simpl in *. lia.
Qed.

Lemma covers_display_ends db lo hi :
  covers db lo hi → db ≠ [] →
  display_begin db = Ok lo ∧ display_end db = Ok hi.
Proof.
  intros Hc Hne. split.
  - destruct db as [|a db]; [done|]. destruct Hc as (<- & _). done.
  - unfold display_end. destruct (last db) as [z|] eqn:Hz;
      [|by apply last_None in Hz].
    apply last_Some in Hz as [l' ->].
    apply covers_app in Hc as (mid & _ & _ & _ & ->). done.
Qed.

(** On a display buffer with atoms that satisfies the partition invariants
    and has its real atoms splitable, and with the matches the engine is
    relied on to give, the colorizer completes. *)
Lemma colorize_regex_total db lo hi (ex : regex) color :
  covers db lo hi → db ≠ [] → real_splitable db →
  matches_in_order lo hi (ex lo hi) →
  ∃ db', colorize_regex db ex color = Ok db'.
Proof.
  intros Hc Hne Hsp Hms. unfold colorize_regex.
  destruct (covers_display_ends _ _ _ Hc Hne) as [-> ->].
  cbn [mbind result_bind].
  apply (colorize_matches_total color _ db lo hi 0); [done..|].
  intros m _ i a _ Hlt. lia.
Qed.

(** ** The iterator that [split] hands back *)

Lemma colorize_match_with_split color db atom_it m :
  colorize_match_with split color db atom_it m = colorize_match color db atom_it m.
Proof. reflexivity. Qed.

Lemma splits_like_split : splits_like split.
Proof.
  intros db i pos. destruct (split db i pos) as [[db' it]|f] eqn:Hs; [|done].
  exists it. split; [done|by left].
Qed.

Lemma splits_like_split_returning_right : splits_like split_returning_right.
Proof.
  intros db i pos. unfold split_returning_right.
  destruct (split db i pos) as [[db' it]|f] eqn:Hs; [|done].
  exists (S it). split; [done|by right].
Qed.

Lemma lookup_zip_next done a a' rest :
  (done ++ a :: a' :: rest) !! S (length done) = Some a'.
Proof. rewrite zip_next, <- (length_snoc done a). apply lookup_zip. Qed.

Lemma alter_zip_next (f : DisplayAtom → DisplayAtom) done a a' rest :
  alter f (S (length done)) (done ++ a :: a' :: rest)
  = done ++ a :: f a' :: rest.
Proof.
  rewrite (zip_next done), <- (length_snoc done a), alter_zip.
  by rewrite <- app_assoc.
Qed.

Lemma set_range_set_range a x y x' y' :
  set_range (set_range a x y) x' y' = set_range a x' y'.
Proof. reflexivity. Qed.

Lemma sweep_with_end split_fn fuel db atom_it sels :
  db !! atom_it = None → sweep_with split_fn fuel db atom_it sels = Ok db.
Proof. intros H. destruct fuel; simpl; by rewrite H. Qed.

Lemma sweep_with_no_selection split_fn fuel db atom_it :
  sweep_with split_fn fuel db atom_it [] = Ok db.
Proof. destruct fuel; simpl; by destruct (db !! atom_it). Qed.

Lemma underlined_differs a : underlined a = false → add_underline a ≠ a.
Proof.
  intros Hu Heq. rewrite <- Heq in Hu. by rewrite underlined_add_underline in Hu.
Qed.

Lemma set_fg_differs color a : fg_color a ≠ color → set_fg color a ≠ a.
Proof. intros Hne Heq. apply Hne. by rewrite <- Heq. Qed.

Section call_sites.
Variable split_fn :
  DisplayBuffer → iterator → BufferIterator → result (DisplayBuffer * iterator).
Hypothesis split_fn_like : splits_like split_fn.

(** A call on the atom under the iterator, at a position inside it. *)
Lemma split_fn_zip done a rest pos :
  a_begin a < pos < a_end a → splitable a = true →
  ∃ it,
    split_fn (done ++ a :: rest) (length done) pos
    = Ok (done ++ set_range a (a_begin a) pos
            :: set_range a pos (a_end a) :: rest, it)
    ∧ (it = length done ∨ it = S (length done)).
Proof.
  intros Hp Hs. pose proof (split_fn_like (done ++ a :: rest) (length done) pos)
    as H.
  by rewrite split_zip in H.
Qed.

(** Any call leaves the atoms before the iterator as they were, and hands
    back no iterator before it. *)
Lemma split_fn_inv db i pos db' it :
  split_fn db i pos = Ok (db', it) →
  i ≤ it ∧ ∀ k, k < i → db' !! k = db !! k.
Proof.
  intros Hrun. pose proof (split_fn_like db i pos) as H.
  destruct (split db i pos) as [[d it0]|f] eqn:Hs; [|congruence].
  destruct H as (it' & Hrun' & Hit). rewrite Hrun in Hrun'.
  injection Hrun' as -> ->.
  apply split_inv in Hs as (a & Hi & _ & _ & -> & ->).
  split; [lia|]. intros k Hk. apply lookup_lt_Some in Hi.
  rewrite lookup_app_l by (rewrite length_take; lia).
  by apply lookup_take_lt.
Qed.

(** The case drawn as [[###------]], lines 177 to 183: the head of the atom
    is the part underlined exactly when the call of line 179 hands back
    the iterator of the left part. *)
Lemma sweep_head_call_site fuel done a rest s :
  splitable a = true → underlined a = false →
  sel_begin s ≤ a_begin a → a_begin a < sel_end s → sel_end s < a_end a →
  sweep_with split_fn (S fuel) (done ++ a :: rest) (length done) [s]
  = Ok (done ++ add_underline (set_range a (a_begin a) (sel_end s))
          :: set_range a (sel_end s) (a_end a) :: rest)
  ↔ returns_left split_fn (done ++ a :: rest) (length done) (sel_end s).
Proof.
  intros Hs Hu Hb Hin He.
  destruct (split_fn_zip done a rest (sel_end s)) as (it & Hcall & Hit);
    [lia|done|].
  cbn [sweep_with]. rewrite lookup_zip.
  destruct (case_head_reflect a s) as [_|Hno]; [|lia].
  rewrite Hcall. unfold returns_left. rewrite Hcall.
  destruct Hit as [-> | ->].
  - rewrite lookup_zip, alter_zip, sweep_with_no_selection.
    split; [by eexists|done].
  - rewrite lookup_zip_next, sweep_with_no_selection, alter_zip_next. split.
    + intros [= Heq%app_inv_head]. exfalso.
      apply (underlined_differs (set_range a (a_begin a) (sel_end s)));
        [exact Hu|congruence].
    + intros (d & [= _ Hbad]). lia.
Qed.

(** The case drawn as [[---###---]], lines 185 to 192: the stretch of the
    selection is the part underlined exactly when the calls of lines 187
    and 188 both hand back the iterator of the left part. *)
Lemma sweep_middle_call_sites fuel done a rest s :
  splitable a = true → underlined a = false →
  a_begin a < sel_begin s → sel_begin s < sel_end s → sel_end s < a_end a →
  sweep_with split_fn (S fuel) (done ++ a :: rest) (length done) [s]
  = Ok (done ++ set_range a (a_begin a) (sel_begin s)
          :: add_underline (set_range a (sel_begin s) (sel_end s))
          :: set_range a (sel_end s) (a_end a) :: rest)
  ↔ returns_left split_fn (done ++ a :: rest) (length done) (sel_begin s)
    ∧ returns_left split_fn
        (done ++ set_range a (a_begin a) (sel_begin s)
           :: set_range a (sel_begin s) (a_end a) :: rest)
        (S (length done)) (sel_end s).
Proof.
  intros Hs Hu Hb Hlt He.
  destruct (split_fn_zip done a rest (sel_begin s)) as (it1 & Hcall1 & Hit1);
    [lia|done|].
  destruct (split_fn_zip (done ++ [set_range a (a_begin a) (sel_begin s)])
              (set_range a (sel_begin s) (a_end a)) rest (sel_end s))
    as (it2 & Hcall2 & Hit2); [cbn; lia|done|].
  rewrite length_snoc, <- !app_assoc in Hcall2. cbn [app] in Hcall2.
  change (a_begin (set_range a (sel_begin s) (a_end a))) with (sel_begin s)
    in Hcall2.
  change (a_end (set_range a (sel_begin s) (a_end a))) with (a_end a) in Hcall2.
  rewrite !set_range_set_range in Hcall2. rewrite length_snoc in Hit2.
  cbn [sweep_with]. rewrite lookup_zip.
  destruct (case_head_reflect a s) as [Hyes|_]; [lia|].
  destruct (case_middle_reflect a s) as [_|Hno]; [|lia].
  rewrite Hcall1. unfold returns_left. rewrite Hcall1.
  destruct Hit1 as [-> | ->].
  - rewrite Hcall2. destruct Hit2 as [-> | ->].
    + rewrite lookup_zip_next, sweep_with_no_selection, alter_zip_next.
      split; [intros _; split; by eexists|done].
    + rewrite (zip_next done (set_range a (a_begin a) (sel_begin s))).
      rewrite <- (length_snoc done (set_range a (a_begin a) (sel_begin s))).
      rewrite lookup_zip_next, sweep_with_no_selection, alter_zip_next.
      rewrite <- !app_assoc. cbn [app]. split.
      * intros [= Heq%app_inv_head]. exfalso.
        apply (underlined_differs (set_range a (sel_begin s) (sel_end s)));
          [exact Hu|congruence].
      * intros [_ (d & [= _ Hbad])]. lia.
  - split; [|intros [(d & [= _ Hbad]) _]; lia].
    destruct (split_fn _ (S (S (length done))) (sel_end s))
      as [[db2 it2']|f] eqn:Hcall; [|done].
    apply split_fn_inv in Hcall as [Hle Hsame].
    destruct (db2 !! it2') as [x|]; [|done].
    rewrite sweep_with_no_selection. intros [= Heq].
    apply (f_equal (λ l, l !! S (length done))) in Heq.
    rewrite list_lookup_alter_ne, Hsame, !lookup_zip_next in Heq by lia.
    injection Heq. intros. lia.
Qed.

(** The case drawn as [[------###]], lines 194 to 199, on the last atom:
    the tail of the atom is the part underlined exactly when the call of
    line 196 hands back the iterator of the left part, which the call site
    then increments. *)
Lemma sweep_tail_call_site fuel done a s :
  splitable a = true → underlined a = false →
  a_begin a < sel_begin s → sel_begin s < a_end a → a_end a ≤ sel_end s →
  sweep_with split_fn (S fuel) (done ++ [a]) (length done) [s]
  = Ok (done ++ [set_range a (a_begin a) (sel_begin s);
                 add_underline (set_range a (sel_begin s) (a_end a))])
  ↔ returns_left split_fn (done ++ [a]) (length done) (sel_begin s).
Proof.
  intros Hs Hu Hb Hin He.
  destruct (split_fn_zip done a [] (sel_begin s)) as (it & Hcall & Hit);
    [lia|done|].
  cbn [sweep_with]. rewrite lookup_zip.
  destruct (case_head_reflect a s) as [Hyes|_]; [lia|].
  destruct (case_middle_reflect a s) as [Hyes|_]; [lia|].
  destruct (case_tail_reflect a s) as [_|Hno]; [|lia].
  rewrite Hcall. unfold returns_left. rewrite Hcall.
  destruct Hit as [-> | ->].
  - rewrite lookup_zip_next, alter_zip_next.
    rewrite sweep_with_end
      by (apply lookup_ge_None; rewrite length_app; simpl; lia).
    split; [by eexists|done].
  - rewrite (proj2 (lookup_ge_None _ _))
      by (rewrite length_app; simpl; lia).
    split; [done|]. intros (d & [= _ Hbad]). lia.
Qed.

(** The match found in one atom, after the begin of the atom, lines 27 to
    35: the atom colored is the stretch of the match exactly when the
    calls of lines 30 and 32 both hand back the iterator of the left
    part. *)
Lemma colorize_call_sites color done a rest hint mbegin mend :
  atom_containing (done ++ a :: rest) mbegin hint = length done →
  atom_containing (done ++ a :: rest) mend hint = length done →
  splitable a = true → fg_color a ≠ color →
  a_begin a < mbegin → mbegin < mend →
  (∃ it,
     colorize_match_with split_fn color (done ++ a :: rest) hint (mbegin, mend)
     = Ok (done ++ set_range a (a_begin a) mbegin
             :: set_fg color (set_range a mbegin mend)
             :: set_range a mend (a_end a) :: rest, it))
  ↔ returns_left split_fn (done ++ a :: rest) (length done) mbegin
    ∧ returns_left split_fn
        (done ++ set_range a (a_begin a) mbegin
           :: set_range a mbegin (a_end a) :: rest)
        (S (length done)) mend.
Proof.
  intros Hb He Hs Hfg Hlt1 Hlt.
  destruct (atom_containing_found _ _ _ _ a He (lookup_zip _ _ _)) as [Hce _].
  apply contains_spec in Hce.
  destruct (split_fn_zip done a rest mbegin) as (it1 & Hcall1 & Hit1);
    [lia|done|].
  destruct (split_fn_zip (done ++ [set_range a (a_begin a) mbegin])
              (set_range a mbegin (a_end a)) rest mend)
    as (it2 & Hcall2 & Hit2); [cbn; lia|done|].
  rewrite length_snoc, <- !app_assoc in Hcall2. cbn [app] in Hcall2.
  change (a_begin (set_range a mbegin (a_end a))) with mbegin in Hcall2.
  change (a_end (set_range a mbegin (a_end a))) with (a_end a) in Hcall2.
  rewrite !set_range_set_range in Hcall2. rewrite length_snoc in Hit2.
  unfold colorize_match_with, mbind, result_bind. cbn [fst snd].
  rewrite Hb, He, Nat.eqb_refl, deref_zip. cbn beta iota.
  assert ((a_begin a =? mbegin) = false) as -> by (apply Nat.eqb_neq; lia).
  cbn [negb]. rewrite Hcall1. cbn beta iota.
  unfold returns_left. rewrite Hcall1. unfold deref.
  destruct Hit1 as [-> | ->].
  - rewrite lookup_zip_next. cbn beta iota.
    change (a_end (set_range a mbegin (a_end a))) with (a_end a).
    assert ((a_end a =? mend) = false) as -> by (apply Nat.eqb_neq; lia).
    cbn [negb]. rewrite Hcall2. cbn beta iota.
    destruct Hit2 as [-> | ->].
    + rewrite lookup_zip_next, alter_zip_next.
      split; [intros _; split; by eexists|by eexists].
    + rewrite (zip_next done (set_range a (a_begin a) mbegin)).
      rewrite <- (length_snoc done (set_range a (a_begin a) mbegin)).
      rewrite lookup_zip_next, alter_zip_next.
      rewrite <- !app_assoc. cbn [app]. split.
      * intros (it & [= Heq%app_inv_head _]). exfalso.
        apply (set_fg_differs color (set_range a mbegin mend));
          [exact Hfg|congruence].
      * intros [_ (d & [= _ Hbad])]. lia.
  - split; [|intros [(d & [= _ Hbad]) _]; lia].
    intros (it & Hrun). exfalso.
    assert (∀ db2 it2', (∀ k, k < S (S (length done)) →
                           db2 !! k
                           = (done ++ set_range a (a_begin a) mbegin
                                :: set_range a mbegin (a_end a) :: rest) !! k) →
              S (S (length done)) ≤ it2' →
              alter (set_fg color) it2' db2
              ≠ done ++ set_range a (a_begin a) mbegin
                  :: set_fg color (set_range a mbegin mend)
                  :: set_range a mend (a_end a) :: rest) as Hdiffer.
    { intros db2 it2' Hsame Hle Heq.
      apply (f_equal (λ l, l !! S (length done))) in Heq.
      rewrite list_lookup_alter_ne, Hsame, !lookup_zip_next in Heq by lia.
      injection Heq. intros. lia. }
    destruct (_ !! S (S (length done))) as [r|]; [|done].
    destruct (negb (a_end r =? mend)).
    + destruct (split_fn _ (S (S (length done))) mend)
        as [[db2 it2']|f] eqn:Hcall; [|done].
      apply split_fn_inv in Hcall as [Hle Hsame].
      destruct (db2 !! it2') as [x|]; [|done].
      injection Hrun as Hrun _. by apply Hdiffer in Hrun.
    + destruct (_ !! S (S (length done))) as [x|]; [|done].
      injection Hrun as Hrun _. by apply Hdiffer in Hrun.
Qed.

End call_sites.

(** ** The text of a tab *)

Lemma spaces_length count : String.length (spaces count) = count.
Proof. induction count as [|count IH]; simpl; [done|by rewrite IH]. Qed.

Lemma spaces_get count i c : String.get i (spaces count) = Some c → c = " "%char.
Proof.
  revert i. induction count as [|count IH]; intros i; [done|].
  destruct i as [|i]; cbn [spaces String.get]; [congruence|apply IH].
Qed.

(** * The claims *)

(** C1: when a filter has run on a display buffer that satisfies the
    partition invariants, the outcome satisfies them too: its real atoms
    are in strictly increasing order of begin, no two of them share a
    position, and the positions they cover are those covered before. *)
Theorem filters_keep_partition db db' :
  partition_inv db → filter_run db db' →
  partition_inv db'
  ∧ ordered_by_begin db'
  ∧ non_overlapping db'
  ∧ (∀ p, covered db' p ↔ covered db p).
Proof.
  intros (lo & hi & Hc) Hrun.
  assert (covers db' lo hi) as Hc'
    by (eapply covers_edits; [by apply filter_run_edits|done]).
  split; [by exists lo, hi|].
  split; [by eapply covers_ordered|].
  split; [by eapply covers_non_overlapping|].
  intros p. by rewrite (covers_covered db' lo hi), (covers_covered db lo hi).
Qed.

Lemma filters_keep_partition_witness :
  let db := [new_atom 0 10 Default Default] in
  let db' := [new_atom 0 3 Default Default;
              add_underline (new_atom 3 7 Default Default);
              new_atom 7 10 Default Default] in
  partition_inv db ∧ filter_run db db'
  ∧ partition_inv db' ∧ ordered_by_begin db' ∧ non_overlapping db'
  ∧ (∀ p, covered db' p ↔ covered db p).
Proof.
  intros db db'.
  assert (partition_inv db) as Hinv.
  { exists 0, 10. simpl. repeat split; lia. }
  assert (filter_run db db') as Hrun.
  { apply (run_SelectionsHighlighter db db' [mkSelection 3 7]). reflexivity. }
  split; [exact Hinv|]. split; [exact Hrun|].
  exact (filters_keep_partition db db' Hinv Hrun).
Defined.

(** C2, amended: for an atom that may be split and a position strictly
    inside its range, [split] replaces the atom with [[begin,position)] and
    [[position,end)], each with the style of the original, and hands back
    the iterator of one of the two.  At the call sites of the filters that
    iterator designates the FIRST (left) part: whatever [split] is, as long
    as it leaves those atoms, the highlighter underlines the head of the
    atom (line 179), the stretch of the selection (lines 187 and 188) and
    the tail of the atom (line 196, shown on the last atom), and the
    colorizer colors the stretch of the match (lines 30 and 32), exactly
    when each of these calls hands back the iterator of the left part; the
    right part is reached by incrementing it. *)
Theorem call_sites_take_the_left_part split_fn fuel pre a rest :
  splits_like split_fn → splitable a = true →
  (∀ pos, a_begin a < pos < a_end a →
     ∃ l r it,
       split_fn (pre ++ a :: rest) (length pre) pos
       = Ok (pre ++ l :: r :: rest, it)
       ∧ (a_begin l = a_begin a ∧ a_end l = pos ∧ style l = style a)
       ∧ (a_begin r = pos ∧ a_end r = a_end a ∧ style r = style a)
       ∧ (it = length pre ∨ it = S (length pre)))
  ∧ (∀ s, underlined a = false →
       sel_begin s ≤ a_begin a → a_begin a < sel_end s → sel_end s < a_end a →
       sweep_with split_fn (S fuel) (pre ++ a :: rest) (length pre) [s]
       = Ok (pre ++ add_underline (set_range a (a_begin a) (sel_end s))
               :: set_range a (sel_end s) (a_end a) :: rest)
       ↔ returns_left split_fn (pre ++ a :: rest) (length pre) (sel_end s))
  ∧ (∀ s, underlined a = false →
       a_begin a < sel_begin s → sel_begin s < sel_end s → sel_end s < a_end a →
       sweep_with split_fn (S fuel) (pre ++ a :: rest) (length pre) [s]
       = Ok (pre ++ set_range a (a_begin a) (sel_begin s)
               :: add_underline (set_range a (sel_begin s) (sel_end s))
               :: set_range a (sel_end s) (a_end a) :: rest)
       ↔ returns_left split_fn (pre ++ a :: rest) (length pre) (sel_begin s)
         ∧ returns_left split_fn
             (pre ++ set_range a (a_begin a) (sel_begin s)
                :: set_range a (sel_begin s) (a_end a) :: rest)
             (S (length pre)) (sel_end s))
  ∧ (∀ s, underlined a = false → rest = [] →
       a_begin a < sel_begin s → sel_begin s < a_end a → a_end a ≤ sel_end s →
       sweep_with split_fn (S fuel) (pre ++ a :: rest) (length pre) [s]
       = Ok (pre ++ [set_range a (a_begin a) (sel_begin s);
                     add_underline (set_range a (sel_begin s) (a_end a))])
       ↔ returns_left split_fn (pre ++ a :: rest) (length pre) (sel_begin s))
  ∧ (∀ color hint mbegin mend,
       atom_containing (pre ++ a :: rest) mbegin hint = length pre →
       atom_containing (pre ++ a :: rest) mend hint = length pre →
       fg_color a ≠ color → a_begin a < mbegin → mbegin < mend →
       (∃ it,
          colorize_match_with split_fn color (pre ++ a :: rest) hint
            (mbegin, mend)
          = Ok (pre ++ set_range a (a_begin a) mbegin
                  :: set_fg color (set_range a mbegin mend)
                  :: set_range a mend (a_end a) :: rest, it))
       ↔ returns_left split_fn (pre ++ a :: rest) (length pre) mbegin
         ∧ returns_left split_fn
             (pre ++ set_range a (a_begin a) mbegin
                :: set_range a mbegin (a_end a) :: rest)
             (S (length pre)) mend).
Proof.
  intros Hlike Hs. split; [|split; [|split; [|split]]].
  - intros pos Hp.
    destruct (split_fn_zip split_fn Hlike pre a rest pos) as (it & Hcall & Hit);
      [done..|].
    by exists (set_range a (a_begin a) pos), (set_range a pos (a_end a)), it.
  - intros s Hu Hb Hin He. by apply sweep_head_call_site.
  - intros s Hu Hb Hlt He. by apply sweep_middle_call_sites.
  - intros s Hu -> Hb Hin He. by apply sweep_tail_call_site.
  - intros color hint mbegin mend Hb He Hfg Hlt1 Hlt.
    by apply colorize_call_sites.
Qed.

Lemma call_sites_take_the_left_part_witness :
  let a := new_atom 0 10 Default Default in
  splits_like split ∧ splitable a = true
  ∧ returns_left split [a] 0 3
  ∧ returns_left split [set_range a 0 3; set_range a 3 10] 1 7.
Proof.
  intros a.
  destruct (call_sites_take_the_left_part split 1 [] a [] splits_like_split
              eq_refl) as (_ & _ & Hmiddle & _ & _).
  split; [exact splits_like_split|]. split; [reflexivity|].
  apply (Hmiddle (mkSelection 3 7)).
  - reflexivity.
  - simpl. lia.
  - simpl. lia.
  - simpl. lia.
  - reflexivity.
Defined.

(** C2 as stated fails: no [split] whose iterator designates the right
    part lets the call sites of lines 187 and 188 make of the atom
    [[0,10)] and the selection [[3,7)] the three atoms [[0,3)], [[3,7)],
    [[7,10)] with the middle one underlined, which is what the highlighter
    makes of them. *)
Lemma right_part_fails_the_call_sites :
  ¬ ∃ split_fn,
      splits_like split_fn
      ∧ (∀ db i pos db' it, split_fn db i pos = Ok (db', it) → it = S i)
      ∧ sweep_with split_fn 2 [new_atom 0 10 Default Default] 0 [mkSelection 3 7]
        = Ok [new_atom 0 3 Default Default;
              add_underline (new_atom 3 7 Default Default);
              new_atom 7 10 Default Default].
Proof.
  intros (split_fn & Hlike & Hright & Hrun).
  apply (sweep_middle_call_sites split_fn Hlike 1 []
           (new_atom 0 10 Default Default) [] (mkSelection 3 7)) in Hrun
    as [(d & Hd) _]; [|reflexivity|reflexivity|simpl; lia..].
  apply Hright in Hd. discriminate Hd.
Qed.

(** Run over the [split] of section 4.1 read to the letter, the sweep of
    the highlighter takes the first split of the middle case past the last
    atom and stops there, on the very example the specification gives for
    it, and the colorizer does the same on a match inside the only atom. *)
Lemma right_reading_breaks_the_sweep :
  sweep_with split_returning_right 2 [new_atom 0 10 Default Default] 0
    [mkSelection 3 7] = Fail PastTheEnd.
Proof. reflexivity. Qed.

Lemma right_reading_breaks_the_colorizer :
  colorize_match_with split_returning_right Red
    [new_atom 0 10 Default Default] 0 (2, 4) = Fail PastTheEnd.
Proof. reflexivity. Qed.

(** C3, amended: for a display buffer that tiles [[lo,hi)] and the
    selections in any order [std::sort] may leave them, when the highlighter
    completes the outcome tiles the same range; every position of the range
    that lies inside some selection lies in an underlined atom; every atom of
    the outcome is a stretch of an atom of the input, cut only at selection
    boundaries, with its foreground, background, content and splitable flag
    unchanged and the underline added only where the stretch lies wholly
    inside a selection.  With non-empty selections and splitable real atoms
    the highlighter does complete.  The atom [[0,10)] with the selection
    [[3,7)] gives [[0,3)], [[3,7)], [[7,10)], the middle one alone
    underlined. *)
Theorem highlighter_underlines_selections selections sorted db lo hi :
  covers db lo hi → sorted_by_begin selections sorted →
  (∀ db', highlight_sorted db sorted = Ok db' →
     covers db' lo hi
     ∧ (∀ p sel, sel ∈ selections → selected p sel → lo ≤ p < hi →
          ∃ a', a' ∈ db' ∧ contains p a' = true ∧ underlined a' = true)
     ∧ (∀ a', a' ∈ db' → ∃ a, a ∈ db ∧ piece_of selections a' a))
  ∧ (real_splitable db → Forall non_empty selections →
     ∃ db', highlight_sorted db sorted = Ok db')
  ∧ (SelectionsHighlighter [mkSelection 3 7] [new_atom 0 10 Default Default]
     = Ok [new_atom 0 3 Default Default;
           add_underline (new_atom 3 7 Default Default);
           new_atom 7 10 Default Default]
     ∧ underlined (new_atom 0 3 Default Default) = false
     ∧ underlined (add_underline (new_atom 3 7 Default Default)) = true
     ∧ underlined (new_atom 7 10 Default Default) = false).
Proof.
  intros Hc [Hperm Hsort]. split; [|split; [|done]].
  - intros db' Hrun. unfold highlight_sorted in Hrun.
    apply (sweep_zip_post selections _ [] db sorted lo hi) in Hrun
      as (todo' & -> & Hcov & Hu & Hp); [|done..|].
    + repeat split; [done| |done].
      intros p sel Hin. apply Hu. by rewrite Hperm.
    + intros sel Hin. by rewrite <- Hperm.
  - intros Hsp Hne. unfold highlight_sorted.
    apply (sweep_zip_total _ [] db sorted); [lia|done|by rewrite Hperm].
Qed.

Lemma highlighter_underlines_selections_witness :
  covers [new_atom 0 10 Default Default] 0 10
  ∧ sorted_by_begin [mkSelection 3 7] [mkSelection 3 7]
  ∧ ∃ db', highlight_sorted [new_atom 0 10 Default Default] [mkSelection 3 7]
           = Ok db'
           ∧ ∃ a', a' ∈ db' ∧ contains 5 a' = true ∧ underlined a' = true.
Proof.
  assert (covers [new_atom 0 10 Default Default] 0 10) as Hc.
  { simpl. repeat split; lia. }
  assert (sorted_by_begin [mkSelection 3 7] [mkSelection 3 7]) as Hs.
  { split; [reflexivity|repeat constructor]. }
  split; [exact Hc|]. split; [exact Hs|].
  destruct (highlighter_underlines_selections _ _ _ _ _ Hc Hs)
    as (Hpost & Htotal & _).
  destruct Htotal as [db' Hrun].
  { intros a [->|Hin]%elem_of_cons; [reflexivity|by apply elem_of_nil in Hin]. }
  { repeat constructor. }
  exists db'. split; [exact Hrun|].
  destruct (Hpost db' Hrun) as (_ & Hu & _).
  apply (Hu 5 (mkSelection 3 7)).
  - by left.
  - unfold selected. simpl. lia.
  - lia.
Defined.

(** C3 as stated fails where it has atoms split at every selection boundary
    interior to them: with the selections [[0,10)] and [[2,5)] on the atom
    [[0,20)] the only cut is at 10; nothing begins at 2. *)
Lemma highlighter_leaves_inner_boundary_uncut :
  ¬ (∀ selections db db',
       partition_inv db →
       Forall (λ sel, sel_begin sel ≤ sel_end sel) selections →
       SelectionsHighlighter selections db = Ok db' →
       ∀ a p, a ∈ db → a_begin a < p < a_end a →
              selection_boundary selections p →
              ∃ a', a' ∈ db' ∧ a_begin a' = p).
Proof.
  intros H.
  destruct (H [mkSelection 0 10; mkSelection 2 5]
              [new_atom 0 20 Default Default]
              [add_underline (new_atom 0 10 Default Default);
               new_atom 10 20 Default Default])
    with (a := new_atom 0 20 Default Default) (p := 2)
    as (a' & Hin & Hb).
  - exists 0, 20. simpl. repeat split; lia.
  - repeat constructor; simpl; lia.
  - reflexivity.
  - by left.
  - simpl. lia.
  - exists (mkSelection 2 5). split; [right; by left|by left].
  - apply elem_of_cons in Hin as [->|Hin]; [discriminate Hb|].
    apply elem_of_cons in Hin as [->|Hin]; [discriminate Hb|].
    by apply elem_of_nil in Hin.
Qed.

(** C4: a match whose begin and end are not found in one and the same atom
    (the test of line 27 fails) is dropped: the display buffer comes out
    as it went in, nothing is split or colored, nothing fails, and the loop
    goes on to the next match from the atom of the begin. *)
Theorem straddling_match_dropped color db atom_it m :
  atom_containing db m.1 atom_it ≠ atom_containing db m.2 atom_it →
  colorize_match color db atom_it m
  = Ok (db, atom_containing db m.1 atom_it)
  ∧ ∀ ms, colorize_matches color db atom_it (m :: ms)
          = colorize_matches color db (atom_containing db m.1 atom_it) ms.
Proof.
  intros Hne.
  assert (colorize_match color db atom_it m
          = Ok (db, atom_containing db m.1 atom_it)) as Hm.
  { unfold colorize_match. apply Nat.eqb_neq in Hne. by rewrite Hne. }
  split; [done|]. intros ms. simpl. by rewrite Hm.
Qed.

Lemma straddling_match_dropped_witness :
  colorize_match Red
    [new_atom 0 5 Default Default; new_atom 5 10 Default Default] 0 (3, 7)
  = Ok ([new_atom 0 5 Default Default; new_atom 5 10 Default Default], 0).
Proof.
  apply (straddling_match_dropped Red
           [new_atom 0 5 Default Default; new_atom 5 10 Default Default]
           0 (3, 7)).
  vm_compute. discriminate.
Defined.

(** What the colorizer does where the test of line 27 passes: for a
    non-empty match whose begin and end are both found in the same atom, an
    atom that may be split, it splits at the begin of the match unless the
    atom begins there, then at the end of the match; the atom so made has
    exactly the range of the match, the given foreground color, and the
    background, attributes and content of the atom it was cut from. *)
Lemma contained_match_colored color db atom_it mbegin mend i a :
  atom_containing db mbegin atom_it = i →
  atom_containing db mend atom_it = i →
  db !! i = Some a → mbegin < mend → splitable a = true →
  ∃ db' it' c,
    colorize_match color db atom_it (mbegin, mend) = Ok (db', it')
    ∧ db' !! it' = Some c
    ∧ db' = take i db
            ++ (if a_begin a =? mbegin then []
                else [set_range a (a_begin a) mbegin])
            ++ c :: set_range a mend (a_end a) :: drop (S i) db
    ∧ a_begin c = mbegin ∧ a_end c = mend ∧ fg_color c = color
    ∧ bg_color c = bg_color a ∧ attribute c = attribute a
    ∧ content_override c = content_override a.
Proof.
  intros Hb He Hi Hlt Hs.
  apply list_elem_of_split_length in Hi as (pre & rest & -> & ->).
  rewrite (colorize_match_zip color pre a rest atom_it mbegin mend)
    by done.
  rewrite take_zip, drop_zip.
  eexists _, _, _. split; [done|]. split; [apply lookup_zip|].
  split; [by rewrite <- app_assoc|]. by cbn.
Qed.

Lemma contained_match_colored_witness :
  ∃ db' it' c,
    colorize_match Red [new_atom 0 10 Default Default] 0 (2, 4) = Ok (db', it')
    ∧ db' !! it' = Some c ∧ a_begin c = 2 ∧ a_end c = 4 ∧ fg_color c = Red.
Proof.
  destruct (contained_match_colored Red [new_atom 0 10 Default Default] 0 2 4 0
              (new_atom 0 10 Default Default))
    as (db' & it' & c & Hrun & Hc & _ & Hb & He & Hfg & _).
  - reflexivity.
  - reflexivity.
  - reflexivity.
  - lia.
  - reflexivity.
  - exists db', it', c. repeat split; assumption.
Defined.

(** C5, where the code misses it: the match [[5,10)] lies in the atom
    [[0,10)] and ends where the atom ends.  The end of the match is then
    found in no atom (or in the next one), the test of line 27 fails and
    the match is dropped: the display buffer comes out as it went in,
    nothing is colored.  Line 31 provides for a match that ends where its
    atom ends, as line 29 does for one that begins where its atom begins,
    but it is never reached with such a match: the atom in which the end
    of a match is found never ends at it. *)
Theorem match_up_to_atom_end_not_colored :
  colorize_match Red [new_atom 0 10 Default Default] 0 (5, 10)
  = Ok ([new_atom 0 10 Default Default], 0)
  ∧ colorize_regex [new_atom 0 10 Default Default] (λ _ _, [(5, 10)]) Red
    = Ok [new_atom 0 10 Default Default]
  ∧ colorize_match Red
      [new_atom 0 10 Default Default; new_atom 10 20 Default Default] 0 (5, 10)
    = Ok ([new_atom 0 10 Default Default; new_atom 10 20 Default Default], 0)
  ∧ (∀ db mend atom_it a,
       db !! atom_containing db mend atom_it = Some a → a_end a ≠ mend).
Proof.
  repeat split; try reflexivity.
  intros db mend atom_it a Hi.
  destruct (atom_containing_found db mend atom_it _ a eq_refl Hi) as [Hc _].
  apply contains_spec in Hc. lia.
Qed.

(** An empty match inside an atom stops the colorizer on the precondition
    of [split]: the second split is asked for the begin of its atom. *)
Lemma empty_match_stops_colorizer :
  colorize_match Red [new_atom 0 10 Default Default] 0 (5, 5)
  = Fail SplitNotInterior.
Proof. reflexivity. Qed.

(** C6: on a display buffer that satisfies the partition invariants, lies
    within the buffer and has its real atoms splitable, [expand_tabulations]
    completes, and every tab of the covered range, at [p], ends up in an
    atom [[p,p+1)] whose content is a text of [8 - (c mod 8)] characters,
    each of them a space, [c] being the visual column of [p]: the
    characters from the start of the line of [p] up to [p] replayed, a
    plain one advancing the column by 1, a tab taking it to the next
    multiple of 8.  The atom is cut out by a split before [p] unless the
    atom begins at [p], and a split after [p] unless it ends at [p+1].  In
    the line [a, tab, b, tab, c] both tabs get 7 spaces. *)
Theorem tabs_expanded (b : Buffer) db lo hi :
  covers db lo hi → hi ≤ length b → real_splitable db →
  (∃ db',
     expand_tabulations b db = Ok db'
     ∧ covers db' lo hi
     ∧ ∀ p, lo ≤ p < hi → b !! p = Some tab_char →
            ∃ a' text,
              a' ∈ db' ∧ a_begin a' = p ∧ a_end a' = p + 1
              ∧ content_override a' = Some text
              ∧ String.length text = 8 - visual_column b p mod 8
              ∧ ∀ i c, String.get i text = Some c → c = " "%char)
  ∧ (∀ pre a rest p,
       db = pre ++ a :: rest → a_begin a ≤ p < a_end a →
       b !! p = Some tab_char →
       ∃ text,
         expand_tab b db (length pre) p
         = Ok (pre ++ before_tab a p
                 ++ set_content text (set_range a p (p + 1))
                 :: after_tab a p ++ rest,
               length (pre ++ before_tab a p))
         ∧ String.length text = 8 - visual_column b p mod 8
         ∧ ∀ i c, String.get i text = Some c → c = " "%char)
  ∧ (let text := ["a"; tab_char; "b"; tab_char; "c"]%char in
     visual_column text 1 = 1 ∧ visual_column text 3 = 9
     ∧ expand_tabulations text [new_atom 0 5 Default Default]
       = Ok [new_atom 0 1 Default Default;
             set_content "       " (new_atom 1 2 Default Default);
             new_atom 2 3 Default Default;
             set_content "       " (new_atom 3 4 Default Default);
             new_atom 4 5 Default Default]).
Proof.
  intros Hc Hb Hsp. split; [|split; [|done]].
  - destruct (expand_from_zip b (length db + 2 * width db) [] db lo hi)
      as (db' & Hrun & Hc' & Htabs); [done..|by rewrite (covers_width _ _ _ Hc)|].
    exists db'. split; [done|]. split; [done|].
    intros p Hp Hbp. destruct (Htabs p Hp Hbp) as (a & _ & _ & Hin).
    exists (tab_atom b a p), (spaces (8 - visual_column b p mod 8)).
    split; [done|]. do 3 (split; [done|]).
    split; [apply spaces_length|apply spaces_get].
  - intros pre a rest p -> Hp Hbp.
    exists (spaces (8 - visual_column b p mod 8)).
    split; [|split; [apply spaces_length|apply spaces_get]].
    apply expand_tab_zip; [done| |].
    + by apply lookup_lt_Some in Hbp.
    + intros Hw. apply (Hsp a); [|apply is_real_spec; lia].
      apply elem_of_app. right. by left.
Qed.

Lemma tabs_expanded_witness :
  let b := ["a"; tab_char; "b"; "c"]%char in
  ∃ db',
    expand_tabulations b [new_atom 0 4 Default Default] = Ok db'
    ∧ ∃ a' text,
        a' ∈ db' ∧ a_begin a' = 1 ∧ a_end a' = 2
        ∧ content_override a' = Some text ∧ String.length text = 7
        ∧ ∀ i c, String.get i text = Some c → c = " "%char.
Proof.
  intros b.
  destruct (tabs_expanded b [new_atom 0 4 Default Default] 0 4)
    as ((db' & Hrun & _ & Htabs) & _ & _).
  - simpl. repeat split; lia.
  - simpl. lia.
  - intros a [->|Hin]%elem_of_cons; [reflexivity|by apply elem_of_nil in Hin].
  - exists db'. split; [exact Hrun|]. apply (Htabs 1); [lia|reflexivity].
Defined.

(** C7: whatever the ends of the atom and of the selection (so also for an
    atom with begin < end and a selection with begin <= end), one of the six
    tests of the sweep holds; the final [assert(false)] is therefore never
    reached, from whatever iterator, display buffer and selection list the
    sweep runs, and so for every run of the highlighter. *)
Theorem assert_false_unreachable :
  (∀ atom sel,
     case_head atom sel || case_middle atom sel || case_tail atom sel
     || case_whole atom sel || case_selection_behind atom sel
     || case_atom_behind atom sel = true)
  ∧ (∀ fuel db atom_it sorted, sweep fuel db atom_it sorted ≠ Fail NoCase)
  ∧ (∀ selections db, SelectionsHighlighter selections db ≠ Fail NoCase).
Proof.
  split; [apply cases_exhaustive|].
  assert (∀ fuel db atom_it sorted, sweep fuel db atom_it sorted ≠ Fail NoCase)
    as H.
  { intros fuel db atom_it sorted. apply sweep_from_any; [done|].
    intros pre todo _. apply sweep_zip_not_NoCase. }
  split; [done|]. intros selections db. apply H.
Qed.

(** C8, amended: on a line whose coordinate has column 0 and whose start is
    found in an atom that begins there or may be split, the body of the
    loop puts, at the start of the line and before the atom that begins
    there (after the split, if one was needed), a zero-width atom, black on
    white, whose content is the first five characters of the line number
    counted from 1, right-aligned in three columns and followed by a space:
    all of it for the numbers up to 9999.  The atom is still there when the
    loop over the remaining lines is over.  Line index 0 gives ["  1 "]. *)
Theorem gutter_atom_inserted b db coord i a :
  column coord = 0 →
  atom_containing db (iterator_at b coord) 0 = i → db !! i = Some a →
  a_begin a = iterator_at b coord ∨ splitable a = true →
  ∃ g db1,
    number_line b db coord = Ok db1
    ∧ db1 = take i db
            ++ (if a_begin a =? iterator_at b coord then []
                else [set_range a (a_begin a) (iterator_at b coord)])
            ++ g :: set_range a (iterator_at b coord) (a_end a)
            :: drop (S i) db
    ∧ a_begin g = line_offset b (line coord)
    ∧ a_end g = line_offset b (line coord)
    ∧ fg_color g = Black ∧ bg_color g = White
    ∧ content_override g = Some (snprintf_3d 6 (line coord + 1))
    ∧ (line coord + 1 < 10 * 1000 →
       content_override g = Some (format_3d (line coord + 1)))
    ∧ (∀ n coord' db', number_lines n b db1 coord' = Ok db' → g ∈ db')
    ∧ snprintf_3d 6 (0 + 1) = "  1 "%string.
Proof.
  intros Hcol Hi Ha Hok.
  apply list_elem_of_split_length in Ha as (pre & rest & -> & ->).
  exists (gutter_atom (iterator_at b coord) (line coord + 1)).
  assert (iterator_at b coord = line_offset b (line coord)) as Hstart
    by (unfold iterator_at; lia).
  eexists. split; [|split; [reflexivity|]].
  - rewrite (number_line_zip _ _ _ _ _ Hi), take_zip, drop_zip.
    destruct (Nat.eqb_spec (a_begin a) (iterator_at b coord)) as [Heq|Hne];
      cbn [negb].
    + rewrite <- Heq. by rewrite set_range_same.
    + destruct Hok as [?|Hs]; [done|]. rewrite Hs. by cbn [negb].
  - unfold gutter_atom.
    cbn [set_content new_atom a_begin a_end fg_color bg_color content_override].
    rewrite Hstart. repeat split; try done.
    + intros Hn. by rewrite snprintf_3d_fits.
    + intros n coord' db' Hrun.
      eapply number_lines_keeps_synthetic; [done| |].
      * rewrite !elem_of_app, elem_of_cons. tauto.
      * unfold is_real. apply Nat.ltb_irrefl.
Qed.

Lemma gutter_atom_inserted_witness :
  let b := ["a"; "010"; "b"; "c"]%char in
  let a := new_atom 0 4 Default Default in
  ∃ g, number_line b [a] {| line := 1; column := 0 |}
       = Ok [set_range a 0 2; g; set_range a 2 4]
       ∧ a_begin g = 2 ∧ a_end g = 2
       ∧ content_override g = Some (format_3d 2).
Proof.
  intros b a.
  destruct (gutter_atom_inserted b [a] {| line := 1; column := 0 |} 0 a)
    as (g & db1 & Hrun & Hdb & Hb & He & _ & _ & _ & Hfmt & _).
  - reflexivity.
  - reflexivity.
  - reflexivity.
  - right. reflexivity.
  - exists g. split; [by rewrite Hrun, Hdb|]. split; [exact Hb|].
    split; [exact He|]. apply Hfmt. simpl. lia.
Defined.

(** C8 as stated fails from the line numbered 10000 on: the five characters
    that [snprintf] may write leave no room for the trailing space. *)
Lemma gutter_of_line_10000_has_no_space :
  let b := repeat newline_char (9 * 1000 + 999) ++ ["x"%char] in
  let a := new_atom (9 * 1000 + 999) (10 * 1000) Default Default in
  let g := set_content "10000"%string
             (new_atom (9 * 1000 + 999) (9 * 1000 + 999) Black White) in
  show_line_numbers b [a] = Ok [g; a]
  ∧ content_override g ≠ Some (format_3d (10 * 1000)).
Proof.
  split.
  - vm_compute. reflexivity.
  - vm_compute. discriminate.
Qed.

(** C9, amended: when the atom in which the position of the line is found
    does not begin there and is not splitable, the line is skipped, with no
    split, no insertion and no failure, and the loop goes on with the next
    line; when the atom begins there a gutter atom is put before it, whether
    it is splitable or not and whatever stands before it, a gutter atom of
    an earlier run included. *)
Theorem unsplitable_line_skipped b db coord i a :
  atom_containing db (iterator_at b coord) 0 = i → db !! i = Some a →
  (a_begin a ≠ iterator_at b coord → splitable a = false →
     number_line b db coord = Ok db
     ∧ ∀ n, number_lines (S n) b db coord
            = number_lines n b db
                {| line := line coord + 1; column := column coord |})
  ∧ (a_begin a = iterator_at b coord →
       number_line b db coord
       = Ok (take i db ++ gutter_atom (iterator_at b coord) (line coord + 1)
               :: drop i db)).
Proof.
  intros Hi Ha.
  apply list_elem_of_split_length in Ha as (pre & rest & -> & ->).
  rewrite (number_line_zip _ _ _ _ _ Hi). split.
  - intros Hne Hs. apply Nat.eqb_neq in Hne. rewrite Hne, Hs. cbn [negb].
    split; [done|]. intros n. cbn [number_lines].
    rewrite (number_line_zip _ _ _ _ _ Hi), Hne, Hs. done.
  - intros Heq. apply Nat.eqb_eq in Heq. rewrite Heq. cbn [negb].
    by rewrite take_zip, drop_app_length.
Qed.

Lemma unsplitable_line_skipped_witness :
  let b := ["a"; "010"; "b"; "c"]%char in
  let a := mkDisplayAtom 0 4 Default Default Normal None false in
  number_line b [a] {| line := 1; column := 0 |} = Ok [a]
  ∧ number_line b [a] {| line := 0; column := 0 |}
    = Ok [gutter_atom 0 1; a].
Proof.
  intros b a. split.
  - apply (unsplitable_line_skipped b [a] {| line := 1; column := 0 |} 0 a).
    + reflexivity.
    + reflexivity.
    + vm_compute. discriminate.
    + reflexivity.
  - apply (unsplitable_line_skipped b [a] {| line := 0; column := 0 |} 0 a).
    + reflexivity.
    + reflexivity.
    + reflexivity.
Defined.

(** C9 as stated fails in its last part: a second run of the numbering
    filter on the outcome of the first puts a second gutter atom on the
    line. *)
Lemma second_run_duplicates_gutter :
  let b := ["a"; "b"]%char in
  let a := new_atom 0 2 Default Default in
  show_line_numbers b [a] = Ok [gutter_atom 0 1; a]
  ∧ show_line_numbers b [gutter_atom 0 1; a]
    = Ok [gutter_atom 0 1; gutter_atom 0 1; a].
Proof. split; reflexivity. Qed.

(** C10: when every selection is non-empty, no call of [split] made by the
    sweep is given a position that is not strictly inside the atom it is to
    split; with a zero-width selection strictly inside a splitable atom the
    second split of the middle case is given the begin of its atom and the
    run stops on that precondition. *)
Theorem split_positions_interior :
  (∀ fuel db atom_it sorted,
     Forall non_empty sorted →
     sweep fuel db atom_it sorted ≠ Fail SplitNotInterior)
  ∧ (∀ selections db,
       Forall non_empty selections →
       SelectionsHighlighter selections db ≠ Fail SplitNotInterior)
  ∧ (∀ fuel done a rest s cur,
       sel_begin s = sel_end s → a_begin a < sel_begin s < a_end a →
       splitable a = true →
       sweep (S fuel) (done ++ a :: rest) (length done) (s :: cur)
       = Fail SplitNotInterior).
Proof.
  assert (∀ fuel db atom_it sorted,
            Forall non_empty sorted →
            sweep fuel db atom_it sorted ≠ Fail SplitNotInterior) as H.
  { intros fuel db atom_it sorted Hne. apply sweep_from_any; [done|].
    intros pre todo _. by apply sweep_zip_interior. }
  split; [done|]. split.
  - intros selections db Hne. apply H. by apply std_sort_Forall.
  - apply sweep_zero_width_inside.
Qed.

Lemma split_positions_interior_witness :
  (Forall non_empty [mkSelection 3 7]
   ∧ SelectionsHighlighter [mkSelection 3 7] [new_atom 0 10 Default Default]
     ≠ Fail SplitNotInterior)
  ∧ SelectionsHighlighter [mkSelection 5 5] [new_atom 0 10 Default Default]
    = Fail SplitNotInterior.
Proof.
  split.
  - assert (Forall non_empty [mkSelection 3 7]) as Hne.
    { repeat constructor. }
    split; [exact Hne|].
    exact (proj1 (proj2 split_positions_interior) _ _ Hne).
  - apply (proj2 (proj2 split_positions_interior) 1 []
             (new_atom 0 10 Default Default) [] (mkSelection 5 5) []).
    + reflexivity.
    + simpl. lia.
    + reflexivity.
Defined.

(** * Further properties of the filters *)

(** ** The regex colorizer, over a whole run *)

(** A match whose ends are found in the atom under the iterator, but that
    is empty or whose atom may not be split, stops the colorizer. *)
Lemma colorize_match_zip_fails color pre a rest hint mbegin mend :
  atom_containing (pre ++ a :: rest) mbegin hint = length pre →
  atom_containing (pre ++ a :: rest) mend hint = length pre →
  ¬ (mbegin < mend ∧ splitable a = true) →
  ∃ f, colorize_match color (pre ++ a :: rest) hint (mbegin, mend) = Fail f.
Proof.
  intros Hb He Hbad.
  destruct (atom_containing_found _ _ _ _ a Hb (lookup_zip _ _ _)) as [Hcb _].
  destruct (atom_containing_found _ _ _ _ a He (lookup_zip _ _ _)) as [Hce _].
  apply contains_spec in Hcb, Hce.
  unfold colorize_match, mbind, result_bind. cbn [fst snd].
  rewrite Hb, He, Nat.eqb_refl.
  rewrite deref_zip. cbn beta iota.
  destruct (Nat.eqb_spec (a_begin a) mbegin) as [Heq|Hneq]; cbn [negb].
  - rewrite deref_zip. cbn beta iota.
    assert ((a_end a =? mend) = false) as -> by (apply Nat.eqb_neq; lia).
    cbn [negb]. rewrite split_zip_cases.
    destruct (Nat.ltb_spec (a_begin a) mend) as [Hlt|Hge].
    + assert ((mend <? a_end a) = true) as -> by (apply Nat.ltb_lt; lia).
      cbn [negb andb]. destruct (splitable a); cbn [negb]; [|by eexists].
      destruct Hbad. split; [lia|done].
    + cbn [negb andb]. by eexists.
  - rewrite split_zip_interior by lia.
    destruct (splitable a) eqn:Hs; [|by eexists]. cbn beta iota.
    rewrite (zip_next pre), <- (length_snoc pre (set_range a (a_begin a) mbegin)).
    rewrite deref_zip. cbn beta iota; cbn [set_range a_end].
    assert ((a_end a =? mend) = false) as -> by (apply Nat.eqb_neq; lia).
    cbn [negb]. rewrite split_zip_cases. cbn [set_range a_begin a_end].
    assert ((mbegin <? mend) = false) as ->
      by (apply Nat.ltb_ge; destruct (decide (mbegin < mend)); [tauto|lia]).
    cbn [negb andb]. by eexists.
Qed.

(** What one round of the loop over the matches has done when it went
    through: nothing, or the cut and the coloring of [colorize_match_zip]. *)
Lemma colorize_match_inv color db hint mbegin mend db' hint' :
  colorize_match color db hint (mbegin, mend) = Ok (db', hint') →
  db' = db
  ∨ ∃ pre a rest,
      db = pre ++ a :: rest
      ∧ contains mbegin a = true ∧ contains mend a = true
      ∧ mbegin < mend ∧ splitable a = true
      ∧ db' = (pre ++ (if a_begin a =? mbegin then []
                       else [set_range a (a_begin a) mbegin]))
                ++ set_fg color (set_range a mbegin mend)
                :: set_range a mend (a_end a) :: rest.
Proof.
  intros Hrun.
  destruct (decide (atom_containing db mbegin hint
                    = atom_containing db mend hint)) as [Heq|Hne].
  - destruct (db !! atom_containing db mbegin hint) as [a|] eqn:Hi.
    + right. apply list_elem_of_split_length in Hi as (pre & rest & -> & Hb).
      assert (atom_containing (pre ++ a :: rest) mend hint = length pre) as He
        by congruence.
      destruct (atom_containing_found _ _ _ _ a Hb (lookup_zip _ _ _)) as [Hcb _].
      destruct (atom_containing_found _ _ _ _ a He (lookup_zip _ _ _)) as [Hce _].
      destruct (decide (mbegin < mend ∧ splitable a = true)) as [[Hlt Hs]|Hbad].
      * rewrite colorize_match_zip in Hrun by done. injection Hrun as <- <-.
        by exists pre, a, rest.
      * destruct (colorize_match_zip_fails color pre a rest hint mbegin mend)
          as [f Hf]; [done..|]. congruence.
    + unfold colorize_match in Hrun. cbn [fst snd] in Hrun.
      rewrite <- Heq, Nat.eqb_refl in Hrun. unfold deref in Hrun.
      by rewrite Hi in Hrun.
  - left. unfold colorize_match in Hrun. cbn [fst snd] in Hrun.
    apply Nat.eqb_neq in Hne. rewrite Hne in Hrun. by injection Hrun as <- _.
Qed.

Lemma recolored_refl color ms a : recolored color ms a a.
Proof. unfold recolored. repeat split; (done || by left). Qed.

Lemma recolored_trans color ms a'' a' a :
  recolored color ms a'' a' → recolored color ms a' a →
  recolored color ms a'' a.
Proof.
  intros (Hb1 & He1 & Hg1 & Ht1 & Hc1 & Hs1 & Hf1)
         (Hb2 & He2 & Hg2 & Ht2 & Hc2 & Hs2 & Hf2).
  unfold recolored. repeat split; try congruence; try lia.
  destruct Hf1 as [Hf1|Hf1]; [|by right].
  destruct Hf2 as [Hf2|(Hf2 & m & Hm & ? & ?)]; [left; congruence|].
  right. split; [congruence|]. exists m. repeat split; (done || lia).
Qed.

Lemma recolored_more color ms ms' a' a :
  (∀ m, m ∈ ms → m ∈ ms') → recolored color ms a' a → recolored color ms' a' a.
Proof.
  intros Hsub (Hb & He & Hg & Ht & Hc & Hs & Hf).
  unfold recolored. repeat split; try done.
  destruct Hf as [Hf|(Hf & m & Hm & ? & ?)]; [by left|].
  right. split; [done|]. exists m. auto.
Qed.

Lemma colorize_match_recolors color db hint m db' hint' :
  colorize_match color db hint m = Ok (db', hint') →
  ∀ a', a' ∈ db' → ∃ a, a ∈ db ∧ recolored color [m] a' a.
Proof.
  destruct m as [mbegin mend]. intros Hrun a' Hin.
  apply colorize_match_inv in Hrun
    as [->|(pre & a & rest & -> & Hcb & Hce & Hlt & Hs & ->)].
  { exists a'. split; [done|apply recolored_refl]. }
  apply contains_spec in Hcb, Hce.
  assert (∀ x, x ∈ pre ∨ x ∈ rest → x ∈ pre ++ a :: rest) as Hkeep.
  { intros x Hx. rewrite elem_of_app, elem_of_cons. tauto. }
  assert (a ∈ pre ++ a :: rest) as Ha
    by (rewrite elem_of_app, elem_of_cons; tauto).
  rewrite !elem_of_app, !elem_of_cons in Hin.
  destruct Hin as [[Hin|Hin]|[->|[->|Hin]]].
  - exists a'. split; [auto|apply recolored_refl].
  - exists a. split; [done|].
    destruct (a_begin a =? mbegin); [by apply elem_of_nil in Hin|].
    apply list_elem_of_singleton in Hin as ->.
    unfold recolored. cbn. repeat split; (done || lia || by left).
  - exists a. split; [done|].
    unfold recolored. cbn. repeat split; try (done || lia).
    right. split; [done|]. exists (mbegin, mend). split; [by left|]. cbn. lia.
  - exists a. split; [done|].
    unfold recolored. cbn. repeat split; (done || lia || by left).
  - exists a'. split; [auto|apply recolored_refl].
Qed.

Lemma colorize_matches_recolors color ms db hint db' :
  colorize_matches color db hint ms = Ok db' →
  ∀ a', a' ∈ db' → ∃ a, a ∈ db ∧ recolored color ms a' a.
Proof.
  revert db hint. induction ms as [|m ms IH]; intros db hint Hrun a' Hin.
  - injection Hrun as <-. exists a'. split; [done|apply recolored_refl].
  - cbn [colorize_matches] in Hrun.
    apply bind_Ok in Hrun as ([db1 hint1] & Hstep & Hrun).
    destruct (IH _ _ Hrun a' Hin) as (x & Hx & Hrx).
    destruct (colorize_match_recolors _ _ _ _ _ _ Hstep x Hx) as (a & Ha & Hra).
    exists a. split; [done|]. apply (recolored_trans _ _ _ x).
    + eapply recolored_more; [|done]. intros; by right.
    + eapply recolored_more; [|done].
      intros m' ->%list_elem_of_singleton. by left.
Qed.

Lemma covers_contains_unique db lo hi a a' p :
  covers db lo hi → a ∈ db → a' ∈ db →
  contains p a = true → contains p a' = true → a = a'.
Proof.
  intros Hc [i Hi]%list_elem_of_lookup_1 [j Hj]%list_elem_of_lookup_1 Hp Hp'.
  apply contains_spec in Hp, Hp'.
  destruct (Nat.lt_total i j) as [Hlt|[->|Hlt]].
  - pose proof (covers_lookup_lt _ _ _ _ _ _ _ Hc Hi Hj Hlt). lia.
  - congruence.
  - pose proof (covers_lookup_lt _ _ _ _ _ _ _ Hc Hj Hi Hlt). lia.
Qed.

(** No primitive takes an atom away. *)
Lemma edits_length db db' : edits db db' → length db ≤ length db'.
Proof.
  induction 1 as [|db1 db2 db3 Hstep _ IH]; [done|].
  etrans; [|exact IH]. clear IH.
  destruct Hstep as [d i pos d' it Hs|d i a g Hi _ _|d i f _].
  - apply split_inv in Hs as (a & Hi & _ & _ & _ & ->).
    rewrite <- (take_drop_middle _ _ _ Hi) at 1.
    rewrite !length_app. simpl. lia.
  - cbn. rewrite <- (take_drop i d) at 1. rewrite !length_app. simpl. lia.
  - by rewrite length_alter.
Qed.

(** One match of a run of matches in order: the atom of its begin, and
    which way the round goes by where the match ends. *)
Lemma colorize_match_step color db lo hi hint mbegin mend :
  covers db lo hi → real_splitable db → hint_behind db hint mbegin →
  lo ≤ mbegin → mbegin < mend → mend ≤ hi →
  ∃ pre a rest,
    db = pre ++ a :: rest ∧ contains mbegin a = true
    ∧ ((mend < a_end a
        ∧ colorize_match color db hint (mbegin, mend)
          = Ok ((pre ++ (if a_begin a =? mbegin then []
                         else [set_range a (a_begin a) mbegin]))
                  ++ set_fg color (set_range a mbegin mend)
                  :: set_range a mend (a_end a) :: rest,
                length (pre ++ (if a_begin a =? mbegin then []
                                else [set_range a (a_begin a) mbegin]))))
       ∨ (a_end a ≤ mend
          ∧ colorize_match color db hint (mbegin, mend) = Ok (db, length pre))).
Proof.
  intros Hc Hsp Hh Hlo Hlt Hhi.
  destruct (proj2 (covers_covered db lo hi mbegin Hc)) as (a & Hin & Hca);
    [lia|].
  apply list_elem_of_lookup_1 in Hin as [i Hi].
  assert (hint ≤ i) as Hle.
  { destruct (decide (hint ≤ i)) as [|Hgt]; [done|].
    apply contains_spec in Hca. specialize (Hh i a Hi). lia. }
  pose proof (atom_containing_unique _ _ _ _ _ _ _ Hc Hle Hi Hca) as Hb.
  destruct (decide (mend < a_end a)) as [Hinside|Houtside].
  - assert (contains mend a = true) as Hce
      by (apply contains_spec in Hca; apply contains_spec; lia).
    pose proof (atom_containing_unique _ _ _ _ _ _ _ Hc Hle Hi Hce) as He.
    assert (splitable a = true) as Hs.
    { apply Hsp; [by eapply list_elem_of_lookup_2|].
      apply is_real_spec. apply contains_spec in Hca. lia. }
    apply list_elem_of_split_length in Hi as (pre & rest & -> & ->).
    exists pre, a, rest. split; [done|]. split; [done|]. left.
    split; [done|]. by apply colorize_match_zip.
  - assert (atom_containing db mend hint ≠ i) as Hne.
    { intros He. destruct (atom_containing_found _ _ _ _ a He Hi) as [Hce _].
      apply contains_spec in Hce. lia. }
    apply list_elem_of_split_length in Hi as Hzip.
    destruct Hzip as (pre & rest & Hdb & Hlen).
    exists pre, a, rest. split; [done|]. split; [done|]. right.
    split; [lia|]. rewrite <- Hlen.
    unfold colorize_match. cbn [fst snd]. rewrite Hb.
    by assert ((i =? atom_containing db mend hint) = false) as ->
      by (apply Nat.eqb_neq; congruence).
Qed.

(** The loop over matches in order, on a display buffer that satisfies the
    partition invariants and has its real atoms splitable: it goes through,
    keeps the invariants, leaves alone the atoms that end before every
    match, and makes of every match that lies in one atom, short of its
    end, an atom of the range of the match with the color. *)
Lemma colorize_matches_colors color ms db lo hi hint :
  covers db lo hi → real_splitable db → matches_in_order lo hi ms →
  (∀ m, m ∈ ms → hint_behind db hint m.1) →
  ∃ db',
    colorize_matches color db hint ms = Ok db'
    ∧ covers db' lo hi ∧ real_splitable db'
    ∧ (∀ x, x ∈ db → (∀ m, m ∈ ms → a_end x ≤ m.1) → x ∈ db')
    ∧ (∀ m a, m ∈ ms → a ∈ db → contains m.1 a = true → m.2 < a_end a →
              set_fg color (set_range a m.1 m.2) ∈ db').
Proof.
  revert db hint. induction ms as [|[mbegin mend] ms IH];
    intros db hint Hc Hsp [Hin Hord] Hh.
  { exists db. repeat split; try done.
    intros m a Hm. by apply elem_of_nil in Hm. }
  apply Forall_cons in Hin as [(Hlo & Hlt & Hhi) Hin]. cbn [fst snd] in *.
  apply StronglySorted_inv in Hord as [Hord Hnext].
  assert (∀ m, m ∈ ms → mend ≤ m.1) as Hafter
    by (intros m Hm; apply (proj1 (Forall_forall _ _) Hnext m Hm)).
  assert (hint_behind db hint mbegin) as Hh0
    by (by apply (Hh (mbegin, mend)); left).
  destruct (colorize_match_total color db lo hi hint mbegin mend)
    as (db1 & hint1 & Hrun & Hc1 & Hsp1 & Hh1); [done..|].
  destruct (IH db1 hint1) as (db' & Hrun' & Hc' & Hsp' & Hkeep & Hcol);
    [done|done|by split| |].
  { intros m Hm i a Hi Hlt'. specialize (Hh1 i a Hi Hlt').
    specialize (Hafter m Hm). lia. }
  exists db'. cbn [colorize_matches]. rewrite Hrun. cbn [mbind result_bind].
  split; [done|]. split; [done|]. split; [done|].
  destruct (colorize_match_step color db lo hi hint mbegin mend)
    as (pre & a & rest & -> & Hca & Hstep); [done..|].
  apply contains_spec in Hca.
  assert (∀ x, x ∈ pre ∨ x ∈ rest → x ∈ db1) as Hstay.
  { intros x Hx. destruct Hstep as [[_ Hstep]|[_ Hstep]];
      rewrite Hstep in Hrun; injection Hrun as <- _;
      rewrite ?elem_of_app, ?elem_of_cons; tauto. }
  split.
  - intros x Hx Hends. apply Hkeep; [|intros m Hm; apply Hends; by right].
    apply Hstay. rewrite elem_of_app, elem_of_cons in Hx.
    destruct Hx as [Hx|[->|Hx]]; [tauto| |tauto].
    specialize (Hends (mbegin, mend) ltac:(by left)). cbn in Hends. lia.
  - intros m a0 Hm Ha0 Hc0 Hend.
    assert (a0 ∈ pre ∨ a0 ∈ rest ∨ a0 = a) as [Hx|[Hx| ->]]
      by (rewrite elem_of_app, elem_of_cons in Ha0; tauto).
    + apply elem_of_cons in Hm as [->|Hm]; [|apply Hcol; auto].
      cbn [fst snd] in *. exfalso. apply contains_spec in Hc0.
      apply covers_app in Hc as (mid & Hpre & Hmid & _).
      destruct (covers_within _ _ _ _ Hpre Hx). lia.
    + apply elem_of_cons in Hm as [->|Hm]; [|apply Hcol; auto].
      cbn [fst snd] in *. exfalso. apply contains_spec in Hc0.
      apply covers_app in Hc as (mid & _ & _ & _ & Hrest).
      destruct (covers_within _ _ _ _ Hrest Hx). lia.
    + apply contains_spec in Hc0.
      assert (mend < a_end a) as Hinside.
      { apply elem_of_cons in Hm as [->|Hm]; [done|].
        specialize (Hafter m Hm). lia. }
      destruct Hstep as [[_ Hstep]|[Hout _]]; [|lia].
      rewrite Hstep in Hrun. injection Hrun as <- _.
      apply elem_of_cons in Hm as [->|Hm]; cbn [fst snd] in *.
      * apply Hkeep.
        -- rewrite elem_of_app, elem_of_cons. tauto.
        -- intros m Hm. cbn. by apply Hafter.
      * specialize (Hafter m Hm).
        apply (Hcol m (set_range a mend (a_end a))); [done| | |done].
        -- rewrite elem_of_app, !elem_of_cons. tauto.
        -- apply contains_spec. cbn. lia.
Qed.

(** When the loop over the matches is through, every match is settled. *)
Lemma colorize_matches_settles color ms db lo hi hint :
  covers db lo hi → real_splitable db → matches_in_order lo hi ms →
  (∀ m, m ∈ ms → hint_behind db hint m.1) →
  ∃ db',
    colorize_matches color db hint ms = Ok db' ∧ ∀ m, m ∈ ms → settled db' m.
Proof.
  revert db hint. induction ms as [|[mbegin mend] ms IH];
    intros db hint Hc Hsp [Hin Hord] Hh.
  { exists db. split; [done|]. intros m Hm. by apply elem_of_nil in Hm. }
  apply Forall_cons in Hin as [(Hlo & Hlt & Hhi) Hin]. cbn [fst snd] in *.
  apply StronglySorted_inv in Hord as [Hord Hnext].
  assert (∀ m, m ∈ ms → mend ≤ m.1) as Hafter
    by (intros m Hm; apply (proj1 (Forall_forall _ _) Hnext m Hm)).
  assert (hint_behind db hint mbegin) as Hh0
    by (by apply (Hh (mbegin, mend)); left).
  destruct (colorize_match_total color db lo hi hint mbegin mend)
    as (db1 & hint1 & Hrun & Hc1 & Hsp1 & Hh1); [done..|].
  destruct (IH db1 hint1) as (db' & Hrun' & Hset); [done|done|by split| |].
  { intros m Hm i a Hi Hlt'. specialize (Hh1 i a Hi Hlt').
    specialize (Hafter m Hm). lia. }
  exists db'. cbn [colorize_matches]. rewrite Hrun. cbn [mbind result_bind].
  split; [done|]. intros m [->|Hm]%elem_of_cons; [|by apply Hset].
  assert (settled db1 (mbegin, mend)) as Hset1.
  { destruct (colorize_match_step color db lo hi hint mbegin mend)
      as (pre & a & rest & -> & Hca & Hstep); [done..|].
    intros x Hx Hcx. cbn [fst snd] in *.
    destruct Hstep as [[_ Hstep]|[Hout Hstep]];
      rewrite Hstep in Hrun; injection Hrun as <- _.
    - assert (x = set_fg color (set_range a mbegin mend)) as ->; [|done].
      apply (covers_contains_unique _ _ _ _ _ mbegin Hc1 Hx); [|done|].
      + rewrite elem_of_app, elem_of_cons. tauto.
      + apply contains_spec. cbn. lia.
    - assert (x = a) as ->; [|done].
      apply (covers_contains_unique _ _ _ _ _ mbegin Hc1 Hx); [|done..].
      rewrite elem_of_app, elem_of_cons. tauto. }
  intros a' Ha' Hca'. cbn [fst snd] in *.
  destruct (colorize_matches_recolors _ _ _ _ _ Hrun' a' Ha')
    as (a & Ha & Hb & He & _).
  apply contains_spec in Hca'.
  specialize (Hset1 a Ha). cbn [fst snd] in Hset1.
  rewrite contains_spec in Hset1. lia.
Qed.

(** Over matches that are all settled the loop changes nothing. *)
Lemma colorize_matches_settled color ms db lo hi hint :
  covers db lo hi → real_splitable db → matches_in_order lo hi ms →
  (∀ m, m ∈ ms → hint_behind db hint m.1) →
  (∀ m, m ∈ ms → settled db m) →
  colorize_matches color db hint ms = Ok db.
Proof.
  revert hint. induction ms as [|[mbegin mend] ms IH];
    intros hint Hc Hsp [Hin Hord] Hh Hset; [done|].
  apply Forall_cons in Hin as [(Hlo & Hlt & Hhi) Hin]. cbn [fst snd] in *.
  apply StronglySorted_inv in Hord as [Hord Hnext].
  assert (∀ m, m ∈ ms → mend ≤ m.1) as Hafter
    by (intros m Hm; apply (proj1 (Forall_forall _ _) Hnext m Hm)).
  assert (hint_behind db hint mbegin) as Hh0
    by (by apply (Hh (mbegin, mend)); left).
  destruct (colorize_match_total color db lo hi hint mbegin mend)
    as (db1 & hint1 & Hrun & _ & _ & Hh1); [done..|].
  destruct (colorize_match_step color db lo hi hint mbegin mend)
    as (pre & a & rest & Hdb & Hca & [[Hinside _]|[_ Hstep]]); [done..| |].
  - specialize (Hset (mbegin, mend) ltac:(by left) a). cbn [fst snd] in Hset.
    assert (a_end a ≤ mend); [|lia]. apply Hset; [|done].
    rewrite Hdb, elem_of_app, elem_of_cons. tauto.
  - rewrite Hstep in Hrun. injection Hrun as <- <-.
    cbn [colorize_matches]. rewrite Hstep. cbn [mbind result_bind].
    apply IH; [done|done|by split| |].
    + intros m Hm i x Hi Hlt'. specialize (Hh1 i x Hi Hlt').
      specialize (Hafter m Hm). lia.
    + intros m Hm. apply Hset. by right.
Qed.

(** One pass of [colorize_regex], with all that the next pass needs. *)
Lemma colorize_regex_pass db lo hi (ex : regex) color :
  covers db lo hi → db ≠ [] → real_splitable db →
  matches_in_order lo hi (ex lo hi) →
  ∃ db',
    colorize_regex db ex color = Ok db'
    ∧ covers db' lo hi ∧ db' ≠ [] ∧ real_splitable db'
    ∧ (∀ a', a' ∈ db' → ∃ a, a ∈ db ∧ recolored color (ex lo hi) a' a).
Proof.
  intros Hc Hne Hsp Hms. unfold colorize_regex.
  destruct (covers_display_ends _ _ _ Hc Hne) as [-> ->].
  cbn [mbind result_bind].
  destruct (colorize_matches_colors color (ex lo hi) db lo hi 0)
    as (db' & Hrun & Hc' & Hsp' & _); [done..| |].
  { intros m _ i a _ Hlt. lia. }
  exists db'. split; [done|]. split; [done|]. split; [|split; [done|]].
  - apply colorize_matches_edits, edits_length in Hrun.
    intros ->. destruct db; [done|]. simpl in Hrun. lia.
  - by eapply colorize_matches_recolors.
Qed.

Lemma recolored_refined color ms colors a' a :
  color ∈ colors → recolored color ms a' a → refined colors a' a.
Proof.
  intros Hin (?&?&?&?&?&?&Hfg). repeat split; try done.
  destruct Hfg as [|[-> _]]; [by left|by right].
Qed.

Lemma refined_trans colors a'' a' a :
  refined colors a'' a' → refined colors a' a → refined colors a'' a.
Proof.
  intros (?&?&?&?&?&?&Hfg) (?&?&?&?&?&?&Hfg').
  repeat split; try congruence; try lia.
  destruct Hfg as [Hfg|]; [|by right]. rewrite Hfg. done.
Qed.

(** One pass of a chain of passes that began on [db0]. *)
Lemma colorize_regex_refines db lo hi (ex : regex) color colors db0 :
  covers db lo hi → db ≠ [] → real_splitable db →
  matches_in_order lo hi (ex lo hi) → color ∈ colors →
  (∀ a, a ∈ db → ∃ a0, a0 ∈ db0 ∧ refined colors a a0) →
  ∃ db',
    colorize_regex db ex color = Ok db'
    ∧ covers db' lo hi ∧ db' ≠ [] ∧ real_splitable db'
    ∧ (∀ a, a ∈ db' → ∃ a0, a0 ∈ db0 ∧ refined colors a a0).
Proof.
  intros Hc Hne Hsp Hms Hcol Hr.
  destruct (colorize_regex_pass db lo hi ex color)
    as (db' & Hrun & Hc' & Hne' & Hsp' & Hr'); [done..|].
  exists db'. do 4 (split; [done|]).
  intros a' Ha'. destruct (Hr' a' Ha') as (a & Ha & Hrec).
  destruct (Hr a Ha) as (a0 & Ha0 & Hrec0).
  exists a0. split; [done|]. apply (refined_trans _ _ a); [|done].
  by eapply recolored_refined.
Qed.

(** X1: whatever the pattern matches, a completed run of [colorize_regex]
    leaves alone everything but the cuts and the foreground: every atom of
    the outcome is a stretch of an atom of the display buffer with its
    background, attributes, content and splitable flag, and its foreground
    is either unchanged or the given color, the latter only for a stretch
    that lies inside one of the matches. *)
Theorem colorize_regex_only_recolors db (ex : regex) color db' :
  colorize_regex db ex color = Ok db' →
  ∃ lo hi,
    display_begin db = Ok lo ∧ display_end db = Ok hi
    ∧ ∀ a', a' ∈ db' → ∃ a, a ∈ db ∧ recolored color (ex lo hi) a' a.
Proof.
  unfold colorize_regex. intros Hrun.
  apply bind_Ok in Hrun as (lo & Hlo & Hrun).
  apply bind_Ok in Hrun as (hi & Hhi & Hrun).
  exists lo, hi. split; [done|]. split; [done|].
  by eapply colorize_matches_recolors.
Qed.

Lemma colorize_regex_only_recolors_witness :
  let db := [set_content "x" (new_atom 0 4 Default White);
             new_atom 4 10 Default Default] in
  ∃ db' lo hi,
    colorize_regex db (λ _ _, [(1, 3); (3, 6); (7, 9)]) Red = Ok db'
    ∧ display_begin db = Ok lo ∧ display_end db = Ok hi
    ∧ ∀ a', a' ∈ db' →
        ∃ a, a ∈ db ∧ recolored Red [(1, 3); (3, 6); (7, 9)] a' a.
Proof.
  intros db. eexists.
  destruct (colorize_regex_only_recolors db (λ _ _, [(1, 3); (3, 6); (7, 9)])
              Red _ eq_refl) as (lo & hi & Hlo & Hhi & H).
  exists lo, hi. split; [reflexivity|]. split; [exact Hlo|].
  split; [exact Hhi|]. exact H.
Defined.

(** X2: on a display buffer with atoms that satisfies the partition
    invariants and has its real atoms splitable, and with the matches in
    order and inside the range that the engine is relied on for,
    [colorize_regex] completes; the outcome covers the same range and its
    real atoms are still splitable; an atom that ends before every match
    is left as it is; and every match that lies in one atom short of its
    end is, in the outcome, an atom of exactly the range of the match, with
    the given foreground and the rest of the style of the atom it was cut
    from. *)
Theorem colorize_regex_colors_matches db lo hi (ex : regex) color :
  covers db lo hi → db ≠ [] → real_splitable db →
  matches_in_order lo hi (ex lo hi) →
  ∃ db',
    colorize_regex db ex color = Ok db'
    ∧ covers db' lo hi ∧ real_splitable db'
    ∧ (∀ x, x ∈ db → (∀ m, m ∈ ex lo hi → a_end x ≤ m.1) → x ∈ db')
    ∧ (∀ m a, m ∈ ex lo hi → a ∈ db → contains m.1 a = true →
              m.2 < a_end a →
              set_fg color (set_range a m.1 m.2) ∈ db').
Proof.
  intros Hc Hne Hsp Hms. unfold colorize_regex.
  destruct (covers_display_ends _ _ _ Hc Hne) as [-> ->].
  cbn [mbind result_bind].
  apply (colorize_matches_colors color _ db lo hi 0); [done..|].
  intros m _ i a _ Hlt. lia.
Qed.

Lemma colorize_regex_colors_matches_witness :
  let db := [new_atom 0 4 Default White; new_atom 4 10 Default Default] in
  ∃ db',
    colorize_regex db (λ _ _, [(1, 3); (3, 6); (7, 9)]) Red = Ok db'
    ∧ ¬ (new_atom 0 4 Default White ∈ db')
    ∧ set_fg Red (set_range (new_atom 0 4 Default White) 1 3) ∈ db'
    ∧ set_fg Red (set_range (new_atom 4 10 Default Default) 7 9) ∈ db'.
Proof.
  intros db.
  destruct (colorize_regex_colors_matches db 0 10
              (λ _ _, [(1, 3); (3, 6); (7, 9)]) Red)
    as (db' & Hrun & _ & _ & _ & Hcol).
  - simpl. repeat split; lia.
  - discriminate.
  - intros a Ha _. repeat (apply elem_of_cons in Ha as [->|Ha]; [reflexivity|]).
    by apply elem_of_nil in Ha.
  - split.
    + repeat constructor; simpl; lia.
    + repeat constructor; simpl; lia.
  - exists db'. split; [exact Hrun|]. split.
    + injection Hrun as <-. intros Hin.
      repeat (apply elem_of_cons in Hin as [Heq|Hin]; [discriminate Heq|]).
      by apply elem_of_nil in Hin.
    + split.
      * apply (Hcol (1, 3)); [by left|by left|reflexivity|simpl; lia].
      * apply (Hcol (7, 9)); [by do 2 right; left|by right; left|reflexivity|
                              simpl; lia].
Defined.

(** X3: a second pass of [colorize_regex] with the same pattern changes
    nothing, whatever color it is given: the first pass has made of every
    match it colored an atom that ends where the match ends, so that the
    end of the match is found in another atom and the match is dropped;
    and a match dropped by the first pass is dropped again. *)
Theorem colorize_regex_second_pass db lo hi (ex : regex) color :
  covers db lo hi → db ≠ [] → real_splitable db →
  matches_in_order lo hi (ex lo hi) →
  ∃ db',
    colorize_regex db ex color = Ok db'
    ∧ ∀ color', colorize_regex db' ex color' = Ok db'.
Proof.
  intros Hc Hne Hsp Hms.
  destruct (colorize_regex_pass db lo hi ex color)
    as (db' & Hrun & Hc' & Hne' & Hsp' & _); [done..|].
  exists db'. split; [done|]. intros color'.
  unfold colorize_regex in *.
  destruct (covers_display_ends _ _ _ Hc Hne) as [Hlo Hhi].
  rewrite Hlo, Hhi in Hrun. cbn [mbind result_bind] in Hrun.
  destruct (covers_display_ends _ _ _ Hc' Hne') as [-> ->].
  cbn [mbind result_bind].
  assert (∀ m, m ∈ ex lo hi → hint_behind db 0 m.1) as Hh
    by (intros m _ i a _ Hlt; lia).
  destruct (colorize_matches_settles color (ex lo hi) db lo hi 0)
    as (db'' & Hrun'' & Hset); [done..|].
  rewrite Hrun in Hrun''. injection Hrun'' as <-.
  apply (colorize_matches_settled color' _ db' lo hi 0); [done..| |done].
  intros m _ i a _ Hlt. lia.
Qed.

Lemma colorize_regex_second_pass_witness :
  let db := [new_atom 0 4 Default White; new_atom 4 10 Default Default] in
  ∃ db',
    colorize_regex db (λ _ _, [(1, 3); (3, 6); (7, 9)]) Red = Ok db'
    ∧ colorize_regex db' (λ _ _, [(1, 3); (3, 6); (7, 9)]) Blue = Ok db'.
Proof.
  intros db.
  destruct (colorize_regex_second_pass db 0 10
              (λ _ _, [(1, 3); (3, 6); (7, 9)]) Red)
    as (db' & Hrun & Hagain).
  - simpl. repeat split; lia.
  - discriminate.
  - intros a Ha _. repeat (apply elem_of_cons in Ha as [->|Ha]; [reflexivity|]).
    by apply elem_of_nil in Ha.
  - split.
    + repeat constructor; simpl; lia.
    + repeat constructor; simpl; lia.
  - exists db'. split; [exact Hrun|exact (Hagain Blue)].
Defined.

(** X4: on a display buffer with atoms that satisfies the partition
    invariants and has its real atoms splitable, and with every one of the
    seven patterns giving matches in order inside the range,
    [colorize_cplusplus] completes: none of its passes leaves the next one
    a display buffer it would fail on.  The outcome covers the same range,
    and each of its atoms is a stretch of an atom of the display buffer
    with its background, attributes, content and splitable flag, the
    foreground either unchanged or one of the six colors of the passes. *)
Theorem colorize_cplusplus_completes (boost : cpp_pattern → regex) db lo hi :
  covers db lo hi → db ≠ [] → real_splitable db →
  (∀ p, matches_in_order lo hi (boost p lo hi)) →
  ∃ db',
    colorize_cplusplus boost db = Ok db'
    ∧ covers db' lo hi ∧ real_splitable db'
    ∧ ∀ a', a' ∈ db' → ∃ a, a ∈ db ∧ refined cpp_colors a' a.
Proof.
  intros Hc Hne Hsp Hms. unfold colorize_cplusplus.
  assert (∀ a, a ∈ db → ∃ a0, a0 ∈ db ∧ refined cpp_colors a a0) as Hr.
  { intros a Ha. exists a. split; [done|]. repeat split; try done. by left. }
  destruct (colorize_regex_refines db lo hi (boost preprocessor) Magenta
              cpp_colors db)
    as (d1 & -> & Hc1 & Hne1 & Hsp1 & Hr1);
    [done|done|done|done|by repeat constructor|done|];
    cbn [mbind result_bind].
  destruct (colorize_regex_refines d1 lo hi (boost comments) Cyan
              cpp_colors db)
    as (d2 & -> & Hc2 & Hne2 & Hsp2 & Hr2);
    [done|done|done|done|by repeat constructor|done|];
    cbn [mbind result_bind].
  destruct (colorize_regex_refines d2 lo hi (boost strings) Magenta
              cpp_colors db)
    as (d3 & -> & Hc3 & Hne3 & Hsp3 & Hr3);
    [done|done|done|done|by repeat constructor|done|];
    cbn [mbind result_bind].
  destruct (colorize_regex_refines d3 lo hi (boost values) Red
              cpp_colors db)
    as (d4 & -> & Hc4 & Hne4 & Hsp4 & Hr4);
    [done|done|done|done|by repeat constructor|done|];
    cbn [mbind result_bind].
  destruct (colorize_regex_refines d4 lo hi (boost builtin_types) Yellow
              cpp_colors db)
    as (d5 & -> & Hc5 & Hne5 & Hsp5 & Hr5);
    [done|done|done|done|by repeat constructor|done|];
    cbn [mbind result_bind].
  destruct (colorize_regex_refines d5 lo hi (boost control_keywords) Blue
              cpp_colors db)
    as (d6 & -> & Hc6 & Hne6 & Hsp6 & Hr6);
    [done|done|done|done|by repeat constructor|done|];
    cbn [mbind result_bind].
  destruct (colorize_regex_refines d6 lo hi (boost types_keywords) Green
              cpp_colors db)
    as (d7 & -> & Hc7 & Hne7 & Hsp7 & Hr7);
    [done|done|done|done|by repeat constructor|done|];
    cbn [mbind result_bind].
  by exists d7.
Qed.

Lemma colorize_cplusplus_completes_witness :
  let db := [new_atom 0 4 Default White; new_atom 4 10 Default Default] in
  let boost := λ p : cpp_pattern,
    match p with
    | comments => λ _ _ : nat, [(1, 3)]
    | values => λ _ _, [(2, 3); (5, 7)]
    | _ => λ _ _, []
    end in
  ∃ db', colorize_cplusplus boost db = Ok db' ∧ covers db' 0 10.
Proof.
  intros db boost.
  destruct (colorize_cplusplus_completes boost db 0 10)
    as (db' & Hrun & Hc & _).
  - simpl. repeat split; lia.
  - discriminate.
  - intros a Ha _. repeat (apply elem_of_cons in Ha as [->|Ha]; [reflexivity|]).
    by apply elem_of_nil in Ha.
  - intros p. destruct p; split; repeat constructor; simpl; lia.
  - exists db'. split; [exact Hrun|exact Hc].
Defined.

(** The count of atoms through the loop over the matches: a match that
    is colored leaves one or two atoms more, a match that is dropped none. *)
Lemma colorize_matches_count color ms db hint db' :
  colorize_matches color db hint ms = Ok db' →
  length db ≤ length db' ≤ length db + 2 * length ms.
Proof.
  revert db hint. induction ms as [|[mbegin mend] ms IH]; intros db hint Hrun.
  - injection Hrun as <-. simpl. lia.
  - cbn [colorize_matches] in Hrun.
    apply bind_Ok in Hrun as ([db1 hint1] & H1 & Hrun).
    apply IH in Hrun. cbn [length].
    apply colorize_match_inv in H1
      as [->|(pre & a & rest & -> & _ & _ & _ & _ & ->)]; [lia|].
    rewrite ?length_app in *. cbn [length] in *. rewrite ?length_app in *.
    destruct (a_begin a =? mbegin); cbn [length] in *; lia.
Qed.

(** X16: a completed run of [colorize_regex] leaves at least as many
    atoms as there were and at most two more for each match of the
    pattern over the range of the display buffer. *)
Theorem colorize_regex_adds_two_atoms_a_match db (ex : regex) color db' :
  colorize_regex db ex color = Ok db' →
  ∃ lo hi,
    display_begin db = Ok lo ∧ display_end db = Ok hi
    ∧ length db ≤ length db' ≤ length db + 2 * length (ex lo hi).
Proof.
  unfold colorize_regex. intros Hrun.
  apply bind_Ok in Hrun as (lo & Hlo & Hrun).
  apply bind_Ok in Hrun as (hi & Hhi & Hrun).
  exists lo, hi. split; [done|]. split; [done|].
  by eapply colorize_matches_count.
Qed.

Lemma colorize_regex_adds_two_atoms_a_match_witness :
  let db := [new_atom 0 4 Default White; new_atom 4 10 Default Default] in
  ∃ db',
    colorize_regex db (λ _ _, [(1, 3); (3, 6); (7, 9)]) Red = Ok db'
    ∧ length db ≤ length db' ≤ length db + 6.
Proof.
  intros db. eexists. split; [reflexivity|].
  destruct (colorize_regex_adds_two_atoms_a_match db
              (λ _ _, [(1, 3); (3, 6); (7, 9)]) Red _ eq_refl)
    as (lo & hi & _ & _ & Hlen).
  exact Hlen.
Defined.

(** ** The tab expander, over a whole run *)

Lemma expanded_from_stretch (b : Buffer) a' a from to :
  a_begin a ≤ from → to ≤ a_end a →
  expanded_from b a' (set_range a from to) → expanded_from b a' a.
Proof.
  intros Hfrom Hto [(p & Hp & Hbp & ->)|(f & t & Hf & Ht & -> & Hno)].
  - left. exists p. split; [|done].
    apply contains_spec in Hp. cbn in Hp. apply contains_spec. lia.
  - right. exists f, t. cbn in Hf, Ht. repeat split; (done || lia).
Qed.

(** The loop over the atoms, as [expand_from_zip] has it: every atom of the
    outcome comes from an atom ahead of the iterator, as the atom of one of
    its tabs or as a stretch of it without a tab. *)
Lemma expand_from_pieces (b : Buffer) fuel pre todo lo hi :
  covers todo lo hi → hi ≤ length b → real_splitable todo →
  length todo + 2 * (hi - lo) ≤ fuel →
  ∃ todo',
    expand_from fuel b (pre ++ todo) (length pre) = Ok (pre ++ todo')
    ∧ ∀ a', a' ∈ todo' → ∃ a, a ∈ todo ∧ expanded_from b a' a.
Proof.
  revert pre todo lo.
  induction fuel as [|fuel IH]; intros pre todo lo Hc Hb Hsp Hfuel;
    (destruct todo as [|a rest];
     [exists []; split;
      [cbn [expand_from];
       by rewrite (proj2 (lookup_ge_None _ _))
         by (rewrite app_nil_r; lia)|];
      intros a' Ha'; by apply elem_of_nil in Ha'|]).
  { simpl in Hfuel. lia. }
  simpl in Hfuel. destruct Hc as (Hlo & Hle & Hc).
  pose proof (covers_le _ _ _ Hc) as Hhi.
  pose proof (real_splitable_wide _ _ Hsp) as Hwide.
  apply real_splitable_cons in Hsp as [Ha Hsp].
  cbn [expand_from]. rewrite lookup_zip.
  destruct (scan_atom_zip b (a_end a - a_begin a) pre a rest (a_begin a))
    as [[Hno Hrun]|(p0 & Hp0 & Hbp0 & Hno & Hrun)]; [lia..|done| |];
    rewrite Hrun.
  - rewrite (zip_next pre), <- (length_snoc pre a).
    destruct (IH (pre ++ [a]) rest (a_end a)) as (todo'' & -> & Hpieces);
      [done..|lia|].
    exists (a :: todo''). split; [by rewrite <- app_assoc|].
    intros a' [->|Ha']%elem_of_cons.
    + exists a. split; [by left|]. right. exists (a_begin a), (a_end a).
      by rewrite set_range_same.
    + destruct (Hpieces a' Ha') as (x & Hx & Hex).
      exists x. split; [by right|done].
  - assert (pre ++ before_tab a p0 ++ tab_atom b a p0 :: after_tab a p0 ++ rest
            = (pre ++ before_tab a p0 ++ [tab_atom b a p0])
                ++ (after_tab a p0 ++ rest)) as ->
      by (by rewrite <- !app_assoc).
    assert (S (length (pre ++ before_tab a p0))
            = length (pre ++ before_tab a p0 ++ [tab_atom b a p0])) as ->
      by (rewrite !length_app; simpl; lia).
    destruct (IH (pre ++ before_tab a p0 ++ [tab_atom b a p0])
                (after_tab a p0 ++ rest) (p0 + 1))
      as (todo'' & -> & Hpieces).
    + unfold after_tab.
      destruct (Nat.eqb_spec (p0 + 1) (a_end a)) as [->|Hne]; [done|].
      cbn. repeat split; (done || lia).
    + done.
    + unfold after_tab.
      destruct (Nat.eqb_spec (p0 + 1) (a_end a)) as [Heq|Hne]; [done|].
      apply real_splitable_cons. split; [|done]. intros _. cbn. apply Hwide. lia.
    + unfold after_tab. destruct (p0 + 1 =? a_end a); simpl; lia.
    + exists (before_tab a p0 ++ tab_atom b a p0 :: todo'').
      split; [by rewrite <- !app_assoc|].
      intros a' [Ha'|[->|Ha']%elem_of_cons]%elem_of_app.
      * exists a. split; [by left|]. right. unfold before_tab in Ha'.
        destruct (p0 =? a_begin a); [by apply elem_of_nil in Ha'|].
        apply list_elem_of_singleton in Ha' as ->.
        exists (a_begin a), p0. repeat split; (done || lia).
      * exists a. split; [by left|]. left. exists p0.
        split; [apply contains_spec; lia|done].
      * destruct (Hpieces a' Ha') as (x & Hx & Hex).
        unfold after_tab in Hx.
        destruct (p0 + 1 =? a_end a); [exists x; split; [by right|done]|].
        apply elem_of_cons in Hx as [->|Hx]; [|exists x; split; [by right|done]].
        exists a. split; [by left|].
        apply (expanded_from_stretch b a' a (p0 + 1) (a_end a)); (done || lia).
Qed.

Lemma expanded_from_done (b : Buffer) a' a :
  expanded_from b a' a → tab_done b a'.
Proof.
  intros [(p & Hp & Hbp & ->)|(f & t & Hf & Ht & -> & Hno)].
  - right. cbn. by rewrite Nat.add_1_r.
  - by left.
Qed.

(** The loop over the positions of an atom without a tab. *)
Lemma scan_atom_no_tab (b : Buffer) n pre a rest it :
  it + n = a_end a → a_end a ≤ length b → no_tab b it (a_end a) →
  scan_atom n b (pre ++ a :: rest) (length pre) it
  = Ok (pre ++ a :: rest, length pre).
Proof.
  revert it. induction n as [|n IH]; intros it Hn Hb Hno;
    cbn [scan_atom]; rewrite lookup_zip.
  - by assert ((it =? a_end a) = true) as -> by (apply Nat.eqb_eq; lia).
  - assert ((it =? a_end a) = false) as -> by (apply Nat.eqb_neq; lia).
    destruct (b !! it) as [c|] eqn:Hc; [|apply lookup_ge_None in Hc; lia].
    unfold read. rewrite Hc.
    destruct (is_tab c) eqn:Htab.
    + apply is_tab_spec in Htab as ->. destruct (Hno it); [lia|done].
    + apply IH; [lia|done|]. intros p Hp. apply Hno. lia.
Qed.

(** Over atoms that need nothing more the loop over the atoms changes
    nothing. *)
Lemma expand_from_done (b : Buffer) fuel pre todo lo hi :
  covers todo lo hi → hi ≤ length b → Forall (tab_done b) todo →
  length todo ≤ fuel →
  expand_from fuel b (pre ++ todo) (length pre) = Ok (pre ++ todo).
Proof.
  revert fuel pre lo. induction todo as [|a rest IH];
    intros fuel pre lo Hc Hb Hdone Hfuel.
  { destruct fuel; cbn [expand_from];
      by rewrite (proj2 (lookup_ge_None _ _)) by (rewrite app_nil_r; lia). }
  destruct fuel as [|fuel]; [simpl in Hfuel; lia|]. simpl in Hfuel.
  destruct Hc as (Hlo & Hle & Hc). pose proof (covers_le _ _ _ Hc) as Hhi.
  apply Forall_cons in Hdone as [Ha Hdone].
  cbn [expand_from]. rewrite lookup_zip.
  assert (scan_atom (a_end a - a_begin a) b (pre ++ a :: rest) (length pre)
            (a_begin a) = Ok (pre ++ a :: rest, length pre)) as ->.
  { destruct Ha as [Hno|(He & Hbp & Hcont)].
    - apply scan_atom_no_tab; (done || lia).
    - destruct (scan_atom_zip b (a_end a - a_begin a) pre a rest (a_begin a))
        as [[Hno _]|(p & Hp & _ & _ & ->)]; [lia..| | |].
      + lia.
      + destruct (Hno (a_begin a)); [lia|done].
      + assert (p = a_begin a) as -> by lia.
        unfold before_tab, after_tab, tab_atom.
        rewrite Nat.eqb_refl, <- He, Nat.eqb_refl, set_range_same.
        cbn [app]. rewrite app_nil_r. do 3 f_equal.
        destruct a; cbn in *. by rewrite Hcont. }
  rewrite (zip_next pre), <- (length_snoc pre a).
  rewrite (IH fuel (pre ++ [a]) (a_end a)); [by rewrite <- app_assoc|done..|lia].
Qed.

(** The run of [expand_tabulations], with all that is shown of it. *)
Lemma expand_tabulations_run (b : Buffer) db lo hi :
  covers db lo hi → hi ≤ length b → real_splitable db →
  ∃ db',
    expand_tabulations b db = Ok db'
    ∧ covers db' lo hi
    ∧ ∀ a', a' ∈ db' → ∃ a, a ∈ db ∧ expanded_from b a' a.
Proof.
  intros Hc Hb Hsp. unfold expand_tabulations.
  destruct (expand_from_zip b (length db + 2 * width db) [] db lo hi)
    as (db' & Hrun & Hc' & _); [done..|by rewrite (covers_width _ _ _ Hc)|].
  destruct (expand_from_pieces b (length db + 2 * width db) [] db lo hi)
    as (db'' & Hrun' & Hpieces); [done..|by rewrite (covers_width _ _ _ Hc)|].
  cbn [app length] in *. rewrite Hrun in Hrun'. injection Hrun' as <-.
  by exists db'.
Qed.

(** X5: on a display buffer that satisfies the partition invariants, lies
    within the buffer and has its real atoms splitable, [expand_tabulations]
    touches the tabs only: every atom of the outcome is either the atom of
    a tab of the covered range, with the style of the atom the tab was in
    and the spaces as its content, or a stretch without a tab of an atom of
    the display buffer, with the style and the content of that atom. *)
Theorem expand_tabulations_only_tabs (b : Buffer) db lo hi :
  covers db lo hi → hi ≤ length b → real_splitable db →
  ∃ db',
    expand_tabulations b db = Ok db'
    ∧ ∀ a', a' ∈ db' → ∃ a, a ∈ db ∧ expanded_from b a' a.
Proof.
  intros Hc Hb Hsp.
  destruct (expand_tabulations_run b db lo hi) as (db' & Hrun & _ & Hpieces);
    [done..|].
  by exists db'.
Qed.

Lemma expand_tabulations_only_tabs_witness :
  let b := ["a"; tab_char; "b"; "c"]%char in
  let db := [new_atom 0 3 Red Default; new_atom 3 4 Default Default] in
  ∃ db',
    expand_tabulations b db = Ok db'
    ∧ ∀ a', a' ∈ db' → ∃ a, a ∈ db ∧ expanded_from b a' a.
Proof.
  intros b db. apply (expand_tabulations_only_tabs b db 0 4).
  - simpl. repeat split; lia.
  - simpl. lia.
  - intros a Ha _. repeat (apply elem_of_cons in Ha as [->|Ha]; [reflexivity|]).
    by apply elem_of_nil in Ha.
Defined.

(** X6: [expand_tabulations] run on its own outcome changes nothing: the
    atom of a tab begins at the tab and ends after it, so nothing is split,
    and the column of the tab is computed from the buffer again, so the
    same spaces are set. *)
Theorem expand_tabulations_twice (b : Buffer) db lo hi :
  covers db lo hi → hi ≤ length b → real_splitable db →
  ∃ db',
    expand_tabulations b db = Ok db' ∧ expand_tabulations b db' = Ok db'.
Proof.
  intros Hc Hb Hsp.
  destruct (expand_tabulations_run b db lo hi) as (db' & Hrun & Hc' & Hpieces);
    [done..|].
  exists db'. split; [done|]. unfold expand_tabulations.
  apply (expand_from_done b _ [] db' lo hi); [done..| |lia].
  apply Forall_forall. intros a' Ha'.
  destruct (Hpieces a' Ha') as (a & _ & Hex). by eapply expanded_from_done.
Qed.

Lemma expand_tabulations_twice_witness :
  let b := ["a"; tab_char; "b"; "c"]%char in
  let db := [new_atom 0 3 Red Default; new_atom 3 4 Default Default] in
  ∃ db',
    expand_tabulations b db = Ok db' ∧ expand_tabulations b db' = Ok db'.
Proof.
  intros b db. apply (expand_tabulations_twice b db 0 4).
  - simpl. repeat split; lia.
  - simpl. lia.
  - intros a Ha _. repeat (apply elem_of_cons in Ha as [->|Ha]; [reflexivity|]).
    by apply elem_of_nil in Ha.
Defined.

(** The column loop stops on a newline only: where none is in its way it
    runs to its end or off the end of the buffer. *)
Lemma replay_column_no_newline (b : Buffer) n start col :
  existsb is_newline (take n (drop start b)) = false →
  replay_column b n start col ≠ Fail NewlineInLine.
Proof.
  revert start col. induction n as [|n IH]; intros start col Hnl; [done|].
  cbn [replay_column]. unfold read, mbind, result_bind.
  destruct (b !! start) as [c|] eqn:Hc; [|done].
  rewrite (drop_S _ _ _ Hc) in Hnl. cbn [take existsb] in Hnl.
  apply orb_false_iff in Hnl as [-> Hnl]. by apply IH.
Qed.

(** X7: when [expand_tab] has gone through for the tab at [it], the atom
    under the iterator it hands back has as its content a run of spaces,
    at least one and at most eight of them, that takes the column computed
    for the tab to a multiple of the tab stop. *)
Theorem tab_fills_to_next_stop (b : Buffer) db atom_it it db' it' :
  expand_tab b db atom_it it = Ok (db', it') →
  ∃ c col count,
    db' !! it' = Some c ∧ column_at b it = Ok col
    ∧ content_override c = Some (spaces count)
    ∧ String.length (spaces count) = count
    ∧ 1 ≤ count ≤ tabstop
    ∧ (col + count) mod tabstop = 0.
Proof.
  unfold expand_tab. intros Hrun. ok_inv.
  match goal with
  | Hd : deref ?d ?i = Ok ?x, Hc : column_at _ _ = Ok ?col |- _ =>
    exists (set_content (spaces (tabstop - col mod tabstop)) x), col,
           (tabstop - col mod tabstop);
    unfold deref in Hd; destruct (d !! i) eqn:Hi; [|done];
    injection Hd as ->
  end.
  unfold replace_atom_content. rewrite list_lookup_alter, Hi.
  rewrite decide_True by done.
  split; [reflexivity|]. split; [done|]. split; [done|].
  split; [apply spaces_length|]. unfold tabstop.
  match goal with |- context [?col mod 8] =>
    pose proof (Nat.mod_upper_bound col 8 ltac:(lia));
    pose proof (Nat.div_mod_eq col 8);
    split; [lia|];
    replace (col + (8 - col mod 8)) with ((col / 8 + 1) * 8) by lia
  end.
  apply Nat.Div0.mod_mul.
Qed.

Lemma tab_fills_to_next_stop_witness :
  let b := ["a"; "b"; "c"; tab_char; "d"]%char in
  ∃ db' it' c,
    expand_tab b [new_atom 0 5 Default Default] 0 3 = Ok (db', it')
    ∧ db' !! it' = Some c ∧ content_override c = Some (spaces 5).
Proof.
  intros b.
  destruct (tab_fills_to_next_stop b [new_atom 0 5 Default Default] 0 3
              _ _ eq_refl)
    as (c & col & count & Hc & Hcol & Hcont & _).
  eexists _, _, c. split; [reflexivity|]. split; [exact Hc|].
  injection Hc as <-. reflexivity.
Defined.

(** X8: the assertion of line 89 holds whenever it is evaluated: the
    column loop starts at the start of the line of the position it runs up
    to, as the buffer gives it, and so meets no newline on its way,
    whatever the buffer and the position. *)
Theorem column_loop_meets_no_newline (b : Buffer) it :
  column_at b it ≠ Fail NewlineInLine.
Proof.
  unfold column_at, line_and_column_at, iterator_at. cbn [line column].
  rewrite Nat.add_0_r.
  destruct (line_start_spec b it) as [Hle Heq].
  apply Nat.leb_le in Hle as ->.
  apply replay_column_no_newline. rewrite Heq.
  apply after_last_newline_clean.
Qed.

(** ** The line-number gutter, over a whole run *)

Lemma cut_of_trans a'' a' a : cut_of a'' a' → cut_of a' a → cut_of a'' a.
Proof.
  intros [->|(f & t & Hf & Hlt & Ht & ->)] H; [done|].
  destruct H as [->|(f' & t' & Hf' & Hlt' & Ht' & ->)].
  - right. by exists f, t.
  - right. exists f, t. cbn in *. repeat split; (done || lia).
Qed.

(** One round of the loop over the lines adds at most two atoms; each atom
    it leaves is an atom that was there, a stretch of one, or the gutter
    atom of the line at the position looked for. *)
Lemma number_line_pieces (b : Buffer) db coord db' :
  number_line b db coord = Ok db' →
  length db' ≤ length db + 2
  ∧ ∀ a', a' ∈ db' →
      (∃ a, a ∈ db ∧ cut_of a' a)
      ∨ a' = gutter_atom (iterator_at b coord) (line coord + 1).
Proof.
  intros Hrun.
  assert (∀ a, a ∈ db → (∃ a0, a0 ∈ db ∧ cut_of a a0)
                        ∨ a = gutter_atom (iterator_at b coord) (line coord + 1))
    as Hsame by (intros a Ha; left; exists a; split; [done|by left]).
  destruct (db !! atom_containing db (iterator_at b coord) 0) as [a|] eqn:Hi.
  - apply list_elem_of_split_length in Hi as (pre & rest & -> & Hi).
    rewrite (number_line_zip _ _ _ _ _ Hi) in Hrun.
    destruct (atom_containing_found _ _ _ _ a Hi (lookup_zip _ _ _)) as [Hc _].
    apply contains_spec in Hc.
    destruct (Nat.eqb_spec (a_begin a) (iterator_at b coord)) as [Heq|Hne];
      cbn [negb] in Hrun; [|destruct (splitable a); cbn [negb] in Hrun];
      injection Hrun as <-.
    + split; [rewrite !length_app; simpl; lia|].
      intros a' [Ha'|[->|Ha']%elem_of_cons]%elem_of_app; [|by right|];
        apply Hsame; rewrite elem_of_app; tauto.
    + split; [rewrite !length_app; simpl; lia|].
      intros a' [Ha'|Ha']%elem_of_app;
        [apply Hsame; rewrite elem_of_app; tauto|].
      repeat apply elem_of_cons in Ha' as [->|Ha'].
      * left. exists a. split; [rewrite elem_of_app, elem_of_cons; tauto|].
        right. exists (a_begin a), (iterator_at b coord).
        repeat split; (done || lia).
      * by right.
      * left. exists a. split; [rewrite elem_of_app, elem_of_cons; tauto|].
        right. exists (iterator_at b coord), (a_end a).
        repeat split; (done || lia).
      * apply Hsame. rewrite elem_of_app, elem_of_cons. tauto.
    + split; [lia|done].
  - unfold number_line in Hrun. rewrite Hi in Hrun. injection Hrun as <-.
    split; [lia|done].
Qed.

Lemma number_lines_pieces (b : Buffer) n db coord db' :
  number_lines n b db coord = Ok db' →
  length db' ≤ length db + 2 * n
  ∧ ∀ a', a' ∈ db' →
      (∃ a, a ∈ db ∧ cut_of a' a)
      ∨ ∃ l, line coord ≤ l < line coord + n
             ∧ a' = gutter_atom
                      (iterator_at b {| line := l; column := column coord |})
                      (l + 1).
Proof.
  revert db coord. induction n as [|n IH]; intros db coord Hrun.
  - injection Hrun as <-. split; [lia|].
    intros a' Ha'. left. exists a'. split; [done|by left].
  - cbn [number_lines] in Hrun. apply bind_Ok in Hrun as (db1 & H1 & Hrun).
    apply number_line_pieces in H1 as [Hlen1 Hp1].
    apply IH in Hrun as [Hlen Hp]. cbn [line column] in Hp.
    split; [lia|]. intros a' Ha'.
    destruct (Hp a' Ha') as [(x & Hx & Hcut)|(l & Hl & ->)].
    + destruct (Hp1 x Hx) as [(a & Ha & Hcut')| ->].
      * left. exists a. split; [done|]. by eapply cut_of_trans.
      * right. exists (line coord). split; [lia|].
        destruct Hcut as [->|(f & t & Hf & Hlt & Ht & _)];
          [by destruct coord|cbn in Hf, Ht; lia].
    + right. exists l. split; [lia|done].
Qed.

(** X9: a completed run of [show_line_numbers] adds gutter atoms and
    nothing else, at most two atoms for each line from the line of the
    begin of the display buffer to the line of its last position: every
    atom of the outcome is an atom of the display buffer, a stretch of one
    with its style, or the gutter atom of one of those lines, carrying the
    number of the line counted from 1.  The gutter atom of a line sits at
    the position of that line at the column of the display buffer's begin,
    which the loop keeps from line to line. *)
Theorem show_line_numbers_only_adds_gutters (b : Buffer) db db' :
  show_line_numbers b db = Ok db' →
  ∃ first last,
    display_begin db = Ok first ∧ display_end db = Ok last
    ∧ length db' ≤ length db + 2 * (S (line_of b (last - 1)) - line_of b first)
    ∧ ∀ a', a' ∈ db' →
        (∃ a, a ∈ db ∧ cut_of a' a)
        ∨ ∃ l, line_of b first ≤ l ≤ line_of b (last - 1)
               ∧ a' = gutter_atom (gutter_position b first l) (l + 1).
Proof.
  unfold show_line_numbers. intros Hrun.
  apply bind_Ok in Hrun as (first & Hfirst & Hrun).
  apply bind_Ok in Hrun as (last & Hlast & Hrun).
  exists first, last. split; [done|]. split; [done|].
  apply number_lines_pieces in Hrun as [Hlen Hp].
  unfold gutter_position, line_and_column_at in *. cbn [line column] in *.
  split; [done|]. intros a' Ha'.
  destruct (Hp a' Ha') as [?|(l & Hl & ->)]; [by left|].
  right. exists l. split; [lia|done].
Qed.

Lemma show_line_numbers_only_adds_gutters_witness :
  let b := ["a"; newline_char; "b"; "c"]%char in
  let db := [new_atom 0 4 Default Default] in
  ∃ db',
    show_line_numbers b db = Ok db'
    ∧ length db' ≤ 5
    ∧ ∀ a', a' ∈ db' →
        (∃ a, a ∈ db ∧ cut_of a' a)
        ∨ ∃ l, 0 ≤ l ≤ 1 ∧ a' = gutter_atom (gutter_position b 0 l) (l + 1).
Proof.
  intros b db. eexists.
  destruct (show_line_numbers_only_adds_gutters b db _ eq_refl)
    as (first & last & Hfirst & Hlast & Hlen & Hp).
  injection Hfirst as <-. injection Hlast as <-.
  split; [reflexivity|]. split; [exact Hlen|exact Hp].
Defined.

Lemma line_of_mono (b : Buffer) p q : p ≤ q → line_of b p ≤ line_of b q.
Proof.
  revert p q. induction b as [|c b IH]; intros p q Hle.
  - by destruct p, q.
  - destruct p as [|p]; [simpl; lia|]. destruct q as [|q]; [lia|].
    simpl. specialize (IH p q). lia.
Qed.

Lemma line_offset_mono (b : Buffer) l l' :
  l ≤ l' → line_offset b l ≤ line_offset b l'.
Proof.
  revert l l'. induction b as [|c b IH]; intros l l' Hle.
  - by destruct l, l'.
  - destruct l as [|l]; [simpl; lia|]. destruct l' as [|l']; [lia|].
    simpl. destruct (is_newline c); apply le_n_S, IH; lia.
Qed.

(** The coordinates of a position lead back to it. *)
Lemma iterator_at_line_and_column (b : Buffer) p :
  iterator_at b (line_and_column_at b p) = p.
Proof.
  unfold iterator_at, line_and_column_at. cbn [line column].
  destruct (line_start_spec b p) as [Hle _]. lia.
Qed.

Lemma gutter_atom_synthetic pos n : is_real (gutter_atom pos n) = false.
Proof. unfold is_real. cbn. apply Nat.ltb_irrefl. Qed.

Lemma number_line_real_splitable (b : Buffer) db coord db' :
  number_line b db coord = Ok db' → real_splitable db → real_splitable db'.
Proof.
  intros Hrun Hsp.
  destruct (db !! atom_containing db (iterator_at b coord) 0) as [a|] eqn:Hi.
  - apply list_elem_of_split_length in Hi as (pre & rest & -> & Hi).
    rewrite (number_line_zip _ _ _ _ _ Hi) in Hrun.
    assert (∀ x, x ∈ pre ∨ x = a ∨ x ∈ rest →
                 is_real x = true → splitable x = true) as Hold
      by (intros x Hx; apply Hsp; rewrite elem_of_app, elem_of_cons; tauto).
    destruct (negb (a_begin a =? iterator_at b coord));
      [destruct (splitable a) eqn:Hs; cbn [negb] in Hrun|];
      injection Hrun as <-; intros x Hx Hreal;
      rewrite elem_of_app, !elem_of_cons in Hx;
      destruct_or!; subst;
      rewrite ?gutter_atom_synthetic in Hreal; try done; apply Hold; tauto.
  - unfold number_line in Hrun. rewrite Hi in Hrun. by injection Hrun as <-.
Qed.

(** One round of the loop over the lines, for a line whose position is in
    the covered range, in an atom that begins there or may be split: the
    gutter atom is put in. *)
Lemma number_line_gutter (b : Buffer) db lo hi coord :
  covers db lo hi → lo ≤ iterator_at b coord < hi →
  (∀ a, a ∈ db → a_begin a < iterator_at b coord < a_end a →
        splitable a = true) →
  ∃ db',
    number_line b db coord = Ok db'
    ∧ gutter_atom (iterator_at b coord) (line coord + 1) ∈ db'.
Proof.
  intros Hc Hin Hsp.
  destruct (proj2 (covers_covered db lo hi _ Hc) Hin) as (a & Ha & Hca).
  apply list_elem_of_lookup_1 in Ha as [i Hi].
  pose proof (atom_containing_unique _ _ _ _ 0 _ _ Hc (Nat.le_0_l i) Hi Hca)
    as Hfound.
  apply list_elem_of_lookup_2 in Hi as Ha.
  apply list_elem_of_split_length in Hi as (pre & rest & -> & ->).
  rewrite (number_line_zip _ _ _ _ _ Hfound).
  apply contains_spec in Hca.
  destruct (Nat.eqb_spec (a_begin a) (iterator_at b coord)) as [Heq|Hne];
    cbn [negb].
  - eexists. split; [done|]. rewrite elem_of_app, elem_of_cons. tauto.
  - rewrite (Hsp a Ha) by lia. cbn [negb].
    eexists. split; [done|]. rewrite elem_of_app, !elem_of_cons. tauto.
Qed.

Lemma number_lines_gutters (b : Buffer) n db lo hi coord :
  covers db lo hi → real_splitable db →
  (∀ l, line coord ≤ l < line coord + n →
        lo ≤ iterator_at b {| line := l; column := column coord |} < hi) →
  ∃ db',
    number_lines n b db coord = Ok db'
    ∧ ∀ l, line coord ≤ l < line coord + n →
           gutter_atom (iterator_at b {| line := l; column := column coord |})
             (l + 1) ∈ db'.
Proof.
  revert db coord. induction n as [|n IH]; intros db coord Hc Hsp Hin.
  { exists db. split; [done|]. intros l Hl. lia. }
  cbn [number_lines].
  destruct (number_line_gutter b db lo hi coord) as (db1 & Hrun1 & Hg1);
    [done| |..].
  { specialize (Hin (line coord) ltac:(lia)). by destruct coord. }
  { intros a Ha Hp. apply Hsp; [done|]. apply is_real_spec. lia. }
  rewrite Hrun1. cbn [mbind result_bind].
  destruct (IH db1 {| line := line coord + 1; column := column coord |})
    as (db' & Hrun & Hg).
  - eapply covers_edits; [by eapply number_line_edits|done].
  - by eapply number_line_real_splitable.
  - cbn [line column]. intros l Hl. apply Hin. lia.
  - exists db'. split; [done|]. cbn [line column] in Hg. intros l Hl.
    destruct (decide (l = line coord)) as [->|Hne]; [|apply Hg; lia].
    eapply number_lines_keeps_synthetic; [done| |apply gutter_atom_synthetic].
    by destruct coord.
Qed.

(** X10: on a display buffer that satisfies the partition invariants and
    covers at least one position, [show_line_numbers] completes and the
    outcome has the gutter atom of the first line at the begin of the
    display buffer, numbered with the line of that position counted from
    1.  No atom need be splitable for it: the first real atom begins
    there. *)
Theorem first_gutter_at_display_begin (b : Buffer) db lo hi :
  covers db lo hi → lo < hi →
  ∃ db',
    show_line_numbers b db = Ok db'
    ∧ gutter_atom lo (line_of b lo + 1) ∈ db'.
Proof.
  intros Hc Hlt.
  assert (db ≠ []) as Hne by (intros ->; simpl in Hc; lia).
  unfold show_line_numbers.
  destruct (covers_display_ends _ _ _ Hc Hne) as [-> ->].
  cbn [mbind result_bind].
  pose proof (line_of_mono b lo (hi - 1) ltac:(lia)) as Hmono.
  change (line (line_and_column_at b (hi - 1))) with (line_of b (hi - 1)).
  change (line (line_and_column_at b lo)) with (line_of b lo) at 1.
  replace (S (line_of b (hi - 1)) - line_of b lo)
    with (S (line_of b (hi - 1) - line_of b lo)) by lia.
  cbn [number_lines].
  destruct (number_line_gutter b db lo hi (line_and_column_at b lo))
    as (db1 & -> & Hg).
  - done.
  - rewrite iterator_at_line_and_column. lia.
  - rewrite iterator_at_line_and_column. intros a Ha Hp.
    destruct (covers_within _ _ _ _ Hc Ha). lia.
  - cbn [mbind result_bind].
    destruct (number_lines_total b (line_of b (hi - 1) - line_of b lo) db1
                {| line := line (line_and_column_at b lo) + 1;
                   column := column (line_and_column_at b lo) |})
      as (db' & Hrun).
    exists db'. split; [done|].
    eapply number_lines_keeps_synthetic; [done| |apply gutter_atom_synthetic].
    by rewrite iterator_at_line_and_column in Hg.
Qed.

Lemma first_gutter_at_display_begin_witness :
  let b := ["a"; newline_char; "b"; "c"; newline_char; "d"]%char in
  ∃ db',
    show_line_numbers b [new_atom 3 6 Default Default] = Ok db'
    ∧ gutter_atom 3 2 ∈ db'.
Proof.
  intros b.
  apply (first_gutter_at_display_begin b [new_atom 3 6 Default Default] 3 6).
  - simpl. repeat split; lia.
  - lia.
Defined.

(** X11: on a display buffer that satisfies the partition invariants, has
    its real atoms splitable and begins at the start of a line,
    [show_line_numbers] completes and every line from the line of the
    begin of the display buffer to the line of its last position has its
    gutter atom in the outcome, at the start of the line and numbered with
    the line counted from 1. *)
Theorem every_line_gets_its_gutter (b : Buffer) db lo hi :
  covers db lo hi → lo < hi → real_splitable db →
  line_offset b (line_of b lo) = lo →
  ∃ db',
    show_line_numbers b db = Ok db'
    ∧ ∀ l, line_of b lo ≤ l ≤ line_of b (hi - 1) →
           gutter_atom (line_offset b l) (l + 1) ∈ db'.
Proof.
  intros Hc Hlt Hsp Hstart.
  assert (db ≠ []) as Hne by (intros ->; simpl in Hc; lia).
  unfold show_line_numbers.
  destruct (covers_display_ends _ _ _ Hc Hne) as [-> ->].
  cbn [mbind result_bind].
  unfold line_and_column_at. cbn [line column]. rewrite Hstart, Nat.sub_diag.
  assert (∀ l, line_of b lo ≤ l ≤ line_of b (hi - 1) →
               lo ≤ line_offset b l < hi) as Hin.
  { intros l [Hl Hl']. split.
    - rewrite <- Hstart at 1. by apply line_offset_mono.
    - pose proof (line_offset_mono b _ _ Hl').
      destruct (line_start_spec b (hi - 1)) as [Hle _]. lia. }
  destruct (number_lines_gutters b (S (line_of b (hi - 1)) - line_of b lo) db
              lo hi {| line := line_of b lo; column := 0 |})
    as (db' & Hrun & Hg); [done|done| |].
  - cbn [line column]. intros l Hl. unfold iterator_at. cbn [line column].
    rewrite Nat.add_0_r. apply Hin. lia.
  - exists db'. split; [done|]. intros l Hl.
    specialize (Hg l). cbn [line column] in Hg. unfold iterator_at in Hg.
    cbn [line column] in Hg. rewrite Nat.add_0_r in Hg. apply Hg. lia.
Qed.

Lemma every_line_gets_its_gutter_witness :
  let b := ["a"; newline_char; "b"; "c"; newline_char; "d"]%char in
  ∃ db',
    show_line_numbers b [new_atom 2 6 Default Default] = Ok db'
    ∧ gutter_atom 2 2 ∈ db' ∧ gutter_atom 5 3 ∈ db'.
Proof.
  intros b.
  destruct (every_line_gets_its_gutter b [new_atom 2 6 Default Default] 2 6)
    as (db' & Hrun & Hg).
  - simpl. repeat split; lia.
  - lia.
  - intros a Ha _. repeat (apply elem_of_cons in Ha as [->|Ha]; [reflexivity|]).
    by apply elem_of_nil in Ha.
  - reflexivity.
  - exists db'. split; [exact Hrun|]. split.
    + apply (Hg 1). simpl. lia.
    + apply (Hg 2). simpl. lia.
Defined.

(** ** The selection highlighter, over a whole run *)

(** The sweep over atoms that tile [[lo,hi)] and selections that all lie
    outside that range, no zero-width atom sitting at an end of one of
    them: every round moves past an atom or a selection, nothing else. *)
Lemma sweep_misses fuel done todo cur lo hi :
  length todo + length cur ≤ fuel → covers todo lo hi →
  Forall (misses lo hi) cur →
  (∀ a s, a ∈ todo → s ∈ cur → is_real a = false →
          a_begin a ≠ sel_begin s ∧ a_begin a ≠ sel_end s) →
  sweep fuel (done ++ todo) (length done) cur = Ok (done ++ todo).
Proof.
  revert done todo cur lo.
  induction fuel as [|fuel IH]; intros pre todo cur lo Hfuel Hc Hmiss Hz;
    (destruct todo as [|a rest];
     [by rewrite sweep_end by (apply lookup_ge_None; rewrite app_nil_r; lia)|]);
    (destruct cur as [|s cur]; [by rewrite sweep_no_selection|]).
  { simpl in Hfuel. lia. }
  simpl in Hfuel. destruct Hc as (Hlo & Hle & Hc).
  pose proof (covers_le _ _ _ Hc) as Hhi.
  pose proof (Forall_inv Hmiss) as [Hwf Hs].
  pose proof (Forall_inv_tail Hmiss) as Hcur.
  assert (a_begin a < a_end a
          ∨ (a_begin a ≠ sel_begin s ∧ a_begin a ≠ sel_end s)) as Hreal.
  { destruct (is_real a) eqn:Hr; [left; by apply is_real_spec|].
    right. apply Hz; [by left|by left|done]. }
  rewrite sweep_round. sweep_cases a s; try lia.
  - apply (IH pre (a :: rest) cur lo); [simpl; lia|by cbn|done|].
    intros x y Hx Hy. apply Hz; [done|by right].
  - rewrite (IH (pre ++ [a]) rest (s :: cur) (a_end a));
      [by rewrite <- app_assoc|simpl; lia|done| |].
    + eapply Forall_impl; [exact Hmiss|]. intros y [? ?]. split; [done|lia].
    + intros x y Hx Hy. apply Hz; [by right|done].
Qed.

(** X12: selections that all lie outside the range of the display buffer
    leave it as it is: in whatever order [std::sort] leaves the selections,
    the sweep completes, on whatever atoms, splitable or not, and returns
    the display buffer unchanged, provided no zero-width atom sits at the
    begin or the end of a selection (such an atom passes the test drawn as
    [[#########]] and is underlined). *)
Theorem highlighter_misses_leave_buffer selections sorted db lo hi :
  covers db lo hi → sorted_by_begin selections sorted →
  (∀ s, s ∈ selections → misses lo hi s) →
  (∀ a s, a ∈ db → s ∈ selections → is_real a = false →
          a_begin a ≠ sel_begin s ∧ a_begin a ≠ sel_end s) →
  highlight_sorted db sorted = Ok db.
Proof.
  intros Hc [Hperm _] Hmiss Hz. unfold highlight_sorted.
  apply (sweep_misses _ [] db _ lo hi); [done|done| |].
  - apply Forall_forall. intros s Hs. apply Hmiss. by rewrite <- Hperm.
  - intros a s Ha Hs. apply Hz; [done|]. by rewrite <- Hperm.
Qed.

Lemma highlighter_misses_leave_buffer_witness :
  let db := [new_atom 5 8 Default Default; gutter_atom 8 2;
             new_atom 8 12 Red Default] in
  highlight_sorted db [mkSelection 0 5; mkSelection 2 2; mkSelection 12 20]
  = Ok db
  ∧ SelectionsHighlighter [mkSelection 12 20; mkSelection 0 5; mkSelection 2 2] db
    = Ok db.
Proof.
  intros db. split; [|reflexivity].
  apply (highlighter_misses_leave_buffer
           [mkSelection 12 20; mkSelection 0 5; mkSelection 2 2] _ db 5 12).
  - simpl. repeat split; lia.
  - split.
    + exact (std_sort_Permutation begin_less
               [mkSelection 12 20; mkSelection 0 5; mkSelection 2 2]).
    + repeat constructor; unfold begins_before; simpl; lia.
  - intros s Hs. unfold misses.
    repeat (apply elem_of_cons in Hs as [->|Hs]; [simpl; lia|]).
    by apply elem_of_nil in Hs.
  - intros a s Ha Hs Hr.
    repeat (apply elem_of_cons in Ha as [->|Ha];
            [repeat (apply elem_of_cons in Hs as [->|Hs];
                     [simpl; first [discriminate Hr|lia]|]);
             by apply elem_of_nil in Hs|]).
    by apply elem_of_nil in Ha.
Defined.

(** A zero-width atom that sits at the end of a selection is underlined,
    though the selection holds none of its positions. *)
Lemma highlighter_underlines_gutter_at_selection_end :
  SelectionsHighlighter [mkSelection 0 5]
    [gutter_atom 5 1; new_atom 5 10 Default Default]
  = Ok [add_underline (gutter_atom 5 1); new_atom 5 10 Default Default].
Proof. reflexivity. Qed.

(** The count of atoms through the sweep over atoms that tile [[lo,hi)]:
    a selection makes at most two atoms more, one when it is left (the
    cases drawn as [[------###]] and [[---###---]]) and one when it is
    entered, and once the atoms ahead begin at or after its begin it can
    only be left. *)
Lemma sweep_count fuel done todo cur lo hi db' :
  covers todo lo hi →
  sweep fuel (done ++ todo) (length done) cur = Ok db' →
  length db' + begun cur lo ≤ length done + length todo + 2 * length cur.
Proof.
  revert done todo cur lo.
  induction fuel as [|fuel IH]; intros pre todo cur lo Hc Hrun;
    (destruct todo as [|a rest];
     [rewrite sweep_end in Hrun
        by (apply lookup_ge_None; rewrite app_nil_r; lia);
      injection Hrun as <-; rewrite app_nil_r;
      destruct cur as [|s cur]; simpl; [lia|destruct (_ <=? _); lia]|]);
    (destruct cur as [|s cur];
     [rewrite sweep_no_selection in Hrun; injection Hrun as <-;
      rewrite length_app; simpl; lia|]).
  { by rewrite sweep_no_fuel in Hrun. }
  destruct Hc as (Hlo & Hle & Hc).
  pose proof (covers_le _ _ _ Hc) as Hhi.
  rewrite sweep_round in Hrun. cbn [begun length].
  assert (∀ n, begun cur n ≤ 1) as Hb1
    by (intros n; destruct cur; simpl; [lia|destruct (_ <=? _); lia]).
  destruct (Nat.leb_spec (sel_begin s) lo) as [Hbegun|Hnot];
    sweep_cases a s; try lia.
  - destruct (splitable a); [|done].
    apply (IH _ (_ :: rest) cur (sel_end s)) in Hrun;
      [|cbn; repeat split; (done || lia)].
    rewrite length_app in Hrun. simpl in Hrun. lia.
  - apply (IH _ rest (s :: cur) (a_end a)) in Hrun; [|done].
    rewrite length_app in Hrun. cbn [begun length] in Hrun.
    destruct (Nat.leb_spec (sel_begin s) (a_end a)); lia.
  - apply (IH _ (a :: rest) cur lo) in Hrun;
      [|cbn; repeat split; (done || lia)].
    specialize (Hb1 lo). simpl in Hrun. lia.
  - destruct (negb (sel_begin s <? a_end a)); [done|].
    destruct (splitable a); [|done]. destruct (sel_begin s <? sel_end s); [|done].
    apply (IH _ (_ :: rest) cur (sel_end s)) in Hrun;
      [|cbn; repeat split; (done || lia)].
    rewrite length_app in Hrun. simpl in Hrun. lia.
  - destruct (splitable a); [|done].
    apply (IH _ rest (s :: cur) (a_end a)) in Hrun; [|done].
    rewrite length_app in Hrun. cbn [begun length] in Hrun.
    destruct (Nat.leb_spec (sel_begin s) (a_end a)); lia.
  - apply (IH _ (a :: rest) cur lo) in Hrun;
      [|cbn; repeat split; (done || lia)].
    specialize (Hb1 lo). simpl in Hrun. lia.
  - apply (IH _ rest (s :: cur) (a_end a)) in Hrun; [|done].
    rewrite length_app in Hrun. cbn [begun length] in Hrun.
    destruct (Nat.leb_spec (sel_begin s) (a_end a)); lia.
Qed.

(** X13: on a display buffer that satisfies the partition invariants, a
    completed run of the sweep, over whatever order [std::sort] leaves the
    selections in, leaves at most two atoms more for each selection, and
    never fewer atoms than there were.  How many it leaves depends on the
    order: the selections [[3,5)], [[3,7)], [[3,9)] on the atom [[0,10)]
    leave five atoms in that order and three with [[3,9)] first. *)
Theorem highlighter_adds_two_atoms_a_selection selections sorted db lo hi db' :
  covers db lo hi → sorted_by_begin selections sorted →
  highlight_sorted db sorted = Ok db' →
  length db ≤ length db' ≤ length db + 2 * length selections.
Proof.
  intros Hc [Hperm _] Hrun. unfold highlight_sorted in Hrun. split.
  - by apply sweep_edits, edits_length in Hrun.
  - apply (sweep_count _ [] db _ lo hi) in Hrun; [|done].
    apply Permutation_length in Hperm. simpl in Hrun. lia.
Qed.

Lemma highlighter_adds_two_atoms_a_selection_witness :
  let db := [new_atom 0 10 Default Default] in
  let selections := [mkSelection 3 5; mkSelection 3 7; mkSelection 3 9] in
  ∃ db5 db3,
    highlight_sorted db selections = Ok db5
    ∧ highlight_sorted db [mkSelection 3 9; mkSelection 3 5; mkSelection 3 7]
      = Ok db3
    ∧ length db5 = 5 ∧ length db3 = 3
    ∧ length db ≤ length db5 ≤ length db + 2 * length selections.
Proof.
  intros db selections. eexists _, _.
  split; [reflexivity|]. split; [reflexivity|].
  split; [reflexivity|]. split; [reflexivity|].
  apply (highlighter_adds_two_atoms_a_selection selections selections db 0 10).
  - simpl. repeat split; lia.
  - split; [done|]. repeat constructor; unfold begins_before; simpl; lia.
  - reflexivity.
Defined.

(** ** Factories and registration *)

Lemma register_filters_entries (b : Buffer) (boost : cpp_pattern → regex)
    name (factory : FilterFactory) :
  (name, factory) ∈ register_filters b boost [] →
  (name = "highlight_selections"%string
   ∧ factory = SelectionsHighlighter_create)
  ∨ (name = "expand_tabs"%string
     ∧ factory = SimpleFilterFactory (expand_tabulations b) "expand_tabs")
  ∨ (name = "number_lines"%string
     ∧ factory = SimpleFilterFactory (show_line_numbers b) "number_lines")
  ∨ (name = "hlcpp"%string
     ∧ factory = SimpleFilterFactory (colorize_cplusplus boost) "hlcpp").
Proof.
  unfold register_filters, register_factory. cbn [app].
  rewrite !elem_of_cons, elem_of_nil.
  intros [H|[H|[H|[H|[]]]]]; injection H as -> ->; tauto.
Qed.

Lemma filter_runs_edits (b : Buffer) (boost : cpp_pattern → regex) name
    (factory : FilterFactory) window params db db' :
  (name, factory) ∈ register_filters b boost [] →
  filter_runs factory window params db db' → edits db db'.
Proof.
  intros Hin [Hrun|(_ & sorted & _ & Hrun)].
  - apply filter_run_edits.
    apply register_filters_entries in Hin
      as [[_ ->]|[[_ ->]|[[_ ->]|[_ ->]]]]; cbn in Hrun.
    + by eapply run_SelectionsHighlighter.
    + by eapply run_expand_tabulations.
    + by eapply run_show_line_numbers.
    + by eapply run_colorize_cplusplus.
  - by eapply sweep_edits.
Qed.

(** X14: each factory that [register_filters] registers makes, for every
    window and whatever the parameters, a filter whose id is the name the
    factory is registered under; and the four names are different, so that
    a name finds one factory. *)
Theorem registered_ids_are_names (b : Buffer) (boost : cpp_pattern → regex) :
  (∀ name (factory : FilterFactory) window params,
     (name, factory) ∈ register_filters b boost [] →
     (factory window params).1 = name)
  ∧ NoDup (register_filters b boost []).*1
  ∧ (register_filters b boost []).*1
    = ["highlight_selections"; "expand_tabs"; "number_lines"; "hlcpp"]%string.
Proof.
  split; [|split].
  - intros name factory window params Hin.
    by apply register_filters_entries in Hin
      as [[-> ->]|[[-> ->]|[[-> ->]|[-> ->]]]].
  - cbn. repeat (apply NoDup_cons; split;
                 [rewrite ?elem_of_cons, elem_of_nil; intros H;
                  destruct_or?; done|]).
    apply NoDup_nil_2.
  - done.
Qed.

(** X15: the filters made by the registered factories, run in sequence
    in whatever order and number, the highlighter over whatever order
    [std::sort] leaves its selections in, keep the partition invariants:
    when the sequence has run on a display buffer that tiles a range, the
    outcome tiles the same range, its real atoms in increasing order of
    begin and sharing no position, and no atom has been taken away. *)
Theorem registered_filters_keep_partition (b : Buffer)
    (boost : cpp_pattern → regex) db lo hi db' :
  pipeline_run (register_filters b boost []) db db' → covers db lo hi →
  covers db' lo hi ∧ ordered_by_begin db' ∧ non_overlapping db'
  ∧ length db ≤ length db'.
Proof.
  intros Hrun Hc.
  assert (edits db db') as Hedits.
  { clear Hc. induction Hrun as [db|name factory window params db db1 db'
                                   Hin H1 _ IH]; [apply edits_refl|].
    eapply edits_trans; [|exact IH]. by eapply filter_runs_edits. }
  pose proof (covers_edits _ _ _ _ Hedits Hc) as Hc'.
  split; [done|]. split; [by eapply covers_ordered|].
  split; [by eapply covers_non_overlapping|by apply edits_length].
Qed.

Lemma registered_filters_keep_partition_witness :
  let b := ["a"; tab_char; "b"; newline_char; "c"]%char in
  let boost := λ p : cpp_pattern,
    match p with
    | values => λ _ _ : nat, [(2, 3)]
    | _ => λ _ _, []
    end in
  let window := mkWindow [mkSelection 1 2; mkSelection 1 4] in
  ∃ db',
    pipeline_run (register_filters b boost []) [new_atom 0 5 Default Default] db'
    ∧ covers db' 0 5 ∧ length db' = 7.
Proof.
  intros b boost window.
  assert (∃ db', pipeline_run (register_filters b boost [])
                   [new_atom 0 5 Default Default] db' ∧ length db' = 7)
    as (db' & Hrun & Hlen).
  { eexists. split.
    - eapply (pipeline_step _ "highlight_selections"%string
                SelectionsHighlighter_create window []);
        [by left| |].
      { right. split; [done|].
        exists [mkSelection 1 4; mkSelection 1 2]. split; [|reflexivity].
        split; [apply Permutation_swap|].
        repeat constructor; unfold begins_before; simpl; lia. }
      eapply (pipeline_step _ "expand_tabs"%string _ window []);
        [by right; left|by left|].
      eapply (pipeline_step _ "number_lines"%string _ window []);
        [by do 2 right; left|by left|].
      eapply (pipeline_step _ "hlcpp"%string _ window []);
        [by do 3 right; left|by left|].
      apply pipeline_done.
    - reflexivity. }
  exists db'. split; [exact Hrun|].
  destruct (registered_filters_keep_partition b boost
              [new_atom 0 5 Default Default] 0 5 db' Hrun)
    as (Hc & _).
  - simpl. repeat split; lia.
  - split; [exact Hc|exact Hlen].
Defined.

(** ** The order of the filters *)

Lemma expanded_from_splitable (b : Buffer) a' a :
  expanded_from b a' a → is_real a' = true →
  (is_real a = true → splitable a = true) → splitable a' = true.
Proof.
  intros [(p & Hp & _ & ->)|(f & t & Hf & Ht & -> & _)] Hreal Hs; cbn.
  - apply Hs. apply contains_spec in Hp. apply is_real_spec. lia.
  - apply Hs. apply is_real_spec in Hreal. cbn in Hreal.
    apply is_real_spec. lia.
Qed.

(** X17: the tab expander run before the colorizer costs the matches that
    hold a tab: on a display buffer that satisfies the partition
    invariants, lies within the buffer and has its real atoms splitable,
    [expand_tabulations] completes, and when every match of the pattern
    holds a tab, [colorize_regex] run on the outcome completes and colors
    nothing, the display buffer coming out as it went in: the atom of the
    tab ends inside the match, so the begin and the end of the match are
    found in different atoms. *)
Theorem match_over_tab_dropped_after_expansion (b : Buffer) db lo hi
    (ex : regex) color :
  covers db lo hi → db ≠ [] → hi ≤ length b → real_splitable db →
  matches_in_order lo hi (ex lo hi) →
  (∀ m, m ∈ ex lo hi → ∃ p, m.1 ≤ p < m.2 ∧ b !! p = Some tab_char) →
  ∃ db',
    expand_tabulations b db = Ok db' ∧ colorize_regex db' ex color = Ok db'.
Proof.
  intros Hc Hne Hb Hsp Hms Htab.
  destruct (expand_tabulations_run b db lo hi) as (db' & Hrun & Hc' & Hpieces);
    [done..|].
  destruct (expand_from_zip b (length db + 2 * width db) [] db lo hi)
    as (db'' & Hrun' & _ & Htabs); [done..|by rewrite (covers_width _ _ _ Hc)|].
  unfold expand_tabulations in Hrun. cbn [app length] in Hrun'.
  rewrite Hrun in Hrun'. injection Hrun' as <-.
  exists db'. split; [done|].
  assert (db' ≠ []) as Hne'.
  { apply expand_from_edits, edits_length in Hrun.
    intros ->. destruct db; [done|]. simpl in Hrun. lia. }
  assert (real_splitable db') as Hsp'.
  { intros a' Ha' Hreal. destruct (Hpieces a' Ha') as (a & Ha & Hex).
    eapply expanded_from_splitable; [done..|]. by apply Hsp. }
  unfold colorize_regex.
  destruct (covers_display_ends _ _ _ Hc' Hne') as [-> ->].
  cbn [mbind result_bind].
  apply (colorize_matches_settled color _ db' lo hi 0); [done..| |].
  { intros m _ i a _ Hlt. lia. }
  intros m Hm x Hx Hcx.
  destruct (Htab m Hm) as (p & Hp & Hbp).
  destruct Hms as [Hin _].
  pose proof (proj1 (Forall_forall _ _) Hin m Hm) as (Hlo & _ & Hhi).
  destruct (Htabs p ltac:(lia) Hbp) as (a & _ & _ & Ht).
  apply contains_spec in Hcx.
  destruct (decide (p < a_end x)) as [Hlt|Hge]; [|lia].
  assert (x = tab_atom b a p) as ->.
  { apply (covers_contains_unique _ _ _ _ _ p Hc' Hx Ht);
      apply contains_spec; cbn; lia. }
  cbn. lia.
Qed.

Lemma match_over_tab_dropped_after_expansion_witness :
  let b := ["a"; tab_char; "b"; "c"]%char in
  let db := [new_atom 0 4 Default Default] in
  ∃ db',
    expand_tabulations b db = Ok db'
    ∧ colorize_regex db' (λ _ _, [(0, 3)]) Red = Ok db'
    ∧ colorize_regex db (λ _ _, [(0, 3)]) Red
      = Ok [set_fg Red (new_atom 0 3 Default Default);
            new_atom 3 4 Default Default].
Proof.
  intros b db.
  destruct (match_over_tab_dropped_after_expansion b db 0 4
              (λ _ _, [(0, 3)]) Red)
    as (db' & Hrun & Hcol).
  - simpl. repeat split; lia.
  - discriminate.
  - simpl. lia.
  - intros a Ha _. repeat (apply elem_of_cons in Ha as [->|Ha]; [reflexivity|]).
    by apply elem_of_nil in Ha.
  - split; repeat constructor; simpl; lia.
  - intros m Hm. apply list_elem_of_singleton in Hm as ->.
    exists 1. split; [simpl; lia|reflexivity].
  - exists db'. split; [exact Hrun|]. split; [exact Hcol|reflexivity].
Defined.
